(** * JOLT binary codec, comment stripper and JOLT-SEC header check

    A shallow embedding of the Go sources of jolt-go:
    - [jolt/codec_binary.go]  : [EncodeBinary], [DecodeBinary] and their helpers;
    - [jolt/stream.go]        : [WriteFrame] and [ReadFrame];
    - the comment stripper    : [StripJSONComments];
    - [joltsec]               : [EncryptJOLT], [DecryptJOLT], [StaticKeyring];
    - two small helpers       : [NewUUID] and [trimNewlines].

    Conventions.  A Go [byte] is a [Byte.byte]; a Go [string] is a Rocq
    [string] (both are plain octet sequences); [uint64] values are [N] and
    signed integers are [Z], with conversions between widths written out.
    [big.Int] is [Z] and a non-negative big coefficient is [N].  The model is
    that of a 64-bit platform ([int] is [int64]). *)

From Stdlib Require Import List NArith ZArith Lia Bool String Ascii.
From Stdlib Require Import Permutation Sorted Wf_nat.
From Stdlib Require Strings.Byte.
Import ListNotations.
Import Stdlib.Init.Byte.

Local Open Scope N_scope.
Local Open Scope list_scope.

Set Warnings "-register-all".

(** ** Results and errors *)

(** The error values the codec can return.  [ErrEOF], [ErrUnexpectedEOF] and
    [ErrOverflow] come from the byte reader and from [binary.ReadUvarint];
    [Panic] stands for a Go run-time panic (slice allocation with a length out
    of range, or an unhashable map key). *)
Inductive Error : Type :=
| ErrUnknownTag (tag : byte)
| ErrBadEnvelope
| ErrTooDeep
| ErrEOF
| ErrUnexpectedEOF
| ErrOverflow
| ErrFellThrough
| Panic.

Inductive Res (A : Type) : Type :=
| Ok (a : A)
| Err (e : Error).
Arguments Ok {A} a.
Arguments Err {A} e.

Definition bind {A B} (r : Res A) (k : A -> Res B) : Res B :=
  match r with
  | Ok a => k a
  | Err e => Err e
  end.

Notation "x <- r ;; k" := (bind r (fun x => k))
  (at level 61, r at next level, right associativity).
Notation "' p <- r ;; k" := (bind r (fun p => k))
  (at level 61, p pattern, r at next level, right associativity).

(** ** Bytes and fixed-width integers *)

Definition byteN (b : byte) : N := Byte.to_N b.

(** Go's conversion [byte(x)]: the low eight bits. *)
Definition mkByte (n : N) : byte :=
  match Byte.of_N (n mod 256) with
  | Some b => b
  | None => x00
  end.

Definition toUint64 (z : Z) : Z := (z mod 2 ^ 64)%Z.
Definition toInt64 (z : Z) : Z := ((z + 2 ^ 63) mod 2 ^ 64 - 2 ^ 63)%Z.
Definition toInt32 (z : Z) : Z := ((z + 2 ^ 31) mod 2 ^ 32 - 2 ^ 31)%Z.

Definition maxInt : N := 2 ^ 63 - 1.

(** [int(n)] for a [uint64] [n], as used in the loop bounds
    [for i := 0; i < int(n); i++]: a value above [maxInt] converts to a
    negative [int] and the loop body never runs. *)
Definition loopCount (n : N) : nat :=
  if n <=? maxInt then N.to_nat n else 0%nat.

(** ** Wire tags *)

Definition tagNull : byte := x00.
Definition tagF : byte := x01.
Definition tagT : byte := x02.
Definition tagInt : byte := x03.
Definition tagDec : byte := x04.
Definition tagStr : byte := x05.
Definition tagBin : byte := x06.
Definition tagArr : byte := x07.
Definition tagObj : byte := x08.
Definition tagTS : byte := x09.
Definition tagDate : byte := x0a.
Definition tagTime : byte := x0b.
Definition tagSet : byte := x0c.
Definition tagMap : byte := x0d.
Definition tagUUID : byte := x0e.
Definition tagLink : byte := x0f.
Definition tagAnnot : byte := x10.
Definition tagEnv : byte := x11.

Record Limits : Type := { MaxDepth : nat; MaxBytes : N }.

Definition DefaultLimits : Limits :=
  {| MaxDepth := 1024; MaxBytes := N.shiftl 64 20 |}.

(** [PreserveComments] is a package-level variable, [false] unless a caller
    sets it; the codec functions below take it as an explicit argument. *)
Definition PreserveCommentsDefault : bool := false.

(** ** uvarint and zigzag *)

(** [binary.PutUvarint]: [for x >= 0x80 { buf[i] = byte(x) | 0x80; x >>= 7 }]
    then [buf[i] = byte(x)].  A [uint64] needs at most nine continuation
    bytes, which bounds the loop. *)
Fixpoint putUvarintLoop (n : nat) (x : N) : list byte :=
  match n with
  | O => [mkByte x]
  | S n' =>
      if 128 <=? x
      then mkByte (N.lor (byteN (mkByte x)) 128) :: putUvarintLoop n' (N.shiftr x 7)
      else [mkByte x]
  end.

Definition putUvarint (x : N) : list byte := putUvarintLoop 9 x.

(** [binary.ReadUvarint] over an [io.ByteReader] whose state is the list of
    unread bytes.  [n] counts the iterations left of [MaxVarintLen64 = 10],
    [i] is the loop index.  No successful return needs a 64-bit wrap: the
    last byte is accepted at [i = 9] only when it is at most 1. *)
Fixpoint readUvarintLoop (n : nat) (i x s : N) (br : list byte) : Res (N * list byte) :=
  match n with
  | O => Err ErrOverflow
  | S n' =>
      match br with
      | [] => if 0 <? i then Err ErrUnexpectedEOF else Err ErrEOF
      | b :: br' =>
          if byteN b <? 128
          then
            if (i =? 9) && (1 <? byteN b)
            then Err ErrOverflow
            else Ok (N.lor x (N.shiftl (byteN b) s), br')
          else
            readUvarintLoop n' (i + 1)
              (N.lor x (N.shiftl (N.land (byteN b) 127) s)) (s + 7) br'
      end
  end.

Definition readUvarint (br : list byte) : Res (N * list byte) :=
  readUvarintLoop 10 0 0 0 br.

(** [putZigZag]: [x := uint64((i << 1) ^ (i >> 63))] for an [int64] [i]. *)
Definition zigzag (i : Z) : N :=
  Z.to_N (toUint64 (Z.lxor (toInt64 (Z.shiftl i 1)) (Z.shiftr i 63))).

Definition putZigZag (i : Z) : list byte := putUvarint (zigzag i).

(** [readZigZag]: [int64((u >> 1) ^ uint64((int64(u&1) << 63) >> 63))]. *)
Definition unzigzag (u : N) : Z :=
  toInt64
    (Z.lxor (Z.shiftr (Z.of_N u) 1)
       (toUint64 (Z.shiftr (toInt64 (Z.shiftl (Z.land (Z.of_N u) 1) 63)) 63))).

Definition readZigZag (br : list byte) : Res (Z * list byte) :=
  '(u, br') <- readUvarint br ;;
  Ok (unzigzag u, br').

Definition bytesOfString (s : string) : list byte := list_byte_of_string s.
Definition stringOfBytes (b : list byte) : string := string_of_list_byte b.

Definition lenN {A} (l : list A) : N := N.of_nat (List.length l).

(** [writeBytes]: [putUvarint(uint64(len(b)))] then [b]. *)
Definition writeBytes (b : list byte) : list byte :=
  putUvarint (lenN b mod 2 ^ 64) ++ b.

Definition writeString (s : string) : list byte := writeBytes (bytesOfString s).

(** ** The value universe *)

(** Modelled from the spec: [apd.Decimal] is declared outside the repository;
    the spec's data model gives a Dec as sign, coefficient and a signed 32-bit
    exponent, which are the three fields the codec reads and writes. *)
Record Decimal : Type := { Negative : bool; Exponent : Z; Coeff : N }.

(** [type Meta struct], over the type of the [Sig any] field.  [Created] is
    the [*Timestamp] (its [RFC3339] text when non-nil) and [Features] the
    [[]string], [None] for the nil slice. *)
Record Meta_ (V : Type) : Type := {
  Type_ : string;
  Schema : string;
  Version : string;
  Created : option string;
  Features : option (list string);
  Sig : option V
}.
Arguments Type_ {V} _.
Arguments Schema {V} _.
Arguments Version {V} _.
Arguments Created {V} _.
Arguments Features {V} _.
Arguments Sig {V} _.

(** The dynamic types of Go's [any] that the codec's type switches name.
    [VObj] is a [map[string]any] and [VMap] a [Map], both as association
    lists whose order is the (unspecified) iteration order of the Go map;
    [VSet] is the slice type [Set].  [VStrings] is a [[]string], the one
    type outside the data model that the encoder builds itself (the
    [features] entry of an envelope's meta map). *)
Inductive Value : Type :=
| VNull
| VBool (x : bool)
| VStr (x : string)
| VInt (V : Z)
| VDecimal (D : Decimal)
| VBinary (x : list byte)
| VTimestamp (RFC3339 : string)
| VDate (YYYYMMDD : string)
| VTime (HHMMSS : string)
| VUUID (x : list byte)
| VLink (Ref : string)
| VAnnot (Note : string)
| VArr (x : list Value)
| VObj (x : list (string * Value))
| VSet (x : list Value)
| VMap (x : list (Value * Value))
| VEnvelope (meta : Meta_ Value) (Body : Value)
| VStrings (x : option (list string)).

Definition Meta : Type := Meta_ Value.

(** ** Go maps as association lists *)

Fixpoint mapGet {V : Type} (k : string) (m : list (string * V)) : option V :=
  match m with
  | [] => None
  | (k', v) :: m' => if String.eqb k' k then Some v else mapGet k m'
  end.

(** [m[k] = v]: replaces the value of an existing key, else adds the entry. *)
Fixpoint mapSet {V : Type} (k : string) (v : V) (m : list (string * V)) : list (string * V) :=
  match m with
  | [] => [(k, v)]
  | (k', v') :: m' =>
      if String.eqb k' k then (k, v) :: m' else (k', v') :: mapSet k v m'
  end.

(** [obj[k]] read as an [any]: the nil interface when the key is absent. *)
Definition mapIndex (k : string) (m : list (string * Value)) : Value :=
  match mapGet k m with
  | Some v => v
  | None => VNull
  end.

(** ** Big integers as bytes *)

(** [big.Int.Bytes]: the big-endian magnitude without leading zero bytes. *)
Fixpoint bigBytesLoop (fuel : nat) (n : N) (acc : list byte) : list byte :=
  match fuel with
  | O => acc
  | S f => if n =? 0 then acc else bigBytesLoop f (N.shiftr n 8) (mkByte n :: acc)
  end.

Definition bigBytes (n : N) : list byte := bigBytesLoop (N.to_nat (N.size n)) n [].

(** [big.Int.SetBytes]: the big-endian unsigned value of a byte slice. *)
Definition setBytes (b : list byte) : N :=
  fold_left (fun acc x => acc * 256 + byteN x) b 0.

(** ** Ordering and sorting *)

(** [bytes.Compare], which is also Go's [<] on strings. *)
Fixpoint bytesCompare (a b : list byte) : comparison :=
  match a, b with
  | [], [] => Eq
  | [], _ :: _ => Lt
  | _ :: _, [] => Gt
  | x :: a', y :: b' =>
      match N.compare (byteN x) (byteN y) with
      | Eq => bytesCompare a' b'
      | c => c
      end
  end.

Definition bytesLess (a b : list byte) : bool :=
  match bytesCompare a b with
  | Lt => true
  | _ => false
  end.

Definition stringLess (s t : string) : bool :=
  bytesLess (bytesOfString s) (bytesOfString t).

(** [sort.Strings] and [sort.Slice] leave the algorithm unspecified; an
    insertion sort stands for them.  [x] is placed before the first element
    that is not less than it.  For a total order whose ties are identical
    elements every sorting algorithm returns this same list. *)
Section Sorting.
Context {A : Type}.
Variable less : A -> A -> bool.

Fixpoint insertBy (x : A) (l : list A) : list A :=
  match l with
  | [] => [x]
  | y :: l' => if less y x then y :: insertBy x l' else x :: y :: l'
  end.

Fixpoint sortBy (l : list A) : list A :=
  match l with
  | [] => []
  | x :: l' => insertBy x (sortBy l')
  end.
End Sorting.

(** ** UTF-8, as [encoding/json] sees strings on the [default] encoder path *)

Definition inRange (lo hi : N) (b : byte) : bool :=
  (lo <=? byteN b) && (byteN b <=? hi).

Definition isCont (b : byte) : bool := inRange 128 191 b.

(** Length of the well-formed UTF-8 sequence at the head of [bs] (RFC 3629,
    as [utf8.DecodeRune] accepts it), or [0] when there is none. *)
Definition runeLen (bs : list byte) : nat :=
  match bs with
  | [] => 0%nat
  | b0 :: t =>
      if byteN b0 <? 128 then 1%nat
      else if inRange 194 223 b0 then
        match t with
        | b1 :: _ => if isCont b1 then 2%nat else 0%nat
        | _ => 0%nat
        end
      else if inRange 224 239 b0 then
        match t with
        | b1 :: b2 :: _ =>
            let lo := if byteN b0 =? 224 then 160 else 128 in
            let hi := if byteN b0 =? 237 then 159 else 191 in
            if inRange lo hi b1 && isCont b2 then 3%nat else 0%nat
        | _ => 0%nat
        end
      else if inRange 240 244 b0 then
        match t with
        | b1 :: b2 :: b3 :: _ =>
            let lo := if byteN b0 =? 240 then 144 else 128 in
            let hi := if byteN b0 =? 244 then 143 else 191 in
            if inRange lo hi b1 && isCont b2 && isCont b3 then 4%nat else 0%nat
        | _ => 0%nat
        end
      else 0%nat
  end.

Fixpoint utf8ValidLoop (fuel : nat) (bs : list byte) : bool :=
  match bs with
  | [] => true
  | _ :: _ =>
      match fuel with
      | O => false
      | S f =>
          match runeLen bs with
          | O => false
          | n => utf8ValidLoop f (skipn n bs)
          end
      end
  end.

(** [utf8.Valid]. *)
Definition utf8Valid (bs : list byte) : bool := utf8ValidLoop (List.length bs) bs.

Fixpoint toValidLoop (fuel : nat) (bs : list byte) : list byte :=
  match bs with
  | [] => []
  | _ :: t =>
      match fuel with
      | O => []
      | S f =>
          match runeLen bs with
          | O => xef :: xbf :: xbd :: toValidLoop f t
          | n => firstn n bs ++ toValidLoop f (skipn n bs)
          end
      end
  end.

(** What a string becomes through [json.Marshal] then [json.Unmarshal]: each
    byte that does not start a well-formed sequence is replaced by U+FFFD. *)
Definition jsonString (s : string) : string :=
  let bs := bytesOfString s in
  stringOfBytes (toValidLoop (List.length bs) bs).

(** The [default] branch of [encodeAny] on a [[]string]: [json.Marshal]
    gives [null] for the nil slice and an array of strings otherwise, which
    [json.Unmarshal] into an [any] reads back as [nil] or a [[]any]. *)
Definition jsonRoundTrip (x : option (list string)) : Value :=
  match x with
  | None => VNull
  | Some l => VArr (map (fun s => VStr (jsonString s)) l)
  end.

(** ** The encoder *)

(** The loops of [encodeAny].  All writes go to a [bytes.Buffer], which never
    fails, so a write is an append and the only error is the one returned by
    a nested [encodeAny]. *)
Section EncodeLoops.
Variable enc : Value -> Res (list byte).

(** [for _, it := range x { encodeAny(w, it, depth+1) }] *)
Fixpoint encodeItems (x : list Value) : Res (list byte) :=
  match x with
  | [] => Ok []
  | it :: x' =>
      b <- enc it ;;
      bs <- encodeItems x' ;;
      Ok (b ++ bs)
  end.

(** [for _, k := range ks { writeString(w, k); encodeAny(w, obj[k], depth+1) }] *)
Fixpoint encodeFields (obj : list (string * Value)) (ks : list string) : Res (list byte) :=
  match ks with
  | [] => Ok []
  | k :: ks' =>
      b <- enc (mapIndex k obj) ;;
      bs <- encodeFields obj ks' ;;
      Ok (writeString k ++ b ++ bs)
  end.

(** Each element of a [Set] into a buffer of its own. *)
Fixpoint encodeEach (x : list Value) : Res (list (list byte)) :=
  match x with
  | [] => Ok []
  | it :: x' =>
      b <- enc it ;;
      tmp <- encodeEach x' ;;
      Ok (b :: tmp)
  end.

(** Each key and value of a [Map] into buffers of their own. *)
Fixpoint encodePairs (x : list (Value * Value)) : Res (list (list byte * list byte)) :=
  match x with
  | [] => Ok []
  | (k, v) :: x' =>
      kb <- enc k ;;
      vb <- enc v ;;
      kvs <- encodePairs x' ;;
      Ok ((kb, vb) :: kvs)
  end.
End EncodeLoops.

Definition isComment (k : string) : bool := String.eqb k "$comment".

(** The map literal of the [Envelope] case with its two optional entries. *)
Definition metaMap (meta : Meta) : list (string * Value) :=
  let m := [("type"%string, VStr (Type_ meta));
            ("schema"%string, VStr (Schema meta));
            ("version"%string, VStr (Version meta));
            ("features"%string, VStrings (Features meta))] in
  let m := match Created meta with
           | Some ts => mapSet "createdAt" (VTimestamp ts) m
           | None => m
           end in
  match Sig meta with
  | Some sig => mapSet "sig" sig m
  | None => m
  end.

(** [encodeAny(w, v, depth)], returning the bytes written.  [fuel] is
    [MaxDepth + 1 - depth]: the guard [depth > MaxDepth] is [fuel = 0] and
    every call at [depth+1] is a call at [fuel - 1].  [pc] is the value of
    [PreserveComments].  The native numeric types and the [default] branch on
    types other than [[]string] lie outside the data model and are not
    embedded. *)
Fixpoint encodeAny (pc : bool) (fuel : nat) (v : Value) : Res (list byte) :=
  match fuel with
  | O => Err ErrTooDeep
  | S f =>
      match v with
      | VNull => Ok [tagNull]
      | VBool x => if x then Ok [tagT] else Ok [tagF]
      | VStr x => Ok (tagStr :: writeString x)
      | VInt x =>
          let sign := if (x <? 0)%Z then x01 else x00 in
          let mag := bigBytes (Z.abs_N x) in
          Ok (tagInt :: putUvarint ((lenN mag + 1) mod 2 ^ 64) ++ sign :: mag)
      | VDecimal x =>
          let sign := if Negative x then x01 else x00 in
          let coef := bigBytes (Coeff x) in
          Ok (tagDec :: sign :: putZigZag (Exponent x) ++ writeBytes coef)
      | VBinary x => Ok (tagBin :: writeBytes x)
      | VTimestamp s => Ok (tagTS :: writeString s)
      | VDate s => Ok (tagDate :: writeString s)
      | VTime s => Ok (tagTime :: writeString s)
      | VUUID x => Ok (tagUUID :: x)
      | VLink s => Ok (tagLink :: writeString s)
      | VAnnot s => Ok (tagAnnot :: writeString s)
      | VArr x =>
          items <- encodeItems (encodeAny pc f) x ;;
          Ok (tagArr :: putUvarint (lenN x mod 2 ^ 64) ++ items)
      | VObj x =>
          let obj := if pc then x else filter (fun kv => negb (isComment (fst kv))) x in
          let ks := sortBy stringLess (map fst obj) in
          items <- encodeFields (encodeAny pc f) obj ks ;;
          Ok (tagObj :: putUvarint (lenN ks mod 2 ^ 64) ++ items)
      | VSet x =>
          tmp <- encodeEach (encodeAny pc f) x ;;
          let tmp := sortBy bytesLess tmp in
          Ok (tagSet :: putUvarint (lenN tmp mod 2 ^ 64) ++ List.concat tmp)
      | VMap x =>
          kvs <- encodePairs (encodeAny pc f) x ;;
          let kvs := sortBy (fun p q => bytesLess (fst p) (fst q)) kvs in
          Ok (tagMap :: putUvarint (lenN kvs mod 2 ^ 64)
                ++ List.concat (map (fun p => fst p ++ snd p) kvs))
      | VEnvelope meta body =>
          mb <- encodeAny pc f (VObj (metaMap meta)) ;;
          bb <- encodeAny pc f body ;;
          Ok (tagEnv :: mb ++ bb)
      | VStrings x => encodeAny pc f (jsonRoundTrip x)
      end
  end.

Definition EncodeBinaryWith (pc : bool) (v : Value) : Res (list byte) :=
  encodeAny pc (S (MaxDepth DefaultLimits)) v.

(** [EncodeBinary] with [PreserveComments] at its initial value. *)
Definition EncodeBinary (v : Value) : Res (list byte) :=
  EncodeBinaryWith PreserveCommentsDefault v.

(** ** The decoder *)

(** [br.ReadByte()] on a [bytes.Buffer]: the state is the unread bytes. *)
Definition ReadByte (br : list byte) : Res (byte * list byte) :=
  match br with
  | [] => Err ErrEOF
  | b :: br' => Ok (b, br')
  end.

(** [sign, _ := br.ReadByte()]: the error is dropped and the byte is zero. *)
Definition readByteIgnoringError (br : list byte) : byte * list byte :=
  match br with
  | [] => (x00, [])
  | b :: br' => (b, br')
  end.

(** [for i := 0; i < int(n); i++ { bt, e := br.ReadByte(); ...; buf[i] = bt }] *)
Fixpoint readLoop (n : N) (br : list byte) {struct br} : Res (list byte * list byte) :=
  if n =? 0 then Ok ([], br)
  else
    match br with
    | [] => Err ErrEOF
    | b :: br' =>
        '(buf, br'') <- readLoop (n - 1) br' ;;
        Ok (b :: buf, br'')
    end.

(** [buf := make([]byte, n)] followed by the loop above.  [make] panics when
    [n] does not fit an [int]; the memory itself is not modelled, so any
    smaller allocation succeeds. *)
Definition readBytes (n : N) (br : list byte) : Res (list byte * list byte) :=
  if maxInt <? n then Err Panic else readLoop n br.

(** Interface values that may be used as a key of a Go map: the dynamic
    types that are slices or maps, and [Envelope] (its [Meta] holds a slice),
    make [out[k] = v] panic. *)
Definition hashable (v : Value) : bool :=
  match v with
  | VBinary _ | VArr _ | VObj _ | VSet _ | VMap _ | VEnvelope _ _ | VStrings _ => false
  | _ => true
  end.

Definition bytesEqb (a b : list byte) : bool :=
  match bytesCompare a b with
  | Eq => true
  | _ => false
  end.

(** Go's [==] between a freshly decoded key and an earlier one.  An [Int]
    holds a pointer to its [big.Int], so two decoded [Int]s are never equal;
    a [Decimal] is compared on the three modelled fields. *)
Definition keyEq (a b : Value) : bool :=
  match a, b with
  | VNull, VNull => true
  | VBool x, VBool y => Bool.eqb x y
  | VStr x, VStr y => String.eqb x y
  | VDecimal x, VDecimal y =>
      Bool.eqb (Negative x) (Negative y) && (Exponent x =? Exponent y)%Z
      && (Coeff x =? Coeff y)
  | VTimestamp x, VTimestamp y => String.eqb x y
  | VDate x, VDate y => String.eqb x y
  | VTime x, VTime y => String.eqb x y
  | VUUID x, VUUID y => bytesEqb x y
  | VLink x, VLink y => String.eqb x y
  | VAnnot x, VAnnot y => String.eqb x y
  | _, _ => false
  end.

(** [out[k] = v] on a [Map]. *)
Fixpoint mapSetAny (k v : Value) (m : list (Value * Value)) : list (Value * Value) :=
  match m with
  | [] => [(k, v)]
  | (k', v') :: m' =>
      if keyEq k' k then (k', v) :: m' else (k', v') :: mapSetAny k v m'
  end.

Section DecodeLoops.
Variable pc : bool.
Variable dec : list byte -> Res (Value * list byte).

(** [for i := 0; i < int(count); i++ { v, e := decodeAny(br, depth+1); out = append(out, v) }] *)
Fixpoint decodeItems (n : nat) (br : list byte) : Res (list Value * list byte) :=
  match n with
  | O => Ok ([], br)
  | S n' =>
      '(v, br) <- dec br ;;
      '(out, br) <- decodeItems n' br ;;
      Ok (v :: out, br)
  end.

(** The loop of the [tagObj] case, [obj] being the map built so far. *)
Fixpoint decodeFields (n : nat) (obj : list (string * Value)) (br : list byte)
  : Res (list (string * Value) * list byte) :=
  match n with
  | O => Ok (obj, br)
  | S n' =>
      '(ln, br) <- readUvarint br ;;
      '(kb, br) <- readBytes ln br ;;
      let k := stringOfBytes kb in
      '(val, br) <- dec br ;;
      if isComment k && negb pc
      then decodeFields n' obj br
      else decodeFields n' (mapSet k val obj) br
  end.

(** The loop of the [tagMap] case. *)
Fixpoint decodeEntries (n : nat) (out : list (Value * Value)) (br : list byte)
  : Res (list (Value * Value) * list byte) :=
  match n with
  | O => Ok (out, br)
  | S n' =>
      '(k, br) <- dec br ;;
      '(v, br) <- dec br ;;
      if hashable k
      then decodeEntries n' (mapSetAny k v out) br
      else Err Panic
  end.
End DecodeLoops.

(** [for _, it := range v { if s, ok := it.(string); ok { ff = append(ff, s) } }] *)
Fixpoint stringsOf (v : list Value) : list string :=
  match v with
  | [] => []
  | VStr s :: v' => s :: stringsOf v'
  | _ :: v' => stringsOf v'
  end.

(** The fields of [env.Meta] that the [tagEnv] case fills from the decoded
    meta map [m]; [Sig] is never assigned. *)
Definition metaOfMap (m : list (string * Value)) : Meta :=
  {| Type_ := match mapIndex "type" m with VStr v => v | _ => "" end;
     Schema := match mapIndex "schema" m with VStr v => v | _ => "" end;
     Version := match mapIndex "version" m with VStr v => v | _ => "" end;
     Created :=
       match mapIndex "createdAt" m with
       | VTimestamp ts => Some ts
       | VObj v => match mapIndex "value" v with VStr s => Some s | _ => None end
       | _ => None
       end;
     Features :=
       match mapIndex "features" m with
       | VArr v => Some (stringsOf v)
       | _ => None
       end;
     Sig := None |}.

Definition isTextTag (tag : byte) : bool :=
  Byte.eqb tag tagStr || Byte.eqb tag tagTS || Byte.eqb tag tagDate
  || Byte.eqb tag tagTime || Byte.eqb tag tagLink || Byte.eqb tag tagAnnot.

(** [decodeAny(br, depth)], returning the value and the unread bytes.
    [fuel] is [MaxDepth + 1 - depth], as for [encodeAny].  [make([]any, 0,
    count)] panics when [count] does not fit an [int]; [make(map, count)]
    does not, and the loop over a negative [int(count)] does nothing. *)
Fixpoint decodeAny (pc : bool) (fuel : nat) (br : list byte) : Res (Value * list byte) :=
  match fuel with
  | O => Err ErrTooDeep
  | S f =>
      '(tag, br) <- ReadByte br ;;
      if Byte.eqb tag tagNull then Ok (VNull, br)
      else if Byte.eqb tag tagF then Ok (VBool false, br)
      else if Byte.eqb tag tagT then Ok (VBool true, br)
      else if isTextTag tag then
        '(n, br) <- readUvarint br ;;
        '(buf, br) <- readBytes n br ;;
        let s := stringOfBytes buf in
        if Byte.eqb tag tagStr then Ok (VStr s, br)
        else if Byte.eqb tag tagTS then Ok (VTimestamp s, br)
        else if Byte.eqb tag tagDate then Ok (VDate s, br)
        else if Byte.eqb tag tagTime then Ok (VTime s, br)
        else if Byte.eqb tag tagLink then Ok (VLink s, br)
        else if Byte.eqb tag tagAnnot then Ok (VAnnot s, br)
        else Err ErrFellThrough
      else if Byte.eqb tag tagBin then
        '(n, br) <- readUvarint br ;;
        '(buf, br) <- readBytes n br ;;
        Ok (VBinary buf, br)
      else if Byte.eqb tag tagInt then
        '(n, br) <- readUvarint br ;;
        if n =? 0 then Ok (VInt 0, br)
        else
          let '(sign, br) := readByteIgnoringError br in
          '(mag, br) <- readBytes (n - 1) br ;;
          let z := Z.of_N (setBytes mag) in
          Ok (VInt (if Byte.eqb sign x01 then (- z)%Z else z), br)
      else if Byte.eqb tag tagDec then
        let '(sign, br) := readByteIgnoringError br in
        '(exp, br) <- readZigZag br ;;
        '(ln, br) <- readUvarint br ;;
        '(coef, br) <- readBytes ln br ;;
        Ok (VDecimal {| Negative := Byte.eqb sign x01;
                        Exponent := toInt32 exp;
                        Coeff := setBytes coef |}, br)
      else if Byte.eqb tag tagArr then
        '(count, br) <- readUvarint br ;;
        if maxInt <? count then Err Panic
        else
          '(out, br) <- decodeItems (decodeAny pc f) (N.to_nat count) br ;;
          Ok (VArr out, br)
      else if Byte.eqb tag tagObj then
        '(count, br) <- readUvarint br ;;
        '(obj, br) <- decodeFields pc (decodeAny pc f) (loopCount count) [] br ;;
        Ok (VObj obj, br)
      else if Byte.eqb tag tagUUID then
        '(u, br) <- readLoop 16 br ;;
        Ok (VUUID u, br)
      else if Byte.eqb tag tagSet then
        '(count, br) <- readUvarint br ;;
        if maxInt <? count then Err Panic
        else
          '(out, br) <- decodeItems (decodeAny pc f) (N.to_nat count) br ;;
          Ok (VSet out, br)
      else if Byte.eqb tag tagMap then
        '(count, br) <- readUvarint br ;;
        '(out, br) <- decodeEntries (decodeAny pc f) (loopCount count) [] br ;;
        Ok (VMap out, br)
      else if Byte.eqb tag tagEnv then
        '(metaAny, br) <- decodeAny pc f br ;;
        match metaAny with
        | VObj m =>
            '(body, br) <- decodeAny pc f br ;;
            Ok (VEnvelope (metaOfMap m) body, br)
        | _ => Err ErrBadEnvelope
        end
      else Err (ErrUnknownTag tag)
  end.

Definition DecodeBinaryWith (pc : bool) (b : list byte) : Res Value :=
  '(v, _) <- decodeAny pc (S (MaxDepth DefaultLimits)) b ;;
  Ok v.

(** [DecodeBinary] with [PreserveComments] at its initial value. *)
Definition DecodeBinary (b : list byte) : Res Value :=
  DecodeBinaryWith PreserveCommentsDefault b.

(** ** The comment stripper *)

Inductive StripState : Type :=
| sNorm
| sStr
| sStrEsc
| sSlash
| sLine
| sBlock
| sBlockStar.

(** The bytes the stripper compares with: the double quote, the slash, the
    star, the backslash, line feed and carriage return. *)
Definition chQuote : byte := x22.
Definition chSlash : byte := x2f.
Definition chStar : byte := x2a.
Definition chBackslash : byte := x5c.
Definition chLF : byte := x0a.
Definition chCR : byte := x0d.

(** One iteration of the loop of [StripJSONComments]: the [switch state]
    on the byte [c], giving the next state and the bytes appended to [out]. *)
Definition stripStep (state : StripState) (c : byte) : StripState * list byte :=
  match state with
  | sNorm =>
      if Byte.eqb c chQuote then (sStr, [c])
      else if Byte.eqb c chSlash then (sSlash, [])
      else (sNorm, [c])
  | sSlash =>
      if Byte.eqb c chSlash then (sLine, [])
      else if Byte.eqb c chStar then (sBlock, [])
      else (sNorm, [chSlash; c])
  | sLine =>
      if Byte.eqb c chLF || Byte.eqb c chCR then (sNorm, [c])
      else (sLine, [])
  | sBlock =>
      if Byte.eqb c chStar then (sBlockStar, [])
      else (sBlock, [])
  | sBlockStar =>
      if Byte.eqb c chSlash then (sNorm, [])
      else if negb (Byte.eqb c chStar) then (sBlock, [])
      else (sBlockStar, [])
  | sStr =>
      if Byte.eqb c chBackslash then (sStrEsc, [c])
      else if Byte.eqb c chQuote then (sNorm, [c])
      else (sStr, [c])
  | sStrEsc => (sStr, [c])
  end.

(** [for i := 0; i < len(in); i++ { ... }] from a given state and output. *)
Fixpoint stripLoop (state : StripState) (out : list byte) (input : list byte)
  : StripState * list byte :=
  match input with
  | [] => (state, out)
  | c :: input' =>
      let '(state', app) := stripStep state c in
      stripLoop state' (out ++ app) input'
  end.

Definition StripJSONComments (input : list byte) : list byte :=
  let '(state, out) := stripLoop sNorm [] input in
  match state with
  | sSlash => out ++ [chSlash]
  | _ => out
  end.

(** ** The secure wrapper: [DecryptJOLT] *)

(** [type Header struct]; [Alg] is a string type, [Extra] may be the nil map. *)
Record Header : Type := {
  Alg : string;
  KeyID : string;
  Extra : option (list (string * string))
}.

(** The errors of [DecryptJOLT], named after the messages of the source.
    [ErrRead] wraps an error of the byte reader, [ErrJSON] is whatever
    [json.Unmarshal] returns, [ErrKeyring] what [kr.Get] returns, and
    [ErrDecode] the error of the final [jolt.DecodeBinary]. *)
Inductive SecError : Type :=
| ErrRead (e : Error)
| ErrBadMagic
| ErrUnsupportedVersion (ver : byte)
| ErrJSON
| ErrHeaderMismatch
| ErrUnsupportedAlg
| ErrKeyring
| ErrKeyLengthMismatch
| ErrDecryptionFailed
| ErrDecode (hdr : Header) (e : Error).

(** The calls that leave the function: the key lookup and the AEAD open. *)
Inductive Event : Type :=
| EvKeyGet (keyID : string)
| EvOpen (alg : string) (key nonce ct aad : list byte).

(** [aeadSuite] without its [newAEAD] closure. *)
Record aeadSuite : Type := { suiteAlg : string; keyLen : N; nonceLen : N }.

Definition AlgXChaCha20Poly1305 : string := "XCHACHA20-POLY1305".
Definition AlgAES256GCM : string := "AES-256-GCM".

(** [suiteFor]: a lookup in the two-entry [suites] map; the key and nonce sizes
    of [chacha20poly1305] are 32 and 24. *)
Definition suiteFor (alg : string) : option aeadSuite :=
  if String.eqb alg AlgXChaCha20Poly1305
  then Some {| suiteAlg := AlgXChaCha20Poly1305; keyLen := 32; nonceLen := 24 |}
  else if String.eqb alg AlgAES256GCM
  then Some {| suiteAlg := AlgAES256GCM; keyLen := 32; nonceLen := 12 |}
  else None.

Definition magicJSEC : list byte := [x4a; x53; x45; x43].
Definition ver01 : byte := x01.

(** A computation of [DecryptJOLT]: it threads the log of outside calls and
    ends in an error (the Go function then returns [nil] and [Header{}] next
    to it) or in the value and the header. *)
Definition Sec (A : Type) : Type := list Event -> list Event * (SecError + A).

Definition secRet {A} (a : A) : Sec A := fun log => (log, inr a).
Definition secFail {A} (e : SecError) : Sec A := fun log => (log, inl e).
Definition secBind {A B} (m : Sec A) (k : A -> Sec B) : Sec B :=
  fun log =>
    match m log with
    | (log', inr a) => k a log'
    | (log', inl e) => (log', inl e)
    end.
Definition secEmit (ev : Event) : Sec unit := fun log => (log ++ [ev], inr tt).

(** A step of the byte reader, its error wrapped. *)
Definition secRead {A} (r : Res A) : Sec A :=
  match r with
  | Ok a => secRet a
  | Err e => secFail (ErrRead e)
  end.

Notation "x <~ m ;; k" := (secBind m (fun x => k))
  (at level 61, m at next level, right associativity).
Notation "' p <~ m ;; k" := (secBind m (fun p => k))
  (at level 61, p pattern, m at next level, right associativity).

(** [io.ReadFull(rd, magic)] for the four magic bytes. *)
Definition readMagic (rd : list byte) : Res (list byte * list byte) :=
  match rd with
  | a :: b :: c :: d :: rd' => Ok ([a; b; c; d], rd')
  | [] => Err ErrEOF
  | _ => Err ErrUnexpectedEOF
  end.

(** [readVarBytes]: a uvarint length, [make([]byte, n)], then [n] bytes. *)
Definition readVarBytes (rd : list byte) : Res (list byte * list byte) :=
  '(n, rd) <- readUvarint rd ;;
  readBytes n rd.

(** [writeVarBytes], which lays out the five fields of a sealed blob. *)
Definition writeVarBytes (b : list byte) : list byte :=
  putUvarint (lenN b mod 2 ^ 64) ++ b.

Section Decrypt.
(** [json.Unmarshal(aadJSON, &hdr)], [None] when it returns an error. *)
Variable jsonUnmarshalHeader : list byte -> option Header.
(** [kr.Get(keyID)] of the [Keyring] interface, [None] for an error. *)
Variable krGet : string -> option (list byte).
(** [suite.newAEAD(key)] followed by [a.Open(nil, nonce, ct, aad)] for a key
    of the suite's length, [None] when authentication fails. *)
Variable aeadOpen : string -> list byte -> list byte -> list byte -> list byte
                    -> option (list byte).

Definition DecryptJOLT (jsec : list byte) : Sec (Value * Header) :=
  '(magic, rd) <~ secRead (readMagic jsec) ;;
  if negb (bytesEqb magic magicJSEC) then secFail ErrBadMagic
  else
  '(ver, rd) <~ secRead (ReadByte rd) ;;
  if negb (Byte.eqb ver ver01) then secFail (ErrUnsupportedVersion ver)
  else
  '(alg, rd) <~ secRead (readVarBytes rd) ;;
  '(keyID, rd) <~ secRead (readVarBytes rd) ;;
  '(nonce, rd) <~ secRead (readVarBytes rd) ;;
  '(aadJSON, rd) <~ secRead (readVarBytes rd) ;;
  '(ct, rd) <~ secRead (readVarBytes rd) ;;
  match jsonUnmarshalHeader aadJSON with
  | None => secFail ErrJSON
  | Some hdr =>
      if negb (String.eqb (KeyID hdr) (stringOfBytes keyID))
         || negb (String.eqb (stringOfBytes alg) (Alg hdr))
      then secFail ErrHeaderMismatch
      else
        match suiteFor (Alg hdr) with
        | None => secFail ErrUnsupportedAlg
        | Some suite =>
            _ <~ secEmit (EvKeyGet (KeyID hdr)) ;;
            match krGet (KeyID hdr) with
            | None => secFail ErrKeyring
            | Some key =>
                if negb (lenN key =? keyLen suite) then secFail ErrKeyLengthMismatch
                else
                  _ <~ secEmit (EvOpen (Alg hdr) key nonce ct aadJSON) ;;
                  match aeadOpen (Alg hdr) key nonce ct aadJSON with
                  | None => secFail ErrDecryptionFailed
                  | Some pt =>
                      match DecodeBinary pt with
                      | Ok v => secRet (v, hdr)
                      | Err e => secFail (ErrDecode hdr e)
                      end
                  end
            end
        end
  end.
End Decrypt.

(** The bytes [EncryptJOLT] emits around its five fields. *)
Definition sealedBlob (alg keyID nonce aad ct : list byte) : list byte :=
  magicJSEC ++ [ver01] ++ writeVarBytes alg ++ writeVarBytes keyID
    ++ writeVarBytes nonce ++ writeVarBytes aad ++ writeVarBytes ct.

(** ** The data model and structural equality *)

Fixpoint nodupb (l : list string) : bool :=
  match l with
  | [] => true
  | k :: l' => negb (existsb (String.eqb k) l') && nodupb l'
  end.

(** Equality of two hashable values, by value. *)
Definition scalarEqb (a b : Value) : bool :=
  match a, b with
  | VInt x, VInt y => (x =? y)%Z
  | _, _ => keyEq a b
  end.

Fixpoint distinctKeys (l : list Value) : bool :=
  match l with
  | [] => true
  | k :: l' => negb (existsb (scalarEqb k) l') && distinctKeys l'
  end.

Definition isInt32 (z : Z) : bool := ((- 2 ^ 31 <=? z) && (z <? 2 ^ 31))%Z.

(** The values of the spec's data model, with the invariants of its table:
    a Dec exponent fits 32 bits, a UUID has 16 bytes, Obj keys are unique,
    Map keys are hashable and unique.  Two more conditions delimit what the
    round trip is stated for: no Obj key is [$comment] unless comments are
    preserved ([pc]), and an envelope has no [Sig] and well-formed UTF-8
    [Features]. *)
Fixpoint inModel (pc : bool) (v : Value) {struct v} : bool :=
  match v with
  | VDecimal d => isInt32 (Exponent d)
  | VUUID x => lenN x =? 16
  | VArr x => forallb (inModel pc) x
  | VObj x =>
      nodupb (map fst x)
      && (pc || negb (existsb isComment (map fst x)))
      && forallb (fun kv => inModel pc (snd kv)) x
  | VSet x => forallb (inModel pc) x
  | VMap x =>
      distinctKeys (map fst x)
      && forallb (fun kv => hashable (fst kv) && inModel pc (fst kv) && inModel pc (snd kv)) x
  | VEnvelope meta body =>
      match Sig meta with None => true | Some _ => false end
      && match Features meta with
         | None => true
         | Some l => forallb (fun s => utf8Valid (bytesOfString s)) l
         end
      && inModel pc body
  | VStrings _ => false
  | _ => true
  end.

(** The values without components. *)
Definition isAtom (v : Value) : bool :=
  match v with
  | VArr _ | VObj _ | VSet _ | VMap _ | VEnvelope _ _ | VStrings _ => false
  | _ => true
  end.

(** Structural equality: components are compared in order in an array and
    up to reordering in an object, a set and a map, which Go keeps without
    order (the maps) or the codec treats as unordered (the set). *)
Inductive Veq : Value -> Value -> Prop :=
| Veq_atom v : isAtom v = true -> Veq v v
| Veq_Arr x y : Forall2 Veq x y -> Veq (VArr x) (VArr y)
| Veq_Obj x x' y :
    Permutation x x' ->
    Forall2 (fun a b => fst a = fst b /\ Veq (snd a) (snd b)) x' y ->
    Veq (VObj x) (VObj y)
| Veq_Set x x' y :
    Permutation x x' -> Forall2 Veq x' y -> Veq (VSet x) (VSet y)
| Veq_Map x x' y :
    Permutation x x' ->
    Forall2 (fun a b => Veq (fst a) (fst b) /\ Veq (snd a) (snd b)) x' y ->
    Veq (VMap x) (VMap y)
| Veq_Env meta body body' :
    Veq body body' -> Veq (VEnvelope meta body) (VEnvelope meta body').





(** ** String literals and comment-free inputs of the stripper *)

(** [closesString bs]: [bs] is the rest of a string literal after its opening
    quote: escaped bytes and plain bytes, then the closing quote, then
    nothing. *)
Fixpoint closesString (bs : list byte) : bool :=
  match bs with
  | [] => false
  | c :: r =>
      if Byte.eqb c chBackslash then
        match r with
        | [] => false
        | _ :: r' => closesString r'
        end
      else if Byte.eqb c chQuote then
        match r with
        | [] => true
        | _ :: _ => false
        end
      else closesString r
  end.

Definition isStringLiteral (lit : list byte) : bool :=
  match lit with
  | [] => false
  | c :: r => Byte.eqb c chQuote && closesString r
  end.

(** The state of the stripper after it has read [input]. *)
Definition stateAfter (input : list byte) : StripState :=
  fst (stripLoop sNorm [] input).

(** The stripper, started in [state], never recognizes a comment in [input]:
    it never enters a comment state. *)
Fixpoint commentFree (state : StripState) (input : list byte) : bool :=
  match input with
  | [] => true
  | c :: r =>
      match fst (stripStep state c) with
      | sLine | sBlock | sBlockStar => false
      | state' => commentFree state' r
      end
  end.

(** The object actually written: [x] itself, or [x] without [$comment]. *)
Definition liveFields (pc : bool) (x : list (string * Value)) : list (string * Value) :=
  if pc then x else filter (fun kv => negb (isComment (fst kv))) x.

(** ** Concrete inputs used in the examples below *)

(** A payload of [MaxBytes + 1] zero bytes. *)
Definition oversizedPayload : list byte :=
  repeat x00 (N.to_nat (MaxBytes DefaultLimits + 1)).

(** A JSON string literal from its content, and the input of scenario S3:
    an object with the two string values [not // a comment] and
    [/* also not */]. *)
Definition quoted (s : string) : list byte := chQuote :: bytesOfString s ++ [chQuote].

Definition s3Input : list byte :=
  bytesOfString "{" ++ quoted "x" ++ bytesOfString ":" ++ quoted "not // a comment"
    ++ bytesOfString "," ++ quoted "y" ++ bytesOfString ":" ++ quoted "/* also not */"
    ++ bytesOfString "}".

(** The bytes a state holds back: the slash that [sSlash] has read and not
    yet written. *)
Definition pending (state : StripState) : list byte :=
  match state with
  | sSlash => [chSlash]
  | _ => []
  end.

Definition inComment (state : StripState) : bool :=
  match state with
  | sLine | sBlock | sBlockStar => true
  | _ => false
  end.




(** ** Round trips *)

(** [RT enc dec P R]: every value that satisfies [P] and that [enc] encodes
    into fewer than 2^63 bytes is read back by [dec], whatever follows its
    bytes, as a value related to it by [R]. *)
Definition RT (enc : Value -> Res (list byte)) (dec : list byte -> Res (Value * list byte))
    (P : Value -> Prop) (R : Value -> Value -> Prop) : Prop :=
  forall v b,
    P v -> enc v = Ok b -> lenN b <= maxInt ->
    exists v', R v v' /\ forall rest, dec (b ++ rest) = Ok (v', rest).

(** The bytes of the fields of an object: each key, then its encoded value. *)
Definition fieldsBytes (ks : list string) (bl : list (list byte)) : list byte :=
  List.concat (map (fun kb => writeString (fst kb) ++ snd kb) (combine ks bl)).

Definition pairsBytes (kvs : list (list byte * list byte)) : list byte :=
  List.concat (map (fun p => fst p ++ snd p) kvs).

(** Membership in the data model, as a proposition. *)
Definition InModel (pc : bool) (v : Value) : Prop := inModel pc v = true.

(** The values the encoder puts in an envelope's meta map and what each
    becomes on the wire: a [[]string] goes through JSON. *)
Definition metaValueOK (v : Value) : Prop :=
  match v with
  | VStr _ | VTimestamp _ => True
  | VStrings None => True
  | VStrings (Some l) => forallb (fun s => utf8Valid (bytesOfString s)) l = true
  | _ => False
  end.

Definition metaNorm (v : Value) : Value :=
  match v with
  | VStrings x => jsonRoundTrip x
  | _ => v
  end.

(** An envelope over an object that holds a set and a map. *)
Definition sampleEnvelope : Value :=
  VEnvelope
    {| Type_ := "urn:jolt:example/Order"; Schema := ""; Version := "2.1.0";
       Created := Some "2025-08-08T07:42:01.344243Z"%string;
       Features := Some ["a"%string; "b"%string]; Sig := None |}
    (VObj [("qty"%string, VInt 2);
           ("price"%string, VDecimal {| Negative := false; Exponent := -2; Coeff := 199995 |});
           ("tags"%string, VSet [VStr "gift"; VStr "festival"]);
           ("attrs"%string, VMap [(VStr "k", VArr [VNull; VBool true]); (VInt (-7), VBinary [x00; xff])])]).

(** An object with a [$comment] entry. *)
Definition commentedObj : Value :=
  VObj [("$comment"%string, VStr "note"); ("a"%string, VInt 1)].

(** ** Frames: [WriteFrame] and [ReadFrame] *)

(** [WriteFrame] into a writer that accepts every write (a [bytes.Buffer]):
    the uvarint of [len(payload)], then the payload. *)
Definition WriteFrame (payload : list byte) : list byte :=
  putUvarint (lenN payload mod 2 ^ 64) ++ payload.

(** [io.ReadFull(r, buf)] for a buffer of [n] bytes, over a reader whose
    state is the list of unread bytes: nothing is read for an empty buffer,
    the error is [io.EOF] when no byte is left and [io.ErrUnexpectedEOF] when
    the input ends inside the buffer. *)
Definition readFull (n : N) (r : list byte) : Res (list byte * list byte) :=
  if n =? 0 then Ok ([], r)
  else if lenN r <? n
       then match r with
            | [] => Err ErrEOF
            | _ :: _ => Err ErrUnexpectedEOF
            end
       else Ok (firstn (N.to_nat n) r, skipn (N.to_nat n) r).

(** [ReadFrame]: [binary.ReadUvarint], [make([]byte, n)], [io.ReadFull]. *)
Definition ReadFrame (r : list byte) : Res (list byte * list byte) :=
  '(n, r) <- readUvarint r ;;
  if maxInt <? n then Err Panic
  else readFull n r.

(** ** The secure wrapper: [EncryptJOLT] and [StaticKeyring] *)

(** [StaticKeyring] is a [map[string][]byte]; [Get] is the lookup
    [k, ok := s[keyID]], an error when the key is absent. *)
Definition StaticKeyring : Type := list (string * list byte).

Definition StaticKeyringGet (s : StaticKeyring) (keyID : string) : option (list byte) :=
  mapGet keyID s.

(** The errors of [EncryptJOLT], in the order of its checks: [EncEncode]
    wraps the error of [jolt.EncodeBinary], [EncRand] is a failed read of the
    random source and [EncMarshal] an error of [json.Marshal]. *)
Inductive EncError : Type :=
| EncUnsupportedAlg
| EncKeyring
| EncKeyLengthMismatch
| EncEncode (e : Error)
| EncRand
| EncMarshal.

(** [if hdr.Extra == nil { hdr.Extra = map[string]string{} }]: the header
    that is marshalled into the associated data. *)
Definition headerForAAD (hdr : Header) : Header :=
  match Extra hdr with
  | None => {| Alg := Alg hdr; KeyID := KeyID hdr; Extra := Some [] |}
  | Some _ => hdr
  end.

Section Encrypt.
(** [kr.Get(keyID)], [None] for an error. *)
Variable krGet : string -> option (list byte).
(** [io.ReadFull(rand.Reader, nonce)] for a nonce of the given length. *)
Variable randRead : N -> option (list byte).
(** [json.Marshal(hdr)], [None] when it returns an error. *)
Variable jsonMarshalHeader : Header -> option (list byte).
(** [suite.newAEAD(key)] followed by [a.Seal(nil, nonce, pt, aad)] for a key
    of the suite's length. *)
Variable aeadSeal : string -> list byte -> list byte -> list byte -> list byte -> list byte.

Definition EncryptJOLT (v : Value) (hdr : Header) : EncError + list byte :=
  match suiteFor (Alg hdr) with
  | None => inl EncUnsupportedAlg
  | Some suite =>
      match krGet (KeyID hdr) with
      | None => inl EncKeyring
      | Some key =>
          if negb (lenN key =? keyLen suite) then inl EncKeyLengthMismatch
          else
            match EncodeBinary v with
            | Err e => inl (EncEncode e)
            | Ok pt =>
                match randRead (nonceLen suite) with
                | None => inl EncRand
                | Some nonce =>
                    let hdr := headerForAAD hdr in
                    match jsonMarshalHeader hdr with
                    | None => inl EncMarshal
                    | Some aadJSON =>
                        let ct := aeadSeal (Alg hdr) key nonce pt aadJSON in
                        inr (magicJSEC ++ [ver01]
                               ++ writeVarBytes (bytesOfString (Alg hdr))
                               ++ writeVarBytes (bytesOfString (KeyID hdr))
                               ++ writeVarBytes nonce
                               ++ writeVarBytes aadJSON
                               ++ writeVarBytes ct)
                    end
                end
            end
      end
  end.
End Encrypt.

(** The errors [DecryptJOLT] returns before it asks the keyring. *)
Definition beforeKeyring (e : SecError) : bool :=
  match e with
  | ErrRead _ | ErrBadMagic | ErrUnsupportedVersion _ | ErrJSON
  | ErrHeaderMismatch | ErrUnsupportedAlg => true
  | _ => false
  end.

(** A keyring with one 32-byte key and a header that names it. *)
Definition demoKeyring : StaticKeyring := [("k1"%string, repeat x07 32)].

Definition demoHeader : Header :=
  {| Alg := AlgAES256GCM; KeyID := "k1"; Extra := None |}.

(** ** Small helpers: [NewUUID] and [trimNewlines] *)

(** [u[i] = f(u[i])] on a byte array. *)
Fixpoint updAt (i : nat) (f : byte -> byte) (u : list byte) : list byte :=
  match u, i with
  | [], _ => []
  | b :: r, O => f b :: r
  | b :: r, S i' => b :: updAt i' f r
  end.

(** [NewUUID] from the outcome of [io.ReadFull(rand.Reader, u[:])], the
    sixteen bytes read or [None] for an error:
    [u[6] = (u[6] & 0x0f) | 0x40; u[8] = (u[8] & 0x3f) | 0x80]. *)
Definition NewUUID (rnd : option (list byte)) : option (list byte) :=
  match rnd with
  | None => None
  | Some u =>
      let u := updAt 6 (fun b => mkByte (N.lor (N.land (byteN b) 15) 64)) u in
      let u := updAt 8 (fun b => mkByte (N.lor (N.land (byteN b) 63) 128)) u in
      Some u
  end.

Definition isNewline (c : byte) : bool := Byte.eqb c chLF || Byte.eqb c chCR.

(** The loop of [trimNewlines] on the reversed slice: it drops the last
    byte while that byte is a line feed or a carriage return. *)
Fixpoint dropNewlines (r : list byte) : list byte :=
  match r with
  | [] => []
  | c :: r' => if isNewline c then dropNewlines r' else r
  end.

Definition trimNewlines (b : list byte) : list byte := rev (dropNewlines (rev b)).

(** ** Families of inputs used in the statements below *)

(** [n] arrays of one element around a Null, and their bytes. *)
Fixpoint nestedArr (n : nat) : Value :=
  match n with
  | O => VNull
  | S n' => VArr [nestedArr n']
  end.

Fixpoint nestedArrBytes (n : nat) : list byte :=
  match n with
  | O => [tagNull]
  | S n' => tagArr :: x01 :: nestedArrBytes n'
  end.

(** [bs] contains the two bytes that close a block comment. *)
Fixpoint hasBlockEnd (bs : list byte) : bool :=
  match bs with
  | [] => false
  | c :: r =>
      match r with
      | [] => false
      | d :: _ => (Byte.eqb c chStar && Byte.eqb d chSlash) || hasBlockEnd r
      end
  end.

(** The state a stripper state stands for once what it holds back or skips
    is left out of the output. *)
Definition settled (state : StripState) : StripState :=
  match state with
  | sSlash | sLine | sBlock | sBlockStar => sNorm
  | s => s
  end.

(** * Proofs *)

(** Linear arithmetic with division and remainder by constants. *)
Ltac nlia := zify; Z.to_euclidean_division_equations; lia.

(** ** Bytes *)

Lemma byteN_mkByte (n : N) : byteN (mkByte n) = n mod 256.
Proof.
  unfold mkByte, byteN.
  destruct (Byte.of_N (n mod 256)) as [b|] eqn:E.
  - now apply Byte.to_of_N.
  - apply Byte.of_N_None_iff in E.
    pose proof (N.mod_upper_bound n 256). lia.
Qed.

Lemma mkByte_byteN (b : byte) : mkByte (byteN b) = b.
Proof.
  unfold mkByte, byteN.
  rewrite N.mod_small by (pose proof (Byte.to_N_bounded b); lia).
  now rewrite Byte.of_to_N.
Qed.

Lemma byteN_inj (a b : byte) : byteN a = byteN b -> a = b.
Proof.
  intros H. rewrite <- (mkByte_byteN a), <- (mkByte_byteN b). now rewrite H.
Qed.

Lemma lenN_app {A} (l1 l2 : list A) : lenN (l1 ++ l2) = lenN l1 + lenN l2.
Proof.
  unfold lenN. rewrite length_app. lia.
Qed.

Lemma lenN_cons {A} (a : A) (l : list A) : lenN (a :: l) = lenN l + 1.
Proof.
  unfold lenN. cbn [List.length]. lia.
Qed.

Lemma maxInt_val : maxInt = 9223372036854775807.
Proof. reflexivity. Qed.

(** ** uvarint *)

Lemma lor_high_bit (x : N) : x < 256 -> N.lor x 128 = x mod 128 + 128.
Proof.
  intros H.
  rewrite <- (N.mod_small x 256 H), <- byteN_mkByte.
  generalize (mkByte x). intros b. destruct b; reflexivity.
Qed.

Lemma land_low_bits (x : N) : N.land x 127 = x mod 128.
Proof.
  change 127 with (N.ones 7). rewrite N.land_ones. reflexivity.
Qed.

Lemma land_shiftl_disjoint (x y s : N) : x < 2 ^ s -> N.land x (N.shiftl y s) = 0.
Proof.
  intros H. apply N.bits_inj. intros n.
  rewrite N.land_spec, N.bits_0.
  destruct (N.lt_ge_cases n s) as [L|G].
  - rewrite N.shiftl_spec_low by exact L. apply andb_false_r.
  - rewrite <- (N.mod_small x (2 ^ s) H).
    rewrite N.mod_pow2_bits_high by exact G. reflexivity.
Qed.

Lemma lor_disjoint (x y s : N) : x < 2 ^ s -> N.lor x (N.shiftl y s) = x + y * 2 ^ s.
Proof.
  intros H.
  rewrite <- N.shiftl_mul_pow2.
  rewrite <- N.lxor_lor by (now apply land_shiftl_disjoint).
  rewrite N.add_nocarry_lxor by (now apply land_shiftl_disjoint).
  reflexivity.
Qed.

Lemma readUvarintLoop_cons (n : nat) (i x s : N) (b : byte) (br : list byte) :
  readUvarintLoop (S n) i x s (b :: br)
  = if byteN b <? 128
    then if (i =? 9) && (1 <? byteN b)
         then Err ErrOverflow
         else Ok (N.lor x (N.shiftl (byteN b) s), br)
    else readUvarintLoop n (i + 1)
           (N.lor x (N.shiftl (N.land (byteN b) 127) s)) (s + 7) br.
Proof. reflexivity. Qed.

Lemma readUvarintLoop_put (n : nat) :
  forall y i acc s rest,
    s = 7 * i ->
    i + N.of_nat n = 9 ->
    y < 2 ^ (7 * (N.of_nat n + 1)) ->
    acc < 2 ^ s ->
    acc + y * 2 ^ s < 2 ^ 64 ->
    readUvarintLoop (S n) i acc s (putUvarintLoop n y ++ rest)
    = Ok (acc + y * 2 ^ s, rest).
Proof.
  induction n as [|n IH]; intros y i acc s rest Hs Hi Hy Hacc Htot.
  - assert (i = 9) by lia. subst i s.
    change (2 ^ (7 * (N.of_nat 0 + 1))) with 128 in Hy.
    cbn [putUvarintLoop readUvarintLoop app].
    rewrite byteN_mkByte, N.mod_small by lia.
    assert (Hlt : (y <? 128) = true) by (apply N.ltb_lt; lia).
    rewrite Hlt.
    assert (Hy1 : y <= 1).
    { assert (E63 : 2 ^ (7 * 9) = 9223372036854775808) by reflexivity.
      assert (E64 : 2 ^ 64 = 18446744073709551616) by reflexivity.
      rewrite E63, E64 in Htot. lia. }
    assert (H1 : (1 <? y) = false) by (apply N.ltb_ge; exact Hy1).
    rewrite H1. cbn [N.eqb andb].
    rewrite lor_disjoint by exact Hacc. reflexivity.
  - cbn [putUvarintLoop].
    destruct (128 <=? y) eqn:E.
    + apply N.leb_le in E.
      cbn [app]. rewrite readUvarintLoop_cons.
      rewrite !byteN_mkByte.
      rewrite lor_high_bit by (clear; nlia).
      replace ((y mod 256) mod 128) with (y mod 128) by (clear; nlia).
      replace ((y mod 128 + 128) mod 256) with (y mod 128 + 128) by (clear; nlia).
      assert (Hge : (y mod 128 + 128 <? 128) = false) by (apply N.ltb_ge; clear; nlia).
      rewrite Hge.
      rewrite land_low_bits.
      replace ((y mod 128 + 128) mod 128) with (y mod 128) by (clear; nlia).
      rewrite lor_disjoint by exact Hacc.
      rewrite N.shiftr_div_pow2. change (2 ^ 7) with 128.
      assert (Hpow : 2 ^ (s + 7) = 2 ^ s * 128).
      { rewrite N.pow_add_r. reflexivity. }
      assert (Hdm : y = 128 * (y / 128) + y mod 128) by (clear; nlia).
      assert (Hmod : y mod 128 < 128) by (clear; nlia).
      assert (Hq : y / 128 < 2 ^ (7 * (N.of_nat n + 1))).
      { apply N.Div0.div_lt_upper_bound.
        replace (7 * (N.of_nat (S n) + 1)) with (7 + 7 * (N.of_nat n + 1)) in Hy by lia.
        rewrite N.pow_add_r in Hy. exact Hy. }
      rewrite IH; try rewrite Hpow; try exact Hq; try lia;
        clear IH Hy Hq Hpow;
        set (q := y / 128) in *; set (r := y mod 128) in *; set (P := 2 ^ s) in *;
        set (M := 2 ^ 64) in *; clearbody q r P M; subst y.
      * f_equal. f_equal. ring.
      * nia.
    + apply N.leb_gt in E.
      cbn [readUvarintLoop app].
      rewrite byteN_mkByte, N.mod_small by lia.
      assert (Hlt : (y <? 128) = true) by (apply N.ltb_lt; lia).
      rewrite Hlt.
      assert (Hi9 : (i =? 9) = false) by (apply N.eqb_neq; lia).
      rewrite Hi9. cbn [andb].
      rewrite lor_disjoint by exact Hacc. reflexivity.
Qed.

Lemma readUvarint_put (x : N) (rest : list byte) :
  x < 2 ^ 64 -> readUvarint (putUvarint x ++ rest) = Ok (x, rest).
Proof.
  intros Hx. unfold readUvarint, putUvarint.
  rewrite (readUvarintLoop_put 9 x 0 0 0 rest).
  - f_equal. f_equal. change (2 ^ 0) with 1. lia.
  - reflexivity.
  - reflexivity.
  - change (2 ^ (7 * (N.of_nat 9 + 1))) with (2 ^ 64 * 64). lia.
  - reflexivity.
  - change (2 ^ 0) with 1. lia.
Qed.

(** ** zigzag *)

Ltac zlia := Z.to_euclidean_division_equations; lia.

Lemma toUint64_toInt64 (z : Z) : toUint64 (toInt64 z) = (z mod 2 ^ 64)%Z.
Proof.
  unfold toUint64, toInt64.
  assert (E64 : (2 ^ 64 = 18446744073709551616)%Z) by reflexivity.
  assert (E63 : (2 ^ 63 = 9223372036854775808)%Z) by reflexivity.
  rewrite E64, E63. zlia.
Qed.

Lemma lxor_all_ones (a : Z) :
  (0 <= a < 2 ^ 64)%Z -> Z.lxor a (2 ^ 64 - 1) = (2 ^ 64 - 1 - a)%Z.
Proof.
  intros Ha.
  assert (Hones : (2 ^ 64 - 1 = Z.ones 64)%Z) by reflexivity.
  assert (Hx : Z.lxor a (Z.ones 64) = Z.land (Z.lnot a) (Z.ones 64)).
  { apply Z.bits_inj'. intros n Hn.
    rewrite Z.lxor_spec, Z.land_spec, Z.lnot_spec by exact Hn.
    destruct (Z.lt_ge_cases n 64) as [L|G].
    - rewrite Z.ones_spec_low by lia. now destruct (Z.testbit a n).
    - rewrite Z.ones_spec_high by lia.
      rewrite <- (Z.mod_small a (2 ^ 64) Ha).
      rewrite Z.mod_pow2_bits_high by lia. reflexivity. }
  rewrite Hones, Hx. rewrite Z.land_ones by lia.
  unfold Z.lnot. rewrite <- Hones.
  assert (E64 : (2 ^ 64 = 18446744073709551616)%Z) by reflexivity.
  rewrite E64 in *. zlia.
Qed.

Lemma zigzag_bound (i : Z) : zigzag i < 2 ^ 64.
Proof.
  unfold zigzag, toUint64.
  assert (H : (0 <= Z.lxor (toInt64 (Z.shiftl i 1)) (Z.shiftr i 63) mod 2 ^ 64 < 2 ^ 64)%Z).
  { apply Z.mod_pos_bound. reflexivity. }
  change (2 ^ 64) with (Z.to_N (2 ^ 64)%Z).
  apply Z2N.inj_lt; lia.
Qed.

Lemma zigzag_val (i : Z) :
  (- 2 ^ 63 <= i < 2 ^ 63)%Z ->
  Z.of_N (zigzag i) = (if i <? 0 then - 2 * i - 1 else 2 * i)%Z.
Proof.
  intros Hi. unfold zigzag.
  rewrite Z2N.id by (unfold toUint64; apply Z.mod_pos_bound; reflexivity).
  rewrite Z.shiftl_mul_pow2 by lia. rewrite Z.shiftr_div_pow2 by lia.
  assert (E63 : (2 ^ 63 = 9223372036854775808)%Z) by reflexivity.
  assert (E64 : (2 ^ 64 = 18446744073709551616)%Z) by reflexivity.
  destruct (i <? 0)%Z eqn:Neg.
  - apply Z.ltb_lt in Neg.
    replace (i / 2 ^ 63)%Z with (-1)%Z by (rewrite E63 in *; zlia).
    rewrite Z.lxor_m1_r. unfold Z.lnot.
    unfold toUint64, toInt64. rewrite E63, E64 in *.
    change (2 ^ 1)%Z with 2%Z. zlia.
  - apply Z.ltb_ge in Neg.
    replace (i / 2 ^ 63)%Z with 0%Z by (rewrite E63 in *; zlia).
    rewrite Z.lxor_0_r. rewrite toUint64_toInt64.
    rewrite E63, E64 in *. change (2 ^ 1)%Z with 2%Z. zlia.
Qed.

Lemma unzigzag_val (u : N) :
  u < 2 ^ 64 ->
  unzigzag u = (if N.even u then Z.of_N (u / 2) else - Z.of_N (u / 2) - 1)%Z.
Proof.
  intros Hu. unfold unzigzag.
  assert (E63 : (2 ^ 63 = 9223372036854775808)%Z) by reflexivity.
  assert (E64 : (2 ^ 64 = 18446744073709551616)%Z) by reflexivity.
  assert (Hz : (0 <= Z.of_N u < 2 ^ 64)%Z).
  { split; [lia|]. change (2 ^ 64)%Z with (Z.of_N (2 ^ 64)). lia. }
  change 1%Z with (Z.ones 1) at 2. rewrite Z.land_ones by lia.
  rewrite Z.shiftl_mul_pow2 by lia. rewrite !Z.shiftr_div_pow2 by lia.
  change (2 ^ 1)%Z with 2%Z.
  rewrite N2Z.inj_div. change (Z.of_N 2) with 2%Z.
  assert (Hpar : N.even u = (Z.of_N u mod 2 =? 0)%Z).
  { destruct (N.even u) eqn:Ev.
    - apply N.even_spec in Ev. destruct Ev as [k Hk]. subst u.
      symmetry. apply Z.eqb_eq. rewrite N2Z.inj_mul. change (Z.of_N 2) with 2%Z. zlia.
    - symmetry. apply Z.eqb_neq. intros C.
      assert (Ev' : N.even u = true).
      { apply N.even_spec. exists (u / 2). zify. zlia. }
      congruence. }
  rewrite Hpar.
  destruct (Z.of_N u mod 2 =? 0)%Z eqn:Par.
  - apply Z.eqb_eq in Par. rewrite Par.
    change (toInt64 (0 * 2 ^ 63)) with 0%Z.
    change (toUint64 (0 / 2 ^ 63)) with 0%Z.
    rewrite Z.lxor_0_r. unfold toInt64. rewrite E63, E64 in *. zlia.
  - apply Z.eqb_neq in Par.
    assert (P1 : (Z.of_N u mod 2 = 1)%Z) by zlia.
    rewrite P1.
    change (toUint64 (toInt64 (1 * 2 ^ 63) / 2 ^ 63)) with (2 ^ 64 - 1)%Z.
    rewrite lxor_all_ones by (rewrite E64 in *; zlia).
    unfold toInt64. rewrite E63, E64 in *. zlia.
Qed.

Lemma unzigzag_zigzag (i : Z) :
  (- 2 ^ 63 <= i < 2 ^ 63)%Z -> unzigzag (zigzag i) = i.
Proof.
  intros Hi.
  rewrite unzigzag_val by apply zigzag_bound.
  pose proof (zigzag_val i Hi) as Hv.
  assert (E63 : (2 ^ 63 = 9223372036854775808)%Z) by reflexivity.
  rewrite E63 in Hi.
  destruct (i <? 0)%Z eqn:Neg.
  - apply Z.ltb_lt in Neg.
    assert (Ev : N.even (zigzag i) = false).
    { destruct (N.even (zigzag i)) eqn:Ev; [|reflexivity].
      apply N.even_spec in Ev. destruct Ev as [k Hk]. lia. }
    rewrite Ev. rewrite N2Z.inj_div. rewrite Hv. change (Z.of_N 2) with 2%Z. zlia.
  - apply Z.ltb_ge in Neg.
    assert (Ev : N.even (zigzag i) = true).
    { apply N.even_spec. exists (Z.to_N i). lia. }
    rewrite Ev. rewrite N2Z.inj_div. rewrite Hv. change (Z.of_N 2) with 2%Z. zlia.
Qed.

Lemma readZigZag_put (i : Z) (rest : list byte) :
  (- 2 ^ 63 <= i < 2 ^ 63)%Z ->
  readZigZag (putZigZag i ++ rest) = Ok (i, rest).
Proof.
  intros Hi. unfold readZigZag, putZigZag.
  rewrite readUvarint_put by apply zigzag_bound.
  cbn [bind]. now rewrite unzigzag_zigzag.
Qed.

Lemma toInt32_id (z : Z) : isInt32 z = true -> toInt32 z = z.
Proof.
  unfold isInt32, toInt32. intros H.
  apply andb_true_iff in H. destruct H as [H1 H2].
  apply Z.leb_le in H1. apply Z.ltb_lt in H2.
  assert (E31 : (2 ^ 31 = 2147483648)%Z) by reflexivity.
  assert (E32 : (2 ^ 32 = 4294967296)%Z) by reflexivity.
  rewrite E31, E32 in *. zlia.
Qed.


(** ** Reading bytes back *)

Lemma readLoop_eq (n : N) (br : list byte) :
  readLoop n br
  = if n =? 0 then Ok ([], br)
    else match br with
         | [] => Err ErrEOF
         | b :: br' => '(buf, br'') <- readLoop (n - 1) br' ;; Ok (b :: buf, br'')
         end.
Proof. destruct br; reflexivity. Qed.

Lemma readLoop_app (p rest : list byte) :
  readLoop (lenN p) (p ++ rest) = Ok (p, rest).
Proof.
  induction p as [|b p IH].
  - rewrite readLoop_eq. reflexivity.
  - rewrite readLoop_eq. rewrite lenN_cons.
    assert (E : (lenN p + 1 =? 0) = false) by (apply N.eqb_neq; lia).
    rewrite E. cbn [app].
    replace (lenN p + 1 - 1) with (lenN p) by lia.
    rewrite IH. reflexivity.
Qed.

Lemma readBytes_app (p rest : list byte) :
  lenN p <= maxInt -> readBytes (lenN p) (p ++ rest) = Ok (p, rest).
Proof.
  intros H. unfold readBytes.
  assert (E : (maxInt <? lenN p) = false) by (apply N.ltb_ge; exact H).
  rewrite E. apply readLoop_app.
Qed.

Lemma maxInt_lt_u64 (n : N) : n <= maxInt -> n < 2 ^ 64.
Proof.
  rewrite maxInt_val.
  assert (E64 : 2 ^ 64 = 18446744073709551616) by reflexivity.
  rewrite E64. lia.
Qed.

Lemma mod_u64_small (n : N) : n <= maxInt -> n mod 2 ^ 64 = n.
Proof.
  intros H. apply N.mod_small. now apply maxInt_lt_u64.
Qed.

(** Reading back what [writeBytes] wrote. *)
Lemma read_writeBytes (p rest : list byte) :
  lenN p <= maxInt ->
  ('(n, br) <- readUvarint (writeBytes p ++ rest) ;; readBytes n br) = Ok (p, rest).
Proof.
  intros H. unfold writeBytes. rewrite <- app_assoc.
  rewrite mod_u64_small by exact H.
  rewrite readUvarint_put by (now apply maxInt_lt_u64).
  cbn [bind]. now apply readBytes_app.
Qed.

Lemma string_bytes_id (s : string) : stringOfBytes (bytesOfString s) = s.
Proof. apply string_of_list_byte_of_string. Qed.

Lemma bytes_string_id (b : list byte) : bytesOfString (stringOfBytes b) = b.
Proof. apply list_byte_of_string_of_list_byte. Qed.

(** ** Big integers *)

Lemma setBytes_from (l : list byte) :
  forall a, fold_left (fun acc x => acc * 256 + byteN x) l a
            = a * 256 ^ lenN l + setBytes l.
Proof.
  unfold setBytes.
  induction l as [|b l IH]; intros a.
  - cbn. lia.
  - cbn [fold_left]. rewrite IH. rewrite (IH (0 * 256 + byteN b)).
    rewrite lenN_cons. rewrite N.pow_add_r. change (256 ^ 1) with 256. ring.
Qed.

Lemma setBytes_cons (b : byte) (l : list byte) :
  setBytes (b :: l) = byteN b * 256 ^ lenN l + setBytes l.
Proof.
  unfold setBytes at 1. cbn [fold_left]. rewrite setBytes_from. ring.
Qed.

Lemma setBytes_bigBytesLoop (fuel : nat) :
  forall n acc,
    n < 2 ^ N.of_nat fuel ->
    setBytes (bigBytesLoop fuel n acc) = n * 256 ^ lenN acc + setBytes acc.
Proof.
  induction fuel as [|f IH]; intros n acc Hn.
  - change (2 ^ N.of_nat 0) with 1 in Hn. assert (n = 0) by lia. subst n.
    cbn [bigBytesLoop]. lia.
  - cbn [bigBytesLoop]. destruct (n =? 0) eqn:E.
    + apply N.eqb_eq in E. subst n. lia.
    + rewrite IH.
      * rewrite setBytes_cons, byteN_mkByte, lenN_cons.
        rewrite N.shiftr_div_pow2. change (2 ^ 8) with 256.
        rewrite N.pow_add_r. change (256 ^ 1) with 256.
        assert (Hdm : n = 256 * (n / 256) + n mod 256) by (clear; nlia).
        set (q := n / 256) in *. set (r := n mod 256) in *.
        set (P := 256 ^ lenN acc). clearbody q r P.
        rewrite Hdm. ring.
      * rewrite N.shiftr_div_pow2. change (2 ^ 8) with 256.
        apply N.Div0.div_lt_upper_bound.
        apply N.lt_le_trans with (1 := Hn).
        rewrite Nat2N.inj_succ, N.pow_succ_r'.
        apply N.mul_le_mono_r. lia.
Qed.

Lemma setBytes_bigBytes (n : N) : setBytes (bigBytes n) = n.
Proof.
  unfold bigBytes. rewrite setBytes_bigBytesLoop.
  - change (lenN []) with 0. change (setBytes []) with 0. change (256 ^ 0) with 1. lia.
  - rewrite N2Nat.id. apply N.size_gt.
Qed.

(** ** The decoder on a known tag *)

Lemma decodeAny_text (pc : bool) (f : nat) (tag : byte) (br : list byte) :
  isTextTag tag = true ->
  decodeAny pc (S f) (tag :: br)
  = ('(n, br) <- readUvarint br ;;
     '(buf, br) <- readBytes n br ;;
     let s := stringOfBytes buf in
     if Byte.eqb tag tagStr then Ok (VStr s, br)
     else if Byte.eqb tag tagTS then Ok (VTimestamp s, br)
     else if Byte.eqb tag tagDate then Ok (VDate s, br)
     else if Byte.eqb tag tagTime then Ok (VTime s, br)
     else if Byte.eqb tag tagLink then Ok (VLink s, br)
     else if Byte.eqb tag tagAnnot then Ok (VAnnot s, br)
     else Err ErrFellThrough).
Proof.
  intros H. cbn [decodeAny ReadByte bind]. rewrite H.
  unfold isTextTag in H.
  destruct (Byte.eqb tag tagNull) eqn:E0.
  { apply Byte.byte_dec_bl in E0. subst tag. discriminate H. }
  destruct (Byte.eqb tag tagF) eqn:E1.
  { apply Byte.byte_dec_bl in E1. subst tag. discriminate H. }
  destruct (Byte.eqb tag tagT) eqn:E2.
  { apply Byte.byte_dec_bl in E2. subst tag. discriminate H. }
  reflexivity.
Qed.

Lemma decodeAny_bin (pc : bool) (f : nat) (br : list byte) :
  decodeAny pc (S f) (tagBin :: br)
  = ('(n, br) <- readUvarint br ;;
     '(buf, br) <- readBytes n br ;;
     Ok (VBinary buf, br)).
Proof. reflexivity. Qed.

Lemma decodeAny_int (pc : bool) (f : nat) (br : list byte) :
  decodeAny pc (S f) (tagInt :: br)
  = ('(n, br) <- readUvarint br ;;
     if n =? 0 then Ok (VInt 0, br)
     else
       let '(sign, br) := readByteIgnoringError br in
       '(mag, br) <- readBytes (n - 1) br ;;
       let z := Z.of_N (setBytes mag) in
       Ok (VInt (if Byte.eqb sign x01 then (- z)%Z else z), br)).
Proof. reflexivity. Qed.

Lemma decodeAny_dec (pc : bool) (f : nat) (br : list byte) :
  decodeAny pc (S f) (tagDec :: br)
  = (let '(sign, br) := readByteIgnoringError br in
     '(exp, br) <- readZigZag br ;;
     '(ln, br) <- readUvarint br ;;
     '(coef, br) <- readBytes ln br ;;
     Ok (VDecimal {| Negative := Byte.eqb sign x01;
                     Exponent := toInt32 exp;
                     Coeff := setBytes coef |}, br)).
Proof. reflexivity. Qed.

Lemma decodeAny_uuid (pc : bool) (f : nat) (br : list byte) :
  decodeAny pc (S f) (tagUUID :: br)
  = ('(u, br) <- readLoop 16 br ;; Ok (VUUID u, br)).
Proof. reflexivity. Qed.

Lemma decodeAny_arr (pc : bool) (f : nat) (br : list byte) :
  decodeAny pc (S f) (tagArr :: br)
  = ('(count, br) <- readUvarint br ;;
     if maxInt <? count then Err Panic
     else
       '(out, br) <- decodeItems (decodeAny pc f) (N.to_nat count) br ;;
       Ok (VArr out, br)).
Proof. reflexivity. Qed.

Lemma decodeAny_set (pc : bool) (f : nat) (br : list byte) :
  decodeAny pc (S f) (tagSet :: br)
  = ('(count, br) <- readUvarint br ;;
     if maxInt <? count then Err Panic
     else
       '(out, br) <- decodeItems (decodeAny pc f) (N.to_nat count) br ;;
       Ok (VSet out, br)).
Proof. reflexivity. Qed.

Lemma decodeAny_obj (pc : bool) (f : nat) (br : list byte) :
  decodeAny pc (S f) (tagObj :: br)
  = ('(count, br) <- readUvarint br ;;
     '(obj, br) <- decodeFields pc (decodeAny pc f) (loopCount count) [] br ;;
     Ok (VObj obj, br)).
Proof. reflexivity. Qed.

Lemma decodeAny_map (pc : bool) (f : nat) (br : list byte) :
  decodeAny pc (S f) (tagMap :: br)
  = ('(count, br) <- readUvarint br ;;
     '(out, br) <- decodeEntries (decodeAny pc f) (loopCount count) [] br ;;
     Ok (VMap out, br)).
Proof. reflexivity. Qed.

Lemma decodeAny_env (pc : bool) (f : nat) (br : list byte) :
  decodeAny pc (S f) (tagEnv :: br)
  = ('(metaAny, br) <- decodeAny pc f br ;;
     match metaAny with
     | VObj m =>
         '(body, br) <- decodeAny pc f br ;;
         Ok (VEnvelope (metaOfMap m) body, br)
     | _ => Err ErrBadEnvelope
     end).
Proof. reflexivity. Qed.

(** Every text-like value is read back from [tag :: writeString s]. *)
Lemma decode_text (pc : bool) (f : nat) (tag : byte) (p rest : list byte) :
  isTextTag tag = true ->
  lenN p <= maxInt ->
  decodeAny pc (S f) (tag :: writeBytes p ++ rest)
  = (let s := stringOfBytes p in
     if Byte.eqb tag tagStr then Ok (VStr s, rest)
     else if Byte.eqb tag tagTS then Ok (VTimestamp s, rest)
     else if Byte.eqb tag tagDate then Ok (VDate s, rest)
     else if Byte.eqb tag tagTime then Ok (VTime s, rest)
     else if Byte.eqb tag tagLink then Ok (VLink s, rest)
     else if Byte.eqb tag tagAnnot then Ok (VAnnot s, rest)
     else Err ErrFellThrough).
Proof.
  intros Ht Hp. rewrite decodeAny_text by exact Ht.
  unfold writeBytes. rewrite <- app_assoc.
  rewrite mod_u64_small by exact Hp.
  rewrite readUvarint_put by (now apply maxInt_lt_u64).
  cbn [bind]. rewrite readBytes_app by exact Hp. reflexivity.
Qed.

Lemma decode_bin (pc : bool) (f : nat) (p rest : list byte) :
  lenN p <= maxInt ->
  decodeAny pc (S f) (tagBin :: writeBytes p ++ rest) = Ok (VBinary p, rest).
Proof.
  intros Hp. rewrite decodeAny_bin.
  unfold writeBytes. rewrite <- app_assoc.
  rewrite mod_u64_small by exact Hp.
  rewrite readUvarint_put by (now apply maxInt_lt_u64).
  cbn [bind]. rewrite readBytes_app by exact Hp. reflexivity.
Qed.

Lemma decode_dec (pc : bool) (f : nat) (sign : byte) (e : Z) (coef rest : list byte) :
  (- 2 ^ 63 <= e < 2 ^ 63)%Z ->
  lenN coef <= maxInt ->
  decodeAny pc (S f) (tagDec :: sign :: putZigZag e ++ writeBytes coef ++ rest)
  = Ok (VDecimal {| Negative := Byte.eqb sign x01;
                    Exponent := toInt32 e;
                    Coeff := setBytes coef |}, rest).
Proof.
  intros He Hc. rewrite decodeAny_dec. cbn [readByteIgnoringError].
  rewrite readZigZag_put by exact He. cbn [bind].
  unfold writeBytes. rewrite <- app_assoc.
  rewrite mod_u64_small by exact Hc.
  rewrite readUvarint_put by (now apply maxInt_lt_u64).
  cbn [bind]. rewrite readBytes_app by exact Hc. reflexivity.
Qed.

(** ** Sorting *)

Section SortFacts.
Context {A : Type}.
Variable less : A -> A -> bool.

Lemma insertBy_perm (x : A) (l : list A) : Permutation (insertBy less x l) (x :: l).
Proof.
  induction l as [|y l IH]; cbn [insertBy].
  - apply Permutation_refl.
  - destruct (less y x).
    + apply perm_trans with (y :: x :: l).
      * now apply perm_skip.
      * apply perm_swap.
    + apply Permutation_refl.
Qed.

Lemma sortBy_perm (l : list A) : Permutation (sortBy less l) l.
Proof.
  induction l as [|x l IH]; cbn [sortBy].
  - apply perm_nil.
  - apply perm_trans with (x :: sortBy less l).
    + apply insertBy_perm.
    + now apply perm_skip.
Qed.

Lemma sortBy_length (l : list A) : List.length (sortBy less l) = List.length l.
Proof. apply Permutation_length, sortBy_perm. Qed.

Hypothesis less_asym : forall a b, less a b = true -> less b a = false.

Lemma insertBy_sorted (x : A) (l : list A) :
  Sorted (fun a b => less b a = false) l ->
  Sorted (fun a b => less b a = false) (insertBy less x l).
Proof.
  induction 1 as [|y l Hs IH Hd]; cbn [insertBy].
  - repeat constructor.
  - destruct (less y x) eqn:E.
    + constructor; [exact IH|].
      destruct l as [|z l]; cbn [insertBy].
      * constructor. now apply less_asym.
      * inversion Hd; subst. destruct (less z x).
        -- now constructor.
        -- constructor. now apply less_asym.
    + constructor.
      * now constructor.
      * now constructor.
Qed.

Lemma sortBy_sorted (l : list A) : Sorted (fun a b => less b a = false) (sortBy less l).
Proof.
  induction l as [|x l IH]; cbn [sortBy].
  - constructor.
  - now apply insertBy_sorted.
Qed.

Hypothesis less_trans : forall a b c, less a b = true -> less b c = true -> less a c = true.
Hypothesis less_total : forall a b, less a b = false -> less b a = false -> a = b.

Lemma less_le_trans (x z y : A) : less z x = false -> less z y = true -> less x y = true.
Proof.
  intros Hzx Hzy. destruct (less x z) eqn:Exz.
  - now apply less_trans with z.
  - now rewrite (less_total x z Exz Hzx).
Qed.

Lemma insertBy_comm (x y : A) (l : list A) :
  insertBy less x (insertBy less y l) = insertBy less y (insertBy less x l).
Proof.
  induction l as [|z l IH]; cbn [insertBy].
  - destruct (less y x) eqn:Eyx, (less x y) eqn:Exy; try reflexivity.
    + rewrite (less_asym _ _ Eyx) in Exy. discriminate.
    + now rewrite (less_total x y Exy Eyx).
  - destruct (less z y) eqn:Ezy, (less z x) eqn:Ezx; cbn [insertBy];
      rewrite ?Ezy, ?Ezx.
    + now rewrite IH.
    + now rewrite (less_le_trans x z y Ezx Ezy).
    + now rewrite (less_le_trans y z x Ezy Ezx).
    + destruct (less y x) eqn:Eyx, (less x y) eqn:Exy; cbn [insertBy];
        rewrite ?Ezy, ?Ezx; try reflexivity.
      * rewrite (less_asym _ _ Eyx) in Exy. discriminate.
      * now rewrite (less_total x y Exy Eyx).
Qed.

(** The sorted list depends only on the elements, not on their order. *)
Lemma sortBy_canonical (l1 l2 : list A) :
  Permutation l1 l2 -> sortBy less l1 = sortBy less l2.
Proof.
  induction 1 as [|x l1 l2 _ IH|x y l|l1 l2 l3 _ IH1 _ IH2]; cbn [sortBy].
  - reflexivity.
  - now rewrite IH.
  - apply insertBy_comm.
  - now rewrite IH1.
Qed.
End SortFacts.

(** ** [bytes.Compare] is a total order *)

Lemma bytesCompare_eq (a : list byte) : forall b, bytesCompare a b = Eq -> a = b.
Proof.
  induction a as [|x a IH]; intros [|y b] H; cbn [bytesCompare] in H;
    try discriminate; try reflexivity.
  destruct (N.compare (byteN x) (byteN y)) eqn:E; try discriminate.
  apply N.compare_eq in E. apply byteN_inj in E. subst y.
  now rewrite (IH b H).
Qed.

Lemma bytesCompare_refl (a : list byte) : bytesCompare a a = Eq.
Proof.
  induction a as [|x a IH]; cbn [bytesCompare]; [reflexivity|].
  now rewrite N.compare_refl.
Qed.

Lemma bytesCompare_antisym (a : list byte) :
  forall b, bytesCompare b a = CompOpp (bytesCompare a b).
Proof.
  induction a as [|x a IH]; intros [|y b]; cbn [bytesCompare]; try reflexivity.
  rewrite (N.compare_antisym (byteN x) (byteN y)).
  destruct (N.compare (byteN x) (byteN y)); cbn [CompOpp]; [apply IH | reflexivity | reflexivity].
Qed.

Lemma bytesCompare_trans (a : list byte) :
  forall b c, bytesCompare a b = Lt -> bytesCompare b c = Lt -> bytesCompare a c = Lt.
Proof.
  induction a as [|x a IH]; intros [|y b] [|z c] H1 H2; cbn [bytesCompare] in *;
    try discriminate; try reflexivity.
  destruct (N.compare (byteN x) (byteN y)) eqn:Exy; try discriminate;
    destruct (N.compare (byteN y) (byteN z)) eqn:Eyz; try discriminate.
  - apply N.compare_eq in Exy. apply N.compare_eq in Eyz.
    rewrite Exy, Eyz, N.compare_refl. now apply IH with b.
  - apply N.compare_eq in Exy. rewrite Exy, Eyz. reflexivity.
  - apply N.compare_eq in Eyz. rewrite <- Eyz, Exy. reflexivity.
  - rewrite N.compare_lt_iff in Exy, Eyz.
    assert (L : byteN x < byteN z) by lia.
    apply N.compare_lt_iff in L. now rewrite L.
Qed.

Lemma bytesLess_asym (a b : list byte) : bytesLess a b = true -> bytesLess b a = false.
Proof.
  unfold bytesLess. rewrite (bytesCompare_antisym a b).
  now destruct (bytesCompare a b).
Qed.

Lemma bytesLess_trans (a b c : list byte) :
  bytesLess a b = true -> bytesLess b c = true -> bytesLess a c = true.
Proof.
  unfold bytesLess. intros H1 H2.
  destruct (bytesCompare a b) eqn:E1; try discriminate.
  destruct (bytesCompare b c) eqn:E2; try discriminate.
  now rewrite (bytesCompare_trans a b c E1 E2).
Qed.

Lemma bytesLess_total (a b : list byte) :
  bytesLess a b = false -> bytesLess b a = false -> a = b.
Proof.
  unfold bytesLess. rewrite (bytesCompare_antisym a b). intros H1 H2.
  destruct (bytesCompare a b) eqn:E; try discriminate.
  now apply bytesCompare_eq.
Qed.






(** ** Go maps: lookups do not depend on the iteration order *)







Lemma encodeAny_obj (pc : bool) (f : nat) (x : list (string * Value)) :
  encodeAny pc (S f) (VObj x)
  = (items <- encodeFields (encodeAny pc f) (liveFields pc x)
               (sortBy stringLess (map fst (liveFields pc x))) ;;
     Ok (tagObj :: putUvarint (lenN (sortBy stringLess (map fst (liveFields pc x))) mod 2 ^ 64)
           ++ items)).
Proof. reflexivity. Qed.


(** ** The encoder on a Set *)

Lemma encodeAny_setv (pc : bool) (f : nat) (x : list Value) :
  encodeAny pc (S f) (VSet x)
  = (tmp <- encodeEach (encodeAny pc f) x ;;
     Ok (tagSet :: putUvarint (lenN (sortBy bytesLess tmp) mod 2 ^ 64)
           ++ List.concat (sortBy bytesLess tmp))).
Proof. reflexivity. Qed.

Lemma encodeEach_length (enc : Value -> Res (list byte)) (x : list Value) :
  forall tmp, encodeEach enc x = Ok tmp -> List.length tmp = List.length x.
Proof.
  induction x as [|it x IH]; intros tmp H; cbn [encodeEach] in H.
  - injection H as <-. reflexivity.
  - destruct (enc it) as [b|e]; cbn [bind] in H; [|discriminate].
    destruct (encodeEach enc x) as [t|e]; cbn [bind] in H; [|discriminate].
    injection H as <-. cbn [List.length]. now rewrite (IH t).
Qed.

(** ** The loop of the comment stripper *)

Lemma stripLoop_out (input : list byte) :
  forall state out,
    stripLoop state out input
    = (fst (stripLoop state [] input), out ++ snd (stripLoop state [] input)).
Proof.
  induction input as [|c input IH]; intros state out; cbn [stripLoop].
  - cbn [fst snd]. now rewrite app_nil_r.
  - destruct (stripStep state c) as [state' added].
    rewrite (IH state' (out ++ added)), (IH state' ([] ++ added)).
    cbn [fst snd app]. now rewrite app_assoc.
Qed.

Lemma stripLoop_app (a b : list byte) :
  forall state out,
    stripLoop state out (a ++ b)
    = stripLoop (fst (stripLoop state out a)) (snd (stripLoop state out a)) b.
Proof.
  induction a as [|c a IH]; intros state out; cbn [stripLoop app].
  - reflexivity.
  - destruct (stripStep state c) as [state' added]. apply IH.
Qed.

Lemma StripJSONComments_eq (input : list byte) :
  StripJSONComments input
  = snd (stripLoop sNorm [] input) ++ pending (fst (stripLoop sNorm [] input)).
Proof.
  unfold StripJSONComments.
  destruct (stripLoop sNorm [] input) as [state out]. cbn [fst snd].
  destruct state; cbn [pending]; now rewrite ?app_nil_r.
Qed.

(** Inside a string literal every byte is written, up to the closing quote. *)
Lemma stripLoop_string_body (n : nat) :
  forall r out,
    (List.length r <= n)%nat ->
    closesString r = true ->
    stripLoop sStr out r = (sNorm, out ++ r).
Proof.
  induction n as [|n IH]; intros r out Hlen Hc.
  - destruct r; [discriminate Hc | cbn in Hlen; lia].
  - destruct r as [|c r]; [discriminate Hc|].
    cbn [closesString] in Hc. cbn [stripLoop stripStep].
    cbn [List.length] in Hlen.
    destruct (Byte.eqb c chBackslash) eqn:Eb.
    + destruct r as [|c' r']; [discriminate Hc|].
      cbn [stripLoop stripStep]. cbn [List.length] in Hlen.
      rewrite IH by (lia || exact Hc).
      f_equal. rewrite <- !app_assoc. reflexivity.
    + destruct (Byte.eqb c chQuote) eqn:Eq.
      * destruct r; [|discriminate Hc]. reflexivity.
      * rewrite IH by (lia || exact Hc).
        f_equal. rewrite <- app_assoc. reflexivity.
Qed.

Lemma strip_string_literal (pre lit post : list byte) :
  stateAfter pre = sNorm ->
  isStringLiteral lit = true ->
  StripJSONComments (pre ++ lit ++ post)
  = StripJSONComments pre ++ lit ++ StripJSONComments post.
Proof.
  unfold stateAfter. intros Hpre Hlit.
  rewrite !StripJSONComments_eq.
  rewrite stripLoop_app. rewrite Hpre. cbn [pending]. rewrite app_nil_r.
  destruct lit as [|c r]; [discriminate Hlit|].
  cbn [isStringLiteral] in Hlit. apply andb_true_iff in Hlit. destruct Hlit as [Hq Hr].
  rewrite stripLoop_app.
  cbn [stripLoop stripStep]. rewrite Hq.
  rewrite (stripLoop_string_body (List.length r)) by (lia || exact Hr).
  cbn [fst snd].
  rewrite (stripLoop_out post sNorm). cbn [fst snd].
  rewrite <- !app_assoc. reflexivity.
Qed.

Lemma stripStep_commentFree (state : StripState) (c : byte) :
  inComment state = false ->
  inComment (fst (stripStep state c)) = false ->
  snd (stripStep state c) ++ pending (fst (stripStep state c)) = pending state ++ [c].
Proof.
  intros Hs Hn.
  destruct state; try discriminate Hs; cbn [stripStep] in *.
  - destruct (Byte.eqb c chQuote); [reflexivity|].
    destruct (Byte.eqb c chSlash) eqn:E; [|reflexivity].
    apply Byte.byte_dec_bl in E. subst c. reflexivity.
  - destruct (Byte.eqb c chBackslash); [reflexivity|].
    destruct (Byte.eqb c chQuote); reflexivity.
  - reflexivity.
  - destruct (Byte.eqb c chSlash); [discriminate Hn|].
    destruct (Byte.eqb c chStar); [discriminate Hn|]. reflexivity.
Qed.

Lemma stripLoop_commentFree (input : list byte) :
  forall state out,
    inComment state = false ->
    commentFree state input = true ->
    snd (stripLoop state out input) ++ pending (fst (stripLoop state out input))
    = out ++ pending state ++ input.
Proof.
  induction input as [|c input IH]; intros state out Hs Hc.
  - cbn [stripLoop fst snd]. now rewrite app_nil_r.
  - cbn [commentFree] in Hc. cbn [stripLoop].
    assert (Hn : inComment (fst (stripStep state c)) = false).
    { destruct (fst (stripStep state c)); try reflexivity; discriminate Hc. }
    assert (Hc' : commentFree (fst (stripStep state c)) input = true).
    { destruct (fst (stripStep state c)); try exact Hc; discriminate Hn. }
    pose proof (stripStep_commentFree state c Hs Hn) as Hstep.
    destruct (stripStep state c) as [state' added]. cbn [fst snd] in *.
    rewrite IH by assumption.
    rewrite <- app_assoc. rewrite (app_assoc added). rewrite Hstep.
    rewrite <- !app_assoc. reflexivity.
Qed.

Lemma strip_commentFree (input : list byte) :
  commentFree sNorm input = true -> StripJSONComments input = input.
Proof.
  intros H. rewrite StripJSONComments_eq.
  now rewrite stripLoop_commentFree.
Qed.

(** ** [DecryptJOLT] on a sealed blob *)

Lemma readVarBytes_write (b rest : list byte) :
  lenN b <= maxInt -> readVarBytes (writeVarBytes b ++ rest) = Ok (b, rest).
Proof.
  intros H. unfold readVarBytes. now apply read_writeBytes.
Qed.

Section DecryptFacts.
Variable jsonUnmarshalHeader : list byte -> option Header.
Variable krGet : string -> option (list byte).
Variable aeadOpen : string -> list byte -> list byte -> list byte -> list byte
                    -> option (list byte).

(** [DecryptJOLT] on a blob with the five fields, up to the header check. *)
Lemma DecryptJOLT_fields (alg keyID nonce aad ct trailing : list byte) (log : list Event) :
  lenN alg <= maxInt -> lenN keyID <= maxInt -> lenN nonce <= maxInt ->
  lenN aad <= maxInt -> lenN ct <= maxInt ->
  DecryptJOLT jsonUnmarshalHeader krGet aeadOpen
    (sealedBlob alg keyID nonce aad ct ++ trailing) log
  = match jsonUnmarshalHeader aad with
    | None => (log, inl ErrJSON)
    | Some hdr =>
        if negb (String.eqb (KeyID hdr) (stringOfBytes keyID))
           || negb (String.eqb (stringOfBytes alg) (Alg hdr))
        then (log, inl ErrHeaderMismatch)
        else
          match suiteFor (Alg hdr) with
          | None => (log, inl ErrUnsupportedAlg)
          | Some suite =>
              match krGet (KeyID hdr) with
              | None => (log ++ [EvKeyGet (KeyID hdr)], inl ErrKeyring)
              | Some key =>
                  if negb (lenN key =? keyLen suite)
                  then (log ++ [EvKeyGet (KeyID hdr)], inl ErrKeyLengthMismatch)
                  else
                    let log' := (log ++ [EvKeyGet (KeyID hdr)])
                                  ++ [EvOpen (Alg hdr) key nonce ct aad] in
                    match aeadOpen (Alg hdr) key nonce ct aad with
                    | None => (log', inl ErrDecryptionFailed)
                    | Some pt =>
                        match DecodeBinary pt with
                        | Ok v => (log', inr (v, hdr))
                        | Err e => (log', inl (ErrDecode hdr e))
                        end
                    end
              end
          end
    end.
Proof.
  intros H1 H2 H3 H4 H5.
  unfold DecryptJOLT, sealedBlob, secBind, secRead, secRet, secFail, secEmit.
  cbn [magicJSEC app readMagic].
  change (bytesEqb [x4a; x53; x45; x43] [x4a; x53; x45; x43]) with true.
  cbn [negb ReadByte].
  change (Byte.eqb ver01 ver01) with true. cbn [negb].
  rewrite <- !app_assoc.
  rewrite (readVarBytes_write alg) by exact H1. cbv beta iota.
  rewrite (readVarBytes_write keyID) by exact H2. cbv beta iota.
  rewrite (readVarBytes_write nonce) by exact H3. cbv beta iota.
  rewrite (readVarBytes_write aad) by exact H4. cbv beta iota.
  rewrite (readVarBytes_write ct) by exact H5. cbv beta iota.
  destruct (jsonUnmarshalHeader aad) as [hdr|]; [|reflexivity].
  destruct (negb (String.eqb (KeyID hdr) (stringOfBytes keyID))
            || negb (String.eqb (stringOfBytes alg) (Alg hdr))); [reflexivity|].
  destruct (suiteFor (Alg hdr)) as [suite|]; [|reflexivity].
  destruct (krGet (KeyID hdr)) as [key|]; [|reflexivity].
  destruct (negb (lenN key =? keyLen suite)); [reflexivity|].
  destruct (aeadOpen (Alg hdr) key nonce ct aad) as [pt|]; [|reflexivity].
  destruct (DecodeBinary pt); reflexivity.
Qed.
End DecryptFacts.

(** ** The meta map of an envelope *)




(** ** Round trip: the loops *)

Lemma lenN_le_app_l {A} (a b : list A) : lenN a <= lenN (a ++ b).
Proof. rewrite lenN_app. lia. Qed.

Lemma lenN_le_app_r {A} (a b : list A) : lenN b <= lenN (a ++ b).
Proof. rewrite lenN_app. lia. Qed.

Lemma lenN_length {A} (l : list A) : N.to_nat (lenN l) = List.length l.
Proof. apply Nat2N.id. Qed.

Lemma encodeEach_Forall2 (enc : Value -> Res (list byte)) (x : list Value) :
  forall tmp, encodeEach enc x = Ok tmp -> Forall2 (fun v b => enc v = Ok b) x tmp.
Proof.
  induction x as [|it x IH]; intros tmp H; cbn [encodeEach] in H.
  - injection H as <-. constructor.
  - destruct (enc it) as [b|e] eqn:E; cbn [bind] in H; [|discriminate].
    destruct (encodeEach enc x) as [t|e]; cbn [bind] in H; [|discriminate].
    injection H as <-. constructor; [exact E | now apply IH].
Qed.

Lemma encodeItems_each (enc : Value -> Res (list byte)) (x : list Value) :
  encodeItems enc x = (tmp <- encodeEach enc x ;; Ok (List.concat tmp)).
Proof.
  induction x as [|it x IH]; cbn [encodeItems encodeEach]; [reflexivity|].
  destruct (enc it) as [b|e]; cbn [bind]; [|reflexivity].
  rewrite IH. destruct (encodeEach enc x); reflexivity.
Qed.

Lemma encodeFields_inv (enc : Value -> Res (list byte)) (obj : list (string * Value)) :
  forall ks items,
    encodeFields enc obj ks = Ok items ->
    exists bl,
      Forall2 (fun v b => enc v = Ok b) (map (fun k => mapIndex k obj) ks) bl
      /\ items = fieldsBytes ks bl.
Proof.
  induction ks as [|k ks IH]; intros items H; cbn [encodeFields] in H.
  - injection H as <-. exists []. split; [constructor | reflexivity].
  - destruct (enc (mapIndex k obj)) as [b|e] eqn:E; cbn [bind] in H; [|discriminate].
    destruct (encodeFields enc obj ks) as [bs|e]; cbn [bind] in H; [|discriminate].
    injection H as <-. destruct (IH bs eq_refl) as [bl [HF ->]].
    exists (b :: bl). split.
    + cbn [map]. now constructor.
    + unfold fieldsBytes. cbn [combine map List.concat fst snd].
      now rewrite <- app_assoc.
Qed.

Lemma encodePairs_inv (enc : Value -> Res (list byte)) (x : list (Value * Value)) :
  forall kvs,
    encodePairs enc x = Ok kvs ->
    Forall2 (fun kv p => enc (fst kv) = Ok (fst p) /\ enc (snd kv) = Ok (snd p)) x kvs.
Proof.
  induction x as [|[k v] x IH]; intros kvs H; cbn [encodePairs] in H.
  - injection H as <-. constructor.
  - destruct (enc k) as [kb|e] eqn:Ek; cbn [bind] in H; [|discriminate].
    destruct (enc v) as [vb|e] eqn:Ev; cbn [bind] in H; [|discriminate].
    destruct (encodePairs enc x) as [t|e]; cbn [bind] in H; [|discriminate].
    injection H as <-. constructor; [now split | now apply IH].
Qed.

Lemma lenN_concat_ge (bl : list (list byte)) :
  Forall (fun b => 1 <= lenN b) bl -> lenN bl <= lenN (List.concat bl).
Proof.
  induction 1 as [|b bl Hb _ IH]; cbn [List.concat].
  - apply N.le_refl.
  - rewrite lenN_cons, lenN_app. lia.
Qed.

Lemma decodeItems_S (dec : list byte -> Res (Value * list byte)) (n : nat) (br : list byte) :
  decodeItems dec (S n) br
  = ('(v, br) <- dec br ;; '(out, br) <- decodeItems dec n br ;; Ok (v :: out, br)).
Proof. reflexivity. Qed.

Lemma decodeFields_S (pc : bool) (dec : list byte -> Res (Value * list byte)) (n : nat)
    (obj : list (string * Value)) (br : list byte) :
  decodeFields pc dec (S n) obj br
  = ('(ln, br) <- readUvarint br ;;
     '(kb, br) <- readBytes ln br ;;
     let k := stringOfBytes kb in
     '(val, br) <- dec br ;;
     if isComment k && negb pc
     then decodeFields pc dec n obj br
     else decodeFields pc dec n (mapSet k val obj) br).
Proof. reflexivity. Qed.

Lemma decodeEntries_S (dec : list byte -> Res (Value * list byte)) (n : nat)
    (out : list (Value * Value)) (br : list byte) :
  decodeEntries dec (S n) out br
  = ('(k, br) <- dec br ;;
     '(v, br) <- dec br ;;
     if hashable k then decodeEntries dec n (mapSetAny k v out) br else Err Panic).
Proof. reflexivity. Qed.

Section LoopRoundTrip.
Variable pc : bool.
Variable enc : Value -> Res (list byte).
Variable dec : list byte -> Res (Value * list byte).
Variable P : Value -> Prop.
Variable R : Value -> Value -> Prop.
Hypothesis HRT : RT enc dec P R.

Lemma items_roundtrip (x : list Value) (bl : list (list byte)) :
  Forall2 (fun v b => enc v = Ok b) x bl ->
  Forall P x ->
  lenN (List.concat bl) <= maxInt ->
  exists vs,
    Forall2 R x vs
    /\ forall rest, decodeItems dec (List.length bl) (List.concat bl ++ rest) = Ok (vs, rest).
Proof.
  induction 1 as [|v b x bl Hvb _ IH]; intros HP Hlen.
  - exists []. split; [constructor | reflexivity].
  - inversion HP as [|? ? Pv Px]; subst.
    cbn [List.concat] in Hlen.
    destruct (HRT v b Pv Hvb) as [v' [Rv Dv]].
    { apply N.le_trans with (2 := Hlen). apply lenN_le_app_l. }
    destruct (IH Px) as [vs [Rs Ds]].
    { apply N.le_trans with (2 := Hlen). apply lenN_le_app_r. }
    exists (v' :: vs). split; [now constructor|].
    intros rest. cbn [List.length List.concat]. rewrite decodeItems_S.
    rewrite <- app_assoc. rewrite Dv. cbn [bind]. rewrite Ds. reflexivity.
Qed.

Lemma fields_roundtrip (ks : list string) :
  forall xs bl,
    Forall2 (fun v b => enc v = Ok b) xs bl ->
    List.length ks = List.length xs ->
    Forall P xs ->
    Forall (fun k => isComment k && negb pc = false) ks ->
    lenN (fieldsBytes ks bl) <= maxInt ->
    exists vs,
      Forall2 R xs vs
      /\ forall obj0 rest,
          decodeFields pc dec (List.length ks) obj0 (fieldsBytes ks bl ++ rest)
          = Ok (fold_left (fun o kv => mapSet (fst kv) (snd kv) o) (combine ks vs) obj0, rest).
Proof.
  induction ks as [|k ks IH]; intros xs bl HF Hl HP Hc Hlen.
  - destruct xs; [|discriminate Hl]. inversion HF; subst.
    exists []. split; [constructor | reflexivity].
  - destruct xs as [|v xs]; [discriminate Hl|].
    inversion HF as [|? b ? bl' Hvb HF']; subst.
    inversion HP as [|? ? Pv Px]; subst.
    inversion Hc as [|? ? Ck Cks]; subst.
    unfold fieldsBytes in Hlen. cbn [combine map List.concat fst snd] in Hlen.
    fold (fieldsBytes ks bl') in Hlen.
    rewrite <- app_assoc in Hlen.
    assert (Hk : lenN (bytesOfString k) <= maxInt).
    { apply N.le_trans with (2 := Hlen). unfold writeString, writeBytes.
      rewrite !lenN_app. lia. }
    destruct (HRT v b Pv Hvb) as [v' [Rv Dv]].
    { apply N.le_trans with (2 := Hlen). rewrite !lenN_app. lia. }
    destruct (IH xs bl' HF') as [vs [Rs Ds]]; try assumption.
    { now injection Hl. }
    { apply N.le_trans with (2 := Hlen). rewrite !lenN_app. lia. }
    exists (v' :: vs). split; [now constructor|].
    intros obj0 rest. cbn [List.length]. rewrite decodeFields_S.
    unfold fieldsBytes. cbn [combine map List.concat fst snd].
    fold (fieldsBytes ks bl').
    unfold writeString, writeBytes. rewrite <- !app_assoc.
    rewrite mod_u64_small by exact Hk.
    rewrite readUvarint_put by (now apply maxInt_lt_u64).
    cbn [bind]. rewrite readBytes_app by exact Hk. cbn [bind].
    rewrite Dv. cbn [bind]. cbv zeta. rewrite string_bytes_id, Ck.
    rewrite Ds. reflexivity.
Qed.
End LoopRoundTrip.

(** ** Round trip: maps built by the decoder *)

Lemma mapSet_fresh {V} (k : string) (v : V) (m : list (string * V)) :
  ~ In k (map fst m) -> mapSet k v m = m ++ [(k, v)].
Proof.
  induction m as [|[k' v'] m IH]; intros H; cbn [mapSet app]; [reflexivity|].
  destruct (String.eqb k' k) eqn:E.
  - apply String.eqb_eq in E. subst k'. exfalso. apply H. now left.
  - rewrite IH; [reflexivity|]. intros C. apply H. now right.
Qed.

Lemma fold_mapSet_fresh (ks : list string) :
  forall (vs : list Value) (obj0 : list (string * Value)),
    List.length ks = List.length vs ->
    NoDup (map fst obj0 ++ ks) ->
    fold_left (fun o kv => mapSet (fst kv) (snd kv) o) (combine ks vs) obj0
    = obj0 ++ combine ks vs.
Proof.
  induction ks as [|k ks IH]; intros vs obj0 Hl ND.
  - cbn [combine fold_left]. now rewrite app_nil_r.
  - destruct vs as [|v vs]; [discriminate Hl|].
    cbn [combine fold_left fst snd].
    rewrite mapSet_fresh.
    + rewrite IH.
      * now rewrite <- app_assoc.
      * now injection Hl.
      * rewrite map_app. cbn [map fst]. rewrite <- app_assoc. exact ND.
    + intros C. apply NoDup_remove_2 in ND. apply ND. apply in_or_app. now left.
Qed.

Lemma nodupb_NoDup (l : list string) : nodupb l = true -> NoDup l.
Proof.
  induction l as [|k l IH]; intros H; cbn [nodupb] in H.
  - constructor.
  - apply andb_true_iff in H. destruct H as [H1 H2].
    constructor; [|now apply IH].
    intros C. apply negb_true_iff in H1.
    assert (E : existsb (String.eqb k) l = true).
    { apply existsb_exists. exists k. split; [exact C | apply String.eqb_refl]. }
    congruence.
Qed.

Lemma mapIndex_in (x : list (string * Value)) (k : string) :
  In k (map fst x) -> In (k, mapIndex k x) x.
Proof.
  unfold mapIndex. induction x as [|[k' v'] x IH]; intros H; [contradiction|].
  cbn [mapGet]. destruct (String.eqb k' k) eqn:E.
  - apply String.eqb_eq in E. subst k'. now left.
  - right. apply IH. destruct H as [H|H]; [|exact H].
    cbn [fst] in H. subst k'. rewrite String.eqb_refl in E. discriminate.
Qed.

Lemma assoc_by_keys (x : list (string * Value)) :
  NoDup (map fst x) -> map (fun k => (k, mapIndex k x)) (map fst x) = x.
Proof.
  induction x as [|[k v] x IH]; intros ND; [reflexivity|].
  cbn [map fst] in *. inversion ND as [|? ? Hn ND']; subst.
  f_equal.
  - unfold mapIndex. cbn [mapGet]. now rewrite String.eqb_refl.
  - rewrite <- (IH ND') at 2. apply map_ext_in. intros k' Hk'.
    f_equal. unfold mapIndex. cbn [mapGet].
    destruct (String.eqb k k') eqn:E; [|reflexivity].
    apply String.eqb_eq in E. subst k'. contradiction.
Qed.

Lemma liveFields_id (pc : bool) (x : list (string * Value)) :
  pc || negb (existsb isComment (map fst x)) = true -> liveFields pc x = x.
Proof.
  unfold liveFields. destruct pc; [reflexivity|]. cbn [orb]. intros H.
  apply negb_true_iff in H.
  apply forallb_filter_id. apply forallb_forall. intros [k v] Hin. cbn [fst].
  destruct (isComment k) eqn:E; [|reflexivity].
  assert (C : existsb isComment (map fst x) = true).
  { apply existsb_exists. exists k. split; [|exact E].
    apply in_map_iff. exists (k, v). now split. }
  congruence.
Qed.

Lemma putUvarint_nonempty (x : N) : 1 <= lenN (putUvarint x).
Proof.
  unfold putUvarint. cbn [putUvarintLoop].
  destruct (128 <=? x); rewrite lenN_cons; lia.
Qed.

Lemma lenN_fieldsBytes_ge (ks : list string) :
  forall bl, List.length ks = List.length bl -> lenN ks <= lenN (fieldsBytes ks bl).
Proof.
  induction ks as [|k ks IH]; intros bl Hl.
  - apply N.le_0_l.
  - destruct bl as [|b bl]; [discriminate Hl|].
    unfold fieldsBytes. cbn [combine map List.concat fst snd]. fold (fieldsBytes ks bl).
    injection Hl as Hl. specialize (IH bl Hl).
    unfold writeString, writeBytes. rewrite lenN_cons, !lenN_app.
    pose proof (putUvarint_nonempty (lenN (bytesOfString k) mod 2 ^ 64)). lia.
Qed.

Lemma loopCount_lenN {A} (l : list A) : lenN l <= maxInt -> loopCount (lenN l) = List.length l.
Proof.
  intros H. unfold loopCount.
  assert (E : (lenN l <=? maxInt) = true) by (now apply N.leb_le).
  rewrite E. apply lenN_length.
Qed.

Lemma decode_obj_fields (pc : bool) (fd : nat) (ks : list string) (bl : list (list byte))
    (obj : list (string * Value)) (rest : list byte) :
  lenN ks <= maxInt ->
  decodeFields pc (decodeAny pc fd) (List.length ks) [] (fieldsBytes ks bl ++ rest)
  = Ok (obj, rest) ->
  decodeAny pc (S fd) (tagObj :: (putUvarint (lenN ks mod 2 ^ 64) ++ fieldsBytes ks bl) ++ rest)
  = Ok (VObj obj, rest).
Proof.
  intros Hk Hd. rewrite decodeAny_obj. rewrite <- app_assoc.
  rewrite mod_u64_small by exact Hk.
  rewrite readUvarint_put by (now apply maxInt_lt_u64).
  cbn [bind]. rewrite loopCount_lenN by exact Hk. rewrite Hd. reflexivity.
Qed.

Lemma decode_items (pc : bool) (fd : nat) (bl : list (list byte))
    (vs : list Value) (rest : list byte) :
  lenN bl <= maxInt ->
  decodeItems (decodeAny pc fd) (List.length bl) (List.concat bl ++ rest) = Ok (vs, rest) ->
  decodeAny pc (S fd) (tagArr :: (putUvarint (lenN bl mod 2 ^ 64) ++ List.concat bl) ++ rest)
  = Ok (VArr vs, rest)
  /\ decodeAny pc (S fd) (tagSet :: (putUvarint (lenN bl mod 2 ^ 64) ++ List.concat bl) ++ rest)
     = Ok (VSet vs, rest).
Proof.
  intros Hk Hd.
  assert (E : (maxInt <? lenN bl) = false) by (now apply N.ltb_ge).
  split.
  - rewrite decodeAny_arr. rewrite <- app_assoc.
    rewrite mod_u64_small by exact Hk.
    rewrite readUvarint_put by (now apply maxInt_lt_u64).
    cbn [bind]. rewrite E, lenN_length, Hd. reflexivity.
  - rewrite decodeAny_set. rewrite <- app_assoc.
    rewrite mod_u64_small by exact Hk.
    rewrite readUvarint_put by (now apply maxInt_lt_u64).
    cbn [bind]. rewrite E, lenN_length, Hd. reflexivity.
Qed.

(** ** Round trip: the keys of a Map *)

Lemma keyEq_sound (a b : Value) : keyEq a b = true -> a = b.
Proof.
  destruct a, b; cbn [keyEq]; intros H; try discriminate H; try reflexivity.
  - now apply eqb_prop in H; subst.
  - now apply String.eqb_eq in H; subst.
  - destruct D as [n1 e1 c1], D0 as [n2 e2 c2]. cbn [Negative Exponent Coeff] in H.
    apply andb_true_iff in H. destruct H as [H Hc].
    apply andb_true_iff in H. destruct H as [Hn He].
    apply eqb_prop in Hn. apply Z.eqb_eq in He. apply N.eqb_eq in Hc. now subst.
  - now apply String.eqb_eq in H; subst.
  - now apply String.eqb_eq in H; subst.
  - now apply String.eqb_eq in H; subst.
  - unfold bytesEqb in H. destruct (bytesCompare x x0) eqn:E; try discriminate H.
    now apply bytesCompare_eq in E; subst.
  - now apply String.eqb_eq in H; subst.
  - now apply String.eqb_eq in H; subst.
Qed.

Lemma scalarEqb_refl (a : Value) : hashable a = true -> scalarEqb a a = true.
Proof.
  destruct a; cbn [hashable scalarEqb keyEq]; intros H; try discriminate H;
    try reflexivity; try apply String.eqb_refl.
  - apply eqb_reflx.
  - apply Z.eqb_refl.
  - now rewrite eqb_reflx, Z.eqb_refl, N.eqb_refl.
  - unfold bytesEqb. now rewrite bytesCompare_refl.
Qed.

Lemma distinctKeys_NoDup (l : list Value) :
  Forall (fun k => hashable k = true) l -> distinctKeys l = true -> NoDup l.
Proof.
  induction 1 as [|k l Hk _ IH]; intros H; cbn [distinctKeys] in H.
  - constructor.
  - apply andb_true_iff in H. destruct H as [H1 H2].
    constructor; [|now apply IH].
    intros C. apply negb_true_iff in H1.
    assert (E : existsb (scalarEqb k) l = true).
    { apply existsb_exists. exists k. split; [exact C | now apply scalarEqb_refl]. }
    congruence.
Qed.

Lemma mapSetAny_fresh (k v : Value) (m : list (Value * Value)) :
  ~ In k (map fst m) -> mapSetAny k v m = m ++ [(k, v)].
Proof.
  induction m as [|[k' v'] m IH]; intros H; cbn [mapSetAny app]; [reflexivity|].
  destruct (keyEq k' k) eqn:E.
  - apply keyEq_sound in E. subst k'. exfalso. apply H. now left.
  - rewrite IH; [reflexivity|]. intros C. apply H. now right.
Qed.

Lemma fold_mapSetAny_fresh (ys : list (Value * Value)) :
  forall out0,
    NoDup (map fst out0 ++ map fst ys) ->
    fold_left (fun o kv => mapSetAny (fst kv) (snd kv) o) ys out0 = out0 ++ ys.
Proof.
  induction ys as [|[k v] ys IH]; intros out0 ND.
  - cbn [fold_left]. now rewrite app_nil_r.
  - cbn [fold_left fst snd]. cbn [map fst] in ND.
    rewrite mapSetAny_fresh.
    + rewrite IH.
      * now rewrite <- app_assoc.
      * rewrite map_app. cbn [map fst]. rewrite <- app_assoc. exact ND.
    + intros C. apply NoDup_remove_2 in ND. apply ND. apply in_or_app. now left.
Qed.

Lemma lenN_pairsBytes_ge (kvs : list (list byte * list byte)) :
  Forall (fun p => 1 <= lenN (fst p)) kvs -> lenN kvs <= lenN (pairsBytes kvs).
Proof.
  unfold pairsBytes. induction 1 as [|p kvs Hp _ IH]; cbn [map List.concat].
  - apply N.le_refl.
  - rewrite lenN_cons, !lenN_app. lia.
Qed.

Lemma decode_map_entries (pc : bool) (fd : nat) (kvs : list (list byte * list byte))
    (out : list (Value * Value)) (rest : list byte) :
  lenN kvs <= maxInt ->
  decodeEntries (decodeAny pc fd) (List.length kvs) [] (pairsBytes kvs ++ rest)
  = Ok (out, rest) ->
  decodeAny pc (S fd) (tagMap :: (putUvarint (lenN kvs mod 2 ^ 64) ++ pairsBytes kvs) ++ rest)
  = Ok (VMap out, rest).
Proof.
  intros Hk Hd. rewrite decodeAny_map. rewrite <- app_assoc.
  rewrite mod_u64_small by exact Hk.
  rewrite readUvarint_put by (now apply maxInt_lt_u64).
  cbn [bind]. rewrite loopCount_lenN by exact Hk. rewrite Hd. reflexivity.
Qed.

Section EntriesRoundTrip.
Variable enc : Value -> Res (list byte).
Variable dec : list byte -> Res (Value * list byte).
Variable P : Value -> Prop.
Variable R : Value -> Value -> Prop.
Hypothesis HRT : RT enc dec P R.
Hypothesis R_exact : forall k k', hashable k = true -> R k k' -> k' = k.

Lemma entries_roundtrip (x : list (Value * Value)) (kvs : list (list byte * list byte)) :
  Forall2 (fun kv p => enc (fst kv) = Ok (fst p) /\ enc (snd kv) = Ok (snd p)) x kvs ->
  Forall (fun kv => hashable (fst kv) = true /\ P (fst kv) /\ P (snd kv)) x ->
  lenN (pairsBytes kvs) <= maxInt ->
  exists ys,
    Forall2 (fun a b => fst b = fst a /\ R (snd a) (snd b)) x ys
    /\ forall out0 rest,
        decodeEntries dec (List.length kvs) out0 (pairsBytes kvs ++ rest)
        = Ok (fold_left (fun o kv => mapSetAny (fst kv) (snd kv) o) ys out0, rest).
Proof.
  induction 1 as [|[k v] [kb vb] x kvs [Hk Hv] _ IH]; intros HP Hlen.
  - exists []. split; [constructor | reflexivity].
  - inversion HP as [|? ? [Hh [Pk Pv]] Px]; subst. cbn [fst snd] in *.
    unfold pairsBytes in Hlen. cbn [map List.concat fst snd] in Hlen.
    fold (pairsBytes kvs) in Hlen. rewrite <- app_assoc in Hlen.
    destruct (HRT k kb Pk Hk) as [k' [Rk Dk]].
    { apply N.le_trans with (2 := Hlen). rewrite !lenN_app. lia. }
    destruct (HRT v vb Pv Hv) as [v' [Rv Dv]].
    { apply N.le_trans with (2 := Hlen). rewrite !lenN_app. lia. }
    destruct (IH Px) as [ys [Rs Ds]].
    { apply N.le_trans with (2 := Hlen). rewrite !lenN_app. lia. }
    apply R_exact in Rk; [|exact Hh]. subst k'.
    exists ((k, v') :: ys). split.
    + constructor; [now split | exact Rs].
    + intros out0 rest. cbn [List.length]. rewrite decodeEntries_S.
      unfold pairsBytes. cbn [map List.concat fst snd]. fold (pairsBytes kvs).
      rewrite <- !app_assoc. rewrite Dk. cbn [bind]. rewrite Dv. cbn [bind].
      rewrite Hh. rewrite Ds. reflexivity.
Qed.
End EntriesRoundTrip.

(** ** Round trip: the encoder's cases *)

Lemma encodeAny_arr (pc : bool) (f : nat) (x : list Value) :
  encodeAny pc (S f) (VArr x)
  = (items <- encodeItems (encodeAny pc f) x ;;
     Ok (tagArr :: putUvarint (lenN x mod 2 ^ 64) ++ items)).
Proof. reflexivity. Qed.

Lemma encodeAny_mapv (pc : bool) (f : nat) (x : list (Value * Value)) :
  encodeAny pc (S f) (VMap x)
  = (kvs <- encodePairs (encodeAny pc f) x ;;
     Ok (tagMap
           :: putUvarint (lenN (sortBy (fun p q => bytesLess (fst p) (fst q)) kvs) mod 2 ^ 64)
           ++ pairsBytes (sortBy (fun p q => bytesLess (fst p) (fst q)) kvs))).
Proof. reflexivity. Qed.

Lemma encodeAny_env (pc : bool) (f : nat) (meta : Meta) (body : Value) :
  encodeAny pc (S f) (VEnvelope meta body)
  = (mb <- encodeAny pc f (VObj (metaMap meta)) ;;
     bb <- encodeAny pc f body ;;
     Ok (tagEnv :: mb ++ bb)).
Proof. reflexivity. Qed.

Lemma encodeAny_strings (pc : bool) (f : nat) (x : option (list string)) :
  encodeAny pc (S f) (VStrings x) = encodeAny pc f (jsonRoundTrip x).
Proof. reflexivity. Qed.

Lemma encodeAny_nonempty (pc : bool) (f : nat) :
  forall v b, encodeAny pc f v = Ok b -> 1 <= lenN b.
Proof.
  induction f as [|f IH]; intros v b H; [discriminate H|].
  destruct v;
    try (cbn [encodeAny] in H; injection H as <-; rewrite lenN_cons; lia).
  - cbn [encodeAny] in H. destruct x; injection H as <-; rewrite lenN_cons; lia.
  - rewrite encodeAny_arr in H.
    destruct (encodeItems (encodeAny pc f) x); cbn [bind] in H; [|discriminate].
    injection H as <-. rewrite lenN_cons. lia.
  - rewrite encodeAny_obj in H.
    destruct (encodeFields _ _ _); cbn [bind] in H; [|discriminate].
    injection H as <-. rewrite lenN_cons. lia.
  - rewrite encodeAny_setv in H.
    destruct (encodeEach _ _); cbn [bind] in H; [|discriminate].
    injection H as <-. rewrite lenN_cons. lia.
  - rewrite encodeAny_mapv in H.
    destruct (encodePairs _ _); cbn [bind] in H; [|discriminate].
    injection H as <-. rewrite lenN_cons. lia.
  - rewrite encodeAny_env in H.
    destruct (encodeAny pc f (VObj (metaMap meta))); cbn [bind] in H; [|discriminate].
    destruct (encodeAny pc f v); cbn [bind] in H; [|discriminate].
    injection H as <-. rewrite lenN_cons. lia.
  - rewrite encodeAny_strings in H. now apply IH in H.
Qed.

Lemma Forall2_nonempty (pc : bool) (f : nat) (x : list Value) (bl : list (list byte)) :
  Forall2 (fun v b => encodeAny pc f v = Ok b) x bl -> Forall (fun b => 1 <= lenN b) bl.
Proof.
  induction 1 as [|v b x bl H _ IH]; constructor; [|exact IH].
  now apply encodeAny_nonempty in H.
Qed.

(** ** Round trip: structural equality on atoms *)

Lemma hashable_isAtom (v : Value) : hashable v = true -> isAtom v = true.
Proof. destruct v; cbn; intros H; try discriminate H; reflexivity. Qed.

Lemma Veq_atom_eq (v v' : Value) : isAtom v = true -> Veq v v' -> v' = v.
Proof.
  intros Ha H. destruct H; try discriminate Ha. reflexivity.
Qed.

Lemma Veq_strs (l : list string) :
  forall y, Forall2 Veq (map VStr l) y -> y = map VStr l.
Proof.
  induction l as [|s l IH]; intros y H; cbn [map] in *.
  - now inversion H.
  - inversion H as [|? v' ? y' Hv Hy]; subst.
    apply Veq_atom_eq in Hv; [|reflexivity]. subst v'.
    now rewrite (IH y' Hy).
Qed.

Lemma Veq_jsonRoundTrip (x : option (list string)) (v' : Value) :
  Veq (jsonRoundTrip x) v' -> v' = jsonRoundTrip x.
Proof.
  destruct x as [l|]; cbn [jsonRoundTrip]; intros H.
  - rewrite <- map_map with (f := jsonString) (g := VStr) in *.
    inversion H as [? Ha| ? y Hy | | | |]; subst; [discriminate Ha|].
    now rewrite (Veq_strs _ _ Hy).
  - now apply Veq_atom_eq in H.
Qed.

Lemma stringsOf_strs (l : list string) : stringsOf (map VStr l) = l.
Proof.
  induction l as [|s l IH]; cbn [map stringsOf]; [reflexivity | now rewrite IH].
Qed.

Lemma toValidLoop_valid (fuel : nat) :
  forall bs, utf8ValidLoop fuel bs = true -> toValidLoop fuel bs = bs.
Proof.
  induction fuel as [|f IH]; intros bs H.
  - destruct bs; [reflexivity | discriminate H].
  - destruct bs as [|b t]; [reflexivity|].
    cbn [utf8ValidLoop toValidLoop] in *.
    destruct (runeLen (b :: t)) as [|n]; [discriminate H|].
    rewrite (IH _ H). apply firstn_skipn.
Qed.

Lemma jsonString_valid (s : string) :
  utf8Valid (bytesOfString s) = true -> jsonString s = s.
Proof.
  unfold utf8Valid, jsonString. intros H.
  rewrite toValidLoop_valid by exact H. apply string_bytes_id.
Qed.

Lemma jsonStrings_valid (l : list string) :
  forallb (fun s => utf8Valid (bytesOfString s)) l = true -> map jsonString l = l.
Proof.
  induction l as [|s l IH]; cbn [forallb map]; intros H; [reflexivity|].
  apply andb_true_iff in H. destruct H as [H1 H2].
  now rewrite jsonString_valid, IH.
Qed.

(** ** Round trip: atoms *)

Lemma rt_text (pc : bool) (fd : nat) (tag : byte) (s : string) (rest : list byte) :
  isTextTag tag = true ->
  lenN (tag :: writeString s) <= maxInt ->
  decodeAny pc (S fd) ((tag :: writeString s) ++ rest)
  = (if Byte.eqb tag tagStr then Ok (VStr s, rest)
     else if Byte.eqb tag tagTS then Ok (VTimestamp s, rest)
     else if Byte.eqb tag tagDate then Ok (VDate s, rest)
     else if Byte.eqb tag tagTime then Ok (VTime s, rest)
     else if Byte.eqb tag tagLink then Ok (VLink s, rest)
     else if Byte.eqb tag tagAnnot then Ok (VAnnot s, rest)
     else Err ErrFellThrough).
Proof.
  intros Ht Hlen. cbn [app]. unfold writeString.
  rewrite decode_text.
  - cbv zeta. now rewrite string_bytes_id.
  - exact Ht.
  - apply N.le_trans with (2 := Hlen). unfold writeString, writeBytes.
    rewrite lenN_cons, lenN_app. lia.
Qed.

Lemma rt_int (pc : bool) (fd : nat) (x : Z) (b rest : list byte) :
  encodeAny pc (S fd) (VInt x) = Ok b ->
  lenN b <= maxInt ->
  forall f, decodeAny pc (S f) (b ++ rest) = Ok (VInt x, rest).
Proof.
  intros H Hlen f. cbn [encodeAny] in H. injection H as <-.
  set (mag := bigBytes (Z.abs_N x)) in *.
  assert (Hm : lenN mag + 1 <= maxInt).
  { apply N.le_trans with (2 := Hlen). rewrite lenN_cons, lenN_app, lenN_cons. lia. }
  cbn [app]. rewrite decodeAny_int. rewrite <- app_assoc.
  rewrite mod_u64_small by exact Hm.
  rewrite readUvarint_put by (now apply maxInt_lt_u64).
  cbn [bind].
  assert (E : (lenN mag + 1 =? 0) = false) by (apply N.eqb_neq; lia).
  rewrite E. cbn [app readByteIgnoringError].
  replace (lenN mag + 1 - 1) with (lenN mag) by lia.
  rewrite readBytes_app by lia. cbn [bind]. cbv zeta.
  unfold mag. rewrite setBytes_bigBytes. rewrite N2Z.inj_abs_N.
  destruct (x <? 0)%Z eqn:Neg.
  - apply Z.ltb_lt in Neg. change (Byte.eqb x01 x01) with true. cbv iota.
    assert (A : (- Z.abs x = x)%Z) by (clear - Neg; lia). now rewrite A.
  - apply Z.ltb_ge in Neg. change (Byte.eqb x00 x01) with false. cbv iota.
    assert (A : (Z.abs x = x)%Z) by (clear - Neg; lia). now rewrite A.
Qed.

Lemma rt_decimal (pc : bool) (fd : nat) (d : Decimal) (b rest : list byte) :
  isInt32 (Exponent d) = true ->
  encodeAny pc (S fd) (VDecimal d) = Ok b ->
  lenN b <= maxInt ->
  forall f, decodeAny pc (S f) (b ++ rest) = Ok (VDecimal d, rest).
Proof.
  intros H32 H Hlen f. cbn [encodeAny] in H. injection H as <-.
  destruct d as [neg e c]. cbn [Negative Exponent Coeff] in *.
  assert (Hc : lenN (bigBytes c) <= maxInt).
  { apply N.le_trans with (2 := Hlen). unfold writeBytes.
    rewrite !lenN_cons, !lenN_app. lia. }
  assert (He : (- 2 ^ 63 <= e < 2 ^ 63)%Z).
  { unfold isInt32 in H32. apply andb_true_iff in H32. destruct H32 as [A B].
    apply Z.leb_le in A. apply Z.ltb_lt in B.
    assert (E31 : (2 ^ 31 = 2147483648)%Z) by reflexivity.
    assert (E63 : (2 ^ 63 = 9223372036854775808)%Z) by reflexivity.
    rewrite E31 in *. rewrite E63. lia. }
  cbn [app]. rewrite <- app_assoc.
  rewrite decode_dec by assumption.
  rewrite toInt32_id by exact H32. rewrite setBytes_bigBytes.
  destruct neg; reflexivity.
Qed.

Lemma rt_atom (pc : bool) (fe fd : nat) (v : Value) (b : list byte) :
  isAtom v = true ->
  inModel pc v = true ->
  encodeAny pc (S fe) v = Ok b ->
  lenN b <= maxInt ->
  forall rest, decodeAny pc (S fd) (b ++ rest) = Ok (v, rest).
Proof.
  intros Ha Hm H Hlen rest.
  destruct v; try discriminate Ha.
  - cbn [encodeAny] in H. injection H as <-. reflexivity.
  - cbn [encodeAny] in H. destruct x; injection H as <-; reflexivity.
  - cbn [encodeAny] in H. injection H as <-. now rewrite rt_text.
  - now apply rt_int with (fd := fe).
  - now apply rt_decimal with (fd := fe).
  - cbn [encodeAny] in H. injection H as <-. cbn [app].
    apply decode_bin. apply N.le_trans with (2 := Hlen).
    unfold writeBytes. rewrite lenN_cons, lenN_app. lia.
  - cbn [encodeAny] in H. injection H as <-. now rewrite rt_text.
  - cbn [encodeAny] in H. injection H as <-. now rewrite rt_text.
  - cbn [encodeAny] in H. injection H as <-. now rewrite rt_text.
  - cbn [encodeAny] in H. injection H as <-. cbn [inModel] in Hm.
    apply N.eqb_eq in Hm. cbn [app]. rewrite decodeAny_uuid.
    rewrite <- Hm. rewrite readLoop_app. reflexivity.
  - cbn [encodeAny] in H. injection H as <-. now rewrite rt_text.
  - cbn [encodeAny] in H. injection H as <-. now rewrite rt_text.
Qed.

(** ** Round trip: arrays and sets *)

Lemma Forall2_perm_l {A B} (Rel : A -> B -> Prop) (x : list A) (bl bl' : list B) :
  Forall2 Rel x bl -> Permutation bl bl' ->
  exists x', Permutation x x' /\ Forall2 Rel x' bl'.
Proof.
  intros HF HP.
  destruct (Permutation_Forall2 HP (Forall2_flip HF)) as [x' [Px Fx]].
  exists x'. split; [exact Px|].
  apply Forall2_flip in Fx. exact Fx.
Qed.

Lemma forallb_Forall {A} (f : A -> bool) (l : list A) :
  forallb f l = true -> Forall (fun a => f a = true) l.
Proof.
  intros H. apply Forall_forall. intros a Ha.
  now apply (proj1 (forallb_forall f l) H).
Qed.

Lemma Forall_perm {A} (Q : A -> Prop) (l l' : list A) :
  Permutation l l' -> Forall Q l -> Forall Q l'.
Proof.
  intros HP HF. apply Forall_forall. intros a Ha.
  apply (proj1 (Forall_forall Q l) HF).
  apply Permutation_in with l'; [now apply Permutation_sym | exact Ha].
Qed.

Section ContainerRoundTrip.
Variable pc : bool.
Variables f fd : nat.
Hypothesis IH : RT (encodeAny pc f) (decodeAny pc fd) (InModel pc) Veq.

Lemma rt_seq (x : list Value) (st : list (list byte)) :
  Forall2 (fun v b => encodeAny pc f v = Ok b) x st ->
  Forall (InModel pc) x ->
  lenN (List.concat st) <= maxInt ->
  exists vs,
    Forall2 Veq x vs
    /\ lenN st <= maxInt
    /\ forall rest,
        decodeItems (decodeAny pc fd) (List.length st) (List.concat st ++ rest) = Ok (vs, rest).
Proof.
  intros HF HP Hcat.
  destruct (items_roundtrip _ _ _ _ IH x st HF HP Hcat) as [vs [Rs Ds]].
  exists vs. split; [exact Rs|]. split; [|exact Ds].
  apply N.le_trans with (2 := Hcat). apply lenN_concat_ge.
  now apply Forall2_nonempty with (pc := pc) (f := f) (x := x).
Qed.

Lemma rt_arr (x : list Value) (b : list byte) :
  InModel pc (VArr x) ->
  encodeAny pc (S f) (VArr x) = Ok b ->
  lenN b <= maxInt ->
  exists v', Veq (VArr x) v' /\ forall rest, decodeAny pc (S fd) (b ++ rest) = Ok (v', rest).
Proof.
  unfold InModel. cbn [inModel]. intros HP H Hlen.
  rewrite encodeAny_arr, encodeItems_each in H.
  destruct (encodeEach (encodeAny pc f) x) as [tmp|e] eqn:E; cbn [bind] in H; [|discriminate].
  injection H as <-.
  assert (Hx : lenN x = lenN tmp).
  { unfold lenN. now rewrite (encodeEach_length _ _ _ E). }
  rewrite Hx in *.
  destruct (rt_seq x tmp) as [vs [Rs [Hn Ds]]].
  - now apply encodeEach_Forall2.
  - now apply forallb_Forall.
  - apply N.le_trans with (2 := Hlen). rewrite lenN_cons, lenN_app. lia.
  - exists (VArr vs). split; [now constructor|].
    intros rest. cbn [app]. now apply decode_items.
Qed.

Lemma rt_set (x : list Value) (b : list byte) :
  InModel pc (VSet x) ->
  encodeAny pc (S f) (VSet x) = Ok b ->
  lenN b <= maxInt ->
  exists v', Veq (VSet x) v' /\ forall rest, decodeAny pc (S fd) (b ++ rest) = Ok (v', rest).
Proof.
  unfold InModel. cbn [inModel]. intros HP H Hlen.
  rewrite encodeAny_setv in H.
  destruct (encodeEach (encodeAny pc f) x) as [tmp|e] eqn:E; cbn [bind] in H; [|discriminate].
  injection H as <-.
  set (st := sortBy bytesLess tmp) in *.
  destruct (Forall2_perm_l _ x tmp st (encodeEach_Forall2 _ _ _ E)) as [x' [Px Fx]].
  { apply Permutation_sym, sortBy_perm. }
  destruct (rt_seq x' st) as [vs [Rs [Hn Ds]]].
  - exact Fx.
  - apply Forall_perm with x; [exact Px | now apply forallb_Forall].
  - apply N.le_trans with (2 := Hlen). rewrite lenN_cons, lenN_app. lia.
  - exists (VSet vs). split; [now apply Veq_Set with x'|].
    intros rest. cbn [app]. now apply decode_items.
Qed.
End ContainerRoundTrip.

(** ** Round trip: objects *)

Lemma Forall2_fields (R : Value -> Value -> Prop) (g : string -> Value) (ks : list string) :
  forall vs,
    Forall2 R (map g ks) vs ->
    Forall2 (fun a b => fst a = fst b /\ R (snd a) (snd b))
      (map (fun k => (k, g k)) ks) (combine ks vs).
Proof.
  induction ks as [|k ks IH]; intros vs H; cbn [map] in *.
  - inversion H; subst. constructor.
  - inversion H as [|? v' ? vs' Hv Hvs]; subst. cbn [combine].
    constructor; [now split | now apply IH].
Qed.

Lemma Forall2_length_eq {A B} (R : A -> B -> Prop) (l1 : list A) (l2 : list B) :
  Forall2 R l1 l2 -> List.length l1 = List.length l2.
Proof.
  induction 1; cbn [List.length]; [reflexivity | now f_equal].
Qed.

Section ObjRoundTrip.
Variable pc : bool.
Variables f fd : nat.
Variable P : Value -> Prop.
Variable R : Value -> Value -> Prop.
Hypothesis IH : RT (encodeAny pc f) (decodeAny pc fd) P R.

(** The fields of an object with unique keys, none of them dropped as a
    comment, come back in the sorted order of the keys. *)
Lemma rt_fields (x : list (string * Value)) (b : list byte) :
  NoDup (map fst x) ->
  pc || negb (existsb isComment (map fst x)) = true ->
  Forall (fun kv => P (snd kv)) x ->
  encodeAny pc (S f) (VObj x) = Ok b ->
  lenN b <= maxInt ->
  exists vs,
    Forall2 R (map (fun k => mapIndex k x) (sortBy stringLess (map fst x))) vs
    /\ forall rest,
        decodeAny pc (S fd) (b ++ rest)
        = Ok (VObj (combine (sortBy stringLess (map fst x)) vs), rest).
Proof.
  intros ND Hcm HP H Hlen.
  rewrite encodeAny_obj in H. rewrite (liveFields_id pc x Hcm) in H.
  set (ks := sortBy stringLess (map fst x)) in *.
  assert (Pk : Permutation ks (map fst x)) by apply sortBy_perm.
  destruct (encodeFields (encodeAny pc f) x ks) as [items|e] eqn:E; cbn [bind] in H;
    [|discriminate].
  injection H as <-.
  destruct (encodeFields_inv _ _ _ _ E) as [bl [HF ->]].
  assert (Hkb : List.length ks = List.length bl).
  { rewrite <- (Forall2_length_eq _ _ _ HF). now rewrite length_map. }
  assert (Hfb : lenN (fieldsBytes ks bl) <= maxInt).
  { apply N.le_trans with (2 := Hlen). rewrite lenN_cons, lenN_app. lia. }
  destruct (fields_roundtrip pc _ _ P R IH ks (map (fun k => mapIndex k x) ks) bl)
    as [vs [Rs Ds]].
  - exact HF.
  - now rewrite length_map.
  - apply Forall_forall. intros v Hv. apply in_map_iff in Hv.
    destruct Hv as [k [<- Hk]].
    assert (Hin : In (k, mapIndex k x) x).
    { apply mapIndex_in. now apply Permutation_in with ks. }
    apply (proj1 (Forall_forall _ x) HP _ Hin).
  - apply Forall_forall. intros k Hk.
    destruct pc; [apply andb_false_r|]. cbn [orb negb] in *.
    rewrite andb_true_r. apply negb_true_iff in Hcm.
    destruct (isComment k) eqn:Ec; [|reflexivity].
    assert (C : existsb isComment (map fst x) = true).
    { apply existsb_exists. exists k. split; [|exact Ec].
      now apply Permutation_in with ks. }
    congruence.
  - exact Hfb.
  - exists vs. split; [exact Rs|].
    intros rest. cbn [app]. apply decode_obj_fields.
    + apply N.le_trans with (2 := Hfb). now apply lenN_fieldsBytes_ge.
    + rewrite Ds. rewrite fold_mapSet_fresh.
      * reflexivity.
      * rewrite <- (Forall2_length_eq _ _ _ Rs). now rewrite length_map.
      * cbn [map app]. apply Permutation_NoDup with (map fst x); [|exact ND].
        now apply Permutation_sym.
Qed.
End ObjRoundTrip.

Lemma rt_obj (pc : bool) (f fd : nat) (x : list (string * Value)) (b : list byte) :
  RT (encodeAny pc f) (decodeAny pc fd) (InModel pc) Veq ->
  InModel pc (VObj x) ->
  encodeAny pc (S f) (VObj x) = Ok b ->
  lenN b <= maxInt ->
  exists v', Veq (VObj x) v' /\ forall rest, decodeAny pc (S fd) (b ++ rest) = Ok (v', rest).
Proof.
  unfold InModel at 2. cbn [inModel]. intros IH HP H Hlen.
  apply andb_true_iff in HP. destruct HP as [HP Hall].
  apply andb_true_iff in HP. destruct HP as [Hnd Hcm].
  apply nodupb_NoDup in Hnd.
  destruct (rt_fields pc f fd (InModel pc) Veq IH x b) as [vs [Rs Ds]]; try assumption.
  { apply Forall_forall. intros kv Hkv.
    apply (proj1 (forallb_forall _ x) Hall kv Hkv). }
  eexists. split; [|exact Ds].
  apply Veq_Obj with (map (fun k => (k, mapIndex k x)) (sortBy stringLess (map fst x))).
  - rewrite <- (assoc_by_keys x Hnd) at 1. apply Permutation_map.
    apply Permutation_sym, sortBy_perm.
  - now apply Forall2_fields.
Qed.

(** ** Round trip: maps *)

Lemma Forall2_same_keys (R : Value -> Value -> Prop) (x ys : list (Value * Value)) :
  Forall2 (fun a b => fst b = fst a /\ R (snd a) (snd b)) x ys -> map fst ys = map fst x.
Proof.
  induction 1 as [|a b x ys [Hk _] _ IH]; cbn [map]; [reflexivity|].
  now rewrite Hk, IH.
Qed.

Lemma Forall2_map_entries (x ys : list (Value * Value)) :
  Forall2 (fun a b => fst b = fst a /\ Veq (snd a) (snd b)) x ys ->
  Forall (fun kv => hashable (fst kv) = true) x ->
  Forall2 (fun a b => Veq (fst a) (fst b) /\ Veq (snd a) (snd b)) x ys.
Proof.
  induction 1 as [|a b x ys [Hk Hv] _ IH]; intros HF; [constructor|].
  inversion HF as [|? ? Ha Hx]; subst.
  constructor; [|now apply IH].
  split; [|exact Hv]. rewrite Hk. apply Veq_atom. now apply hashable_isAtom.
Qed.

Lemma rt_map (pc : bool) (f fd : nat) (x : list (Value * Value)) (b : list byte) :
  RT (encodeAny pc f) (decodeAny pc fd) (InModel pc) Veq ->
  InModel pc (VMap x) ->
  encodeAny pc (S f) (VMap x) = Ok b ->
  lenN b <= maxInt ->
  exists v', Veq (VMap x) v' /\ forall rest, decodeAny pc (S fd) (b ++ rest) = Ok (v', rest).
Proof.
  unfold InModel at 2. cbn [inModel]. intros IH HP H Hlen.
  apply andb_true_iff in HP. destruct HP as [Hdk Hall].
  assert (HPx : Forall (fun kv => hashable (fst kv) = true
                                 /\ InModel pc (fst kv) /\ InModel pc (snd kv)) x).
  { apply Forall_forall. intros kv Hkv.
    pose proof (proj1 (forallb_forall _ x) Hall kv Hkv) as Hq.
    apply andb_true_iff in Hq. destruct Hq as [Hq H3].
    apply andb_true_iff in Hq. destruct Hq as [H1 H2]. now repeat split. }
  assert (Hh : Forall (fun kv => hashable (fst kv) = true) x).
  { apply Forall_impl with (2 := HPx). now intros kv [Hq _]. }
  assert (ND : NoDup (map fst x)).
  { apply distinctKeys_NoDup; [|exact Hdk].
    apply Forall_forall. intros k Hk. apply in_map_iff in Hk.
    destruct Hk as [kv [<- Hkv]]. apply (proj1 (Forall_forall _ x) Hh kv Hkv). }
  rewrite encodeAny_mapv in H.
  destruct (encodePairs (encodeAny pc f) x) as [kvs|e] eqn:E; cbn [bind] in H; [|discriminate].
  injection H as <-.
  set (st := sortBy (fun p q => bytesLess (fst p) (fst q)) kvs) in *.
  destruct (Forall2_perm_l _ x kvs st (encodePairs_inv _ _ _ E)) as [x' [Px Fx]].
  { apply Permutation_sym, sortBy_perm. }
  assert (Hpb : lenN (pairsBytes st) <= maxInt).
  { apply N.le_trans with (2 := Hlen). rewrite lenN_cons, lenN_app. lia. }
  destruct (entries_roundtrip _ _ (InModel pc) Veq IH) with (x := x') (kvs := st)
    as [ys [Rs Ds]].
  - intros k k' Hk Hv. apply Veq_atom_eq; [now apply hashable_isAtom | exact Hv].
  - exact Fx.
  - now apply Forall_perm with x.
  - exact Hpb.
  - exists (VMap ys). split.
    + apply Veq_Map with x'; [exact Px|].
      apply Forall2_map_entries; [exact Rs | now apply Forall_perm with x].
    + intros rest. cbn [app]. apply decode_map_entries.
      * apply N.le_trans with (2 := Hpb). apply lenN_pairsBytes_ge.
        clear - Fx. induction Fx as [|kv p x' st [Hk _] _ IHF]; constructor; [|exact IHF].
        now apply encodeAny_nonempty in Hk.
      * rewrite Ds. rewrite fold_mapSetAny_fresh; [reflexivity|].
        cbn [map app]. rewrite (Forall2_same_keys _ _ _ Rs).
        apply Permutation_NoDup with (map fst x); [|exact ND].
        now apply Permutation_map.
Qed.

(** ** Round trip: envelopes *)

Lemma metaOfMap_features (fe : option (list string)) :
  match fe with
  | None => True
  | Some l => forallb (fun s => utf8Valid (bytesOfString s)) l = true
  end ->
  match jsonRoundTrip fe with
  | VArr v => Some (stringsOf v)
  | _ => None
  end = fe.
Proof.
  destruct fe as [l|]; cbn [jsonRoundTrip]; intros H; [|reflexivity].
  rewrite <- map_map with (f := jsonString) (g := VStr).
  now rewrite stringsOf_strs, jsonStrings_valid.
Qed.

Lemma metaOfMap_roundtrip (meta : Meta) :
  Sig meta = None ->
  match Features meta with
  | None => True
  | Some l => forallb (fun s => utf8Valid (bytesOfString s)) l = true
  end ->
  metaOfMap
    (combine (sortBy stringLess (map fst (metaMap meta)))
       (map metaNorm
          (map (fun k => mapIndex k (metaMap meta))
             (sortBy stringLess (map fst (metaMap meta))))))
  = meta.
Proof.
  destruct meta as [t s v c fe sg]. cbn [Sig Features]. intros -> Hf.
  pose proof (metaOfMap_features fe Hf) as HF.
  destruct c as [ts|].
  - assert (Hks : sortBy stringLess
                    (map fst (metaMap {| Type_ := t; Schema := s; Version := v;
                                         Created := Some ts; Features := fe; Sig := None |}))
                  = ["createdAt"; "features"; "schema"; "type"; "version"]%string)
      by reflexivity.
    rewrite Hks. unfold metaOfMap. f_equal; try reflexivity. exact HF.
  - assert (Hks : sortBy stringLess
                    (map fst (metaMap {| Type_ := t; Schema := s; Version := v;
                                         Created := None; Features := fe; Sig := None |}))
                  = ["features"; "schema"; "type"; "version"]%string)
      by reflexivity.
    rewrite Hks. unfold metaOfMap. f_equal; try reflexivity. exact HF.
Qed.

Lemma metaMap_ok (meta : Meta) :
  Sig meta = None ->
  match Features meta with
  | None => True
  | Some l => forallb (fun s => utf8Valid (bytesOfString s)) l = true
  end ->
  NoDup (map fst (metaMap meta))
  /\ (forall pc, pc || negb (existsb isComment (map fst (metaMap meta))) = true)
  /\ Forall (fun kv => metaValueOK (snd kv)) (metaMap meta).
Proof.
  destruct meta as [t s v c fe sg]. cbn [Sig Features]. intros -> Hf.
  assert (Hfe : metaValueOK (VStrings fe)) by (destruct fe; exact Hf).
  destruct c as [ts|]; (split; [apply nodupb_NoDup; reflexivity|]);
    (split; [intros pc; destruct pc; reflexivity|]);
    unfold metaMap; cbn [Created Sig Type_ Schema Version Features mapSet String.eqb];
    repeat constructor; exact Hfe.
Qed.

Lemma inModel_jsonRoundTrip (pc : bool) (x : option (list string)) :
  InModel pc (jsonRoundTrip x).
Proof.
  unfold InModel. destruct x as [l|]; cbn [jsonRoundTrip inModel]; [|reflexivity].
  induction l as [|s l IH]; cbn [map forallb inModel]; [reflexivity | exact IH].
Qed.

(** The values of the meta map, one level below the meta object. *)
Lemma rt_meta_values (pc : bool) (f' fd' : nat) :
  (forall g gd, (g <= f')%nat -> (g <= gd)%nat ->
                RT (encodeAny pc g) (decodeAny pc gd) (InModel pc) Veq) ->
  (f' <= fd')%nat ->
  RT (encodeAny pc f') (decodeAny pc fd') metaValueOK (fun v v' => v' = metaNorm v).
Proof.
  intros IHall Hfd v b Pv Hv Hl.
  destruct v; try contradiction.
  - destruct (IHall f' fd') with (v := VStr x) (b := b) as [v' [Rv Dv]];
      try assumption; try lia; try reflexivity.
    apply Veq_atom_eq in Rv; [|reflexivity]. subst v'. now exists (VStr x).
  - destruct (IHall f' fd') with (v := VTimestamp RFC3339) (b := b) as [v' [Rv Dv]];
      try assumption; try lia; try reflexivity.
    apply Veq_atom_eq in Rv; [|reflexivity]. subst v'. now exists (VTimestamp RFC3339).
  - destruct f' as [|f'']; [discriminate Hv|].
    rewrite encodeAny_strings in Hv.
    destruct (IHall f'' fd') with (v := jsonRoundTrip x) (b := b) as [v' [Rv Dv]];
      try assumption; try lia.
    + apply inModel_jsonRoundTrip.
    + apply Veq_jsonRoundTrip in Rv. subst v'. now exists (jsonRoundTrip x).
Qed.

Lemma rt_env (pc : bool) (f fd : nat) (meta : Meta) (body : Value) (b : list byte) :
  (forall g gd, (g <= f)%nat -> (g <= gd)%nat ->
                RT (encodeAny pc g) (decodeAny pc gd) (InModel pc) Veq) ->
  (f <= fd)%nat ->
  InModel pc (VEnvelope meta body) ->
  encodeAny pc (S f) (VEnvelope meta body) = Ok b ->
  lenN b <= maxInt ->
  exists v',
    Veq (VEnvelope meta body) v'
    /\ forall rest, decodeAny pc (S fd) (b ++ rest) = Ok (v', rest).
Proof.
  unfold InModel at 2. cbn [inModel]. intros IHall Hfd HP H Hlen.
  apply andb_true_iff in HP. destruct HP as [HP Hbody].
  apply andb_true_iff in HP. destruct HP as [Hsig Hfe].
  assert (Hsig' : Sig meta = None) by (destruct (Sig meta); [discriminate Hsig | reflexivity]).
  assert (Hfe' : match Features meta with
                 | None => True
                 | Some l => forallb (fun s => utf8Valid (bytesOfString s)) l = true
                 end) by (destruct (Features meta); [exact Hfe | exact I]).
  rewrite encodeAny_env in H.
  destruct (encodeAny pc f (VObj (metaMap meta))) as [mb|e] eqn:Em; cbn [bind] in H;
    [|discriminate].
  destruct (encodeAny pc f body) as [bb|e] eqn:Eb; cbn [bind] in H; [|discriminate].
  injection H as <-.
  assert (Hmb : lenN mb <= maxInt).
  { apply N.le_trans with (2 := Hlen). rewrite lenN_cons, lenN_app. lia. }
  assert (Hbb : lenN bb <= maxInt).
  { apply N.le_trans with (2 := Hlen). rewrite lenN_cons, lenN_app. lia. }
  destruct (IHall f fd) with (v := body) (b := bb) as [body' [Rb Db]];
    try assumption; try lia.
  destruct f as [|f']; [discriminate Em|].
  destruct fd as [|fd']; [lia|].
  destruct (metaMap_ok meta Hsig' Hfe') as [ND [Hcm Hok]].
  assert (RTm : RT (encodeAny pc f') (decodeAny pc fd') metaValueOK
                  (fun v v' => v' = metaNorm v)).
  { apply rt_meta_values; [|lia]. intros g gd H1 H2. apply IHall; lia. }
  destruct (rt_fields pc f' fd' metaValueOK (fun v v' => v' = metaNorm v) RTm
              (metaMap meta) mb ND (Hcm pc) Hok Em Hmb) as [vs [Rs Ds]].
  assert (Hvs : vs = map metaNorm
                       (map (fun k => mapIndex k (metaMap meta))
                          (sortBy stringLess (map fst (metaMap meta))))).
  { clear - Rs. induction Rs as [|a v' l vs' Hv _ IHR]; cbn [map]; [reflexivity|].
    now rewrite Hv, IHR. }
  exists (VEnvelope meta body'). split; [now constructor|].
  intros rest. cbn [app]. rewrite decodeAny_env. rewrite <- app_assoc.
  rewrite Ds. cbn [bind]. rewrite Db. cbn [bind].
  rewrite Hvs. now rewrite metaOfMap_roundtrip.
Qed.

(** ** Round trip: the induction *)

Lemma roundtrip_fuel (pc : bool) :
  forall fe fd, (fe <= fd)%nat ->
                RT (encodeAny pc fe) (decodeAny pc fd) (InModel pc) Veq.
Proof.
  induction fe as [fe IH] using lt_wf_ind. intros fd Hle v b Pv Hb Hlen.
  destruct fe as [|f]; [discriminate Hb|].
  destruct fd as [|fd]; [lia|].
  assert (IHf : RT (encodeAny pc f) (decodeAny pc fd) (InModel pc) Veq)
    by (apply IH; lia).
  destruct (isAtom v) eqn:Ha.
  - exists v. split; [now apply Veq_atom|].
    now apply rt_atom with (fe := f).
  - destruct v; try discriminate Ha.
    + now apply rt_arr with (f := f).
    + now apply rt_obj with (f := f).
    + now apply rt_set with (f := f).
    + now apply rt_map with (f := f).
    + apply rt_env with (f := f); try assumption; [|lia].
      intros g gd H1 H2. apply IH; lia.
    + discriminate Pv.
Qed.

(** ** Structural equality of objects *)

Lemma Veq_obj_length (x y : list (string * Value)) :
  Veq (VObj x) (VObj y) -> List.length x = List.length y.
Proof.
  intros H. inversion H as [? Ha| |? x' ? HP HF| | |]; subst; [reflexivity|].
  rewrite (Permutation_length HP). now apply Forall2_length_eq in HF.
Qed.

(** ** Objects that differ in the order of their keys, at any depth *)

Section EncodePointwise.
Variable enc : Value -> Res (list byte).




End EncodePointwise.









(** ** Examples on the edges of the statements below *)

(** Comments outside strings are removed; the line break that ends a line
    comment is kept. *)
Example strip_removes_comments :
  StripJSONComments (bytesOfString "[1, /* two */ 2] // end" ++ [chLF])
  = bytesOfString "[1,  2] " ++ [chLF].
Proof. vm_compute. reflexivity. Qed.

(** A slash that starts no comment is written back with the byte after it,
    and the stripper returns to its normal state: a quote read right after
    such a slash is copied but opens no string.  No JSON text, with or
    without comments, has a slash there. *)
Example strip_quote_after_slash :
  stateAfter [chSlash] = sSlash
  /\ StripJSONComments (chSlash :: quoted "//") = [chSlash; chQuote].
Proof. split; vm_compute; reflexivity. Qed.

(** The [sig] of an envelope is written by the encoder and not read back by
    the decoder. *)
Example envelope_sig_not_read_back :
  (bs <- EncodeBinary
           (VEnvelope {| Type_ := "t"; Schema := ""; Version := ""; Created := None;
                         Features := None; Sig := Some (VInt 3) |} VNull) ;;
   DecodeBinary bs)
  = Ok (VEnvelope {| Type_ := "t"; Schema := ""; Version := ""; Created := None;
                     Features := None; Sig := None |} VNull).
Proof. vm_compute. reflexivity. Qed.

(** Scenario S1 of the spec: both key orders of the object with [a = 1] and
    [b = 2] give the same bytes, keys in ascending order. *)
Example obj_a1_b2_bytes :
  EncodeBinary (VObj [("b"%string, VInt 2); ("a"%string, VInt 1)])
  = Ok [tagObj; x02; x01; x61; tagInt; x02; x00; x01; x01; x62; tagInt; x02; x00; x02].
Proof. vm_compute. reflexivity. Qed.

(** * The claims *)

(** ** C1: the round trip *)

(** C1, as stated, fails: an object with a [$comment] entry, which meets
    every invariant of the data model, does not come back from the round
    trip; the entry is dropped. *)
Lemma C1_roundtrip_counterexample :
  inModel true commentedObj = true
  /\ (bs <- EncodeBinary commentedObj ;; DecodeBinary bs) = Ok (VObj [("a"%string, VInt 1)])
  /\ ~ Veq commentedObj (VObj [("a"%string, VInt 1)]).
Proof.
  split; [reflexivity|]. split.
  - vm_compute. reflexivity.
  - intros H. apply Veq_obj_length in H. discriminate H.
Qed.

(** C1 (amended).  For every value of the data model that has no [$comment]
    key in an object (or with [PreserveComments] set), whose envelopes carry
    no [Sig] and have well-formed UTF-8 [Features], and that the encoder
    accepts (it fails beyond [MaxDepth]) into fewer than 2^63 bytes, decoding
    the encoding succeeds and gives a structurally equal value: equal up to
    the order of the entries of objects, sets and maps. *)
Theorem C1_roundtrip (pc : bool) (v : Value) (bs : list byte) :
  InModel pc v ->
  EncodeBinaryWith pc v = Ok bs ->
  lenN bs <= maxInt ->
  exists v', DecodeBinaryWith pc bs = Ok v' /\ Veq v v'.
Proof.
  intros Hm He Hl. unfold EncodeBinaryWith in He.
  destruct (roundtrip_fuel pc (S (MaxDepth DefaultLimits)) (S (MaxDepth DefaultLimits))
              (Nat.le_refl _) v bs Hm He Hl) as [v' [Rv Dv]].
  exists v'. split; [|exact Rv].
  unfold DecodeBinaryWith. rewrite <- (app_nil_r bs). rewrite Dv. reflexivity.
Qed.

Lemma C1_roundtrip_witness :
  exists v', (bs <- EncodeBinary sampleEnvelope ;; DecodeBinary bs) = Ok v'
             /\ Veq sampleEnvelope v'.
Proof.
  unfold EncodeBinary, DecodeBinary.
  let r := eval vm_compute in (EncodeBinaryWith PreserveCommentsDefault sampleEnvelope) in
  match r with
  | Ok ?bs =>
      assert (E : EncodeBinaryWith PreserveCommentsDefault sampleEnvelope = Ok bs)
        by (vm_compute; reflexivity);
      destruct (C1_roundtrip PreserveCommentsDefault sampleEnvelope bs) as [v' [D R]];
      [ vm_compute; reflexivity | exact E | now vm_compute
      | exists v'; rewrite E; cbn [bind]; split; [exact D | exact R] ]
  end.
Defined.

(** ** C2: the encoding of an Obj does not depend on the key order *)



(** ** C3: the encoding of a Set *)

(** C3, as stated, fails: the Set of "gift", "festival", "gift" is not
    written as two members with "festival" first. *)
Lemma C3_set_counterexample :
  EncodeBinary (VSet [VStr "gift"; VStr "festival"; VStr "gift"])
  <> Ok (tagSet :: x02 :: (tagStr :: writeString "festival") ++ (tagStr :: writeString "gift")).
Proof. vm_compute. discriminate. Qed.

(** C3 (amended).  The Set of "gift", "festival", "gift" is written with
    count 3 and its members in ascending order of their encoded bytes, which
    puts both "gift" (length byte 4) before "festival" (length byte 8).  In
    general the members of a Set are encoded one by one, sorted by
    [bytes.Compare] and all written: the count is the number of elements
    given and nothing is deduplicated. *)
Theorem C3_set_sorted_not_deduplicated :
  EncodeBinary (VSet [VStr "gift"; VStr "festival"; VStr "gift"])
  = Ok (tagSet :: x03 :: (tagStr :: writeString "gift") ++ (tagStr :: writeString "gift")
          ++ (tagStr :: writeString "festival"))
  /\ forall pc f x bs,
       encodeAny pc (S f) (VSet x) = Ok bs ->
       exists tmp,
         encodeEach (encodeAny pc f) x = Ok tmp
         /\ bs = tagSet :: putUvarint (lenN x mod 2 ^ 64) ++ List.concat (sortBy bytesLess tmp)
         /\ List.length (sortBy bytesLess tmp) = List.length x
         /\ Permutation (sortBy bytesLess tmp) tmp
         /\ Sorted (fun a b => bytesLess b a = false) (sortBy bytesLess tmp).
Proof.
  split.
  - vm_compute. reflexivity.
  - intros pc f x bs H. rewrite encodeAny_setv in H.
    destruct (encodeEach (encodeAny pc f) x) as [tmp|e] eqn:E; cbn [bind] in H;
      [|discriminate].
    injection H as <-. exists tmp.
    assert (L : List.length (sortBy bytesLess tmp) = List.length x).
    { rewrite sortBy_length. now apply encodeEach_length with (enc := encodeAny pc f). }
    split; [reflexivity|]. split.
    + unfold lenN. now rewrite L.
    + split; [exact L|]. split.
      * apply sortBy_perm.
      * apply sortBy_sorted. exact bytesLess_asym.
Qed.

Lemma C3_set_witness :
  exists tmp,
    encodeEach (encodeAny false 3) [VInt 2; VInt 1; VInt 2] = Ok tmp
    /\ List.length (sortBy bytesLess tmp) = 3%nat.
Proof.
  destruct (proj2 C3_set_sorted_not_deduplicated false 3%nat [VInt 2; VInt 1; VInt 2]
              [tagSet; x03; tagInt; x02; x00; x01; tagInt; x02; x00; x02; tagInt; x02; x00; x02])
    as [tmp [H1 [_ [H3 _]]]].
  - vm_compute. reflexivity.
  - exists tmp. split; [exact H1 | exact H3].
Defined.

(** ** C4: the encoding of the Int zero *)

(** C4, as stated, fails: the encoding of the Int zero is not the tag
    followed by the single length byte [0x00]. *)
Lemma C4_int_zero_counterexample : EncodeBinary (VInt 0) <> Ok [tagInt; x00].
Proof. vm_compute. discriminate. Qed.

(** C4 (amended).  [EncodeBinary] writes the Int zero as the tag [0x03], the
    length [0x01] and the sign byte [0x00], with no magnitude byte; this form
    decodes to zero, and so does the length-zero form [0x03 0x00] that the
    decoder accepts but the encoder never writes. *)
Theorem C4_int_zero_encoding :
  EncodeBinary (VInt 0) = Ok [tagInt; x01; x00]
  /\ DecodeBinary [tagInt; x01; x00] = Ok (VInt 0)
  /\ DecodeBinary [tagInt; x00] = Ok (VInt 0).
Proof. repeat split; vm_compute; reflexivity. Qed.

(** ** C5: the MaxBytes limit *)

Lemma lenN_oversizedPayload : lenN oversizedPayload = MaxBytes DefaultLimits + 1.
Proof.
  unfold oversizedPayload, lenN. rewrite repeat_length. apply N2Nat.id.
Qed.

(** C5.  The failing input: a Bin whose payload is one byte longer than
    [MaxBytes].  [DefaultLimits] declares [MaxBytes] beside [MaxDepth], and
    [decodeAny] checks the depth only: where the claim asks for the error
    TooLarge, [DecodeBinary] allocates the payload and returns it. *)
Theorem C5_oversized_input_decodes :
  MaxBytes DefaultLimits < lenN oversizedPayload
  /\ DecodeBinary (tagBin :: writeBytes oversizedPayload) = Ok (VBinary oversizedPayload).
Proof.
  split.
  - rewrite lenN_oversizedPayload. lia.
  - unfold DecodeBinary, DecodeBinaryWith.
    rewrite <- (app_nil_r (writeBytes oversizedPayload)).
    rewrite decode_bin.
    + reflexivity.
    + rewrite lenN_oversizedPayload. now vm_compute.
Qed.

(** ** C6: keys of an envelope's meta object *)




(** ** C7: Str payloads and UTF-8 *)

(** C7, as stated, fails: the payload [0xFF] is not valid UTF-8 and
    [DecodeBinary] returns it as a Str. *)
Lemma C7_invalid_utf8_counterexample :
  utf8Valid [xff] = false
  /\ DecodeBinary [tagStr; x01; xff] = Ok (VStr (stringOfBytes [xff])).
Proof. split; vm_compute; reflexivity. Qed.

(** C7 (amended).  [DecodeBinary] does not validate UTF-8: for every payload,
    well-formed UTF-8 or not, the input made of the Str tag and the
    length-prefixed payload decodes to the Str holding exactly those bytes. *)
Theorem C7_str_payload_verbatim (payload : list byte) :
  lenN payload <= maxInt ->
  DecodeBinary (tagStr :: writeBytes payload) = Ok (VStr (stringOfBytes payload))
  /\ forall s, DecodeBinary (tagStr :: writeBytes payload) = Ok (VStr s) ->
               bytesOfString s = payload.
Proof.
  intros H.
  assert (E : DecodeBinary (tagStr :: writeBytes payload)
              = Ok (VStr (stringOfBytes payload))).
  { unfold DecodeBinary, DecodeBinaryWith.
    rewrite <- (app_nil_r (writeBytes payload)).
    rewrite decode_text by (reflexivity || exact H). reflexivity. }
  split; [exact E|].
  intros s Hs. rewrite E in Hs. injection Hs as <-. apply bytes_string_id.
Qed.

Lemma C7_str_payload_witness :
  lenN [xff; xfe] <= maxInt
  /\ DecodeBinary (tagStr :: writeBytes [xff; xfe]) = Ok (VStr (stringOfBytes [xff; xfe])).
Proof.
  split.
  - vm_compute. discriminate.
  - apply (C7_str_payload_verbatim [xff; xfe]). vm_compute. discriminate.
Defined.

(** ** C8: the comment stripper and string literals *)

(** C8.  [StripJSONComments] writes every byte of a string literal: a literal
    that starts where the stripper is in its normal state comes out verbatim,
    between the outputs for what precedes and what follows it; an input in
    which the stripper recognizes no comment comes out unchanged; and the
    input of scenario S3, whose strings contain [//] and a block comment
    text, is such an input. *)
Theorem C8_strip_preserves_strings :
  (forall pre lit post,
      stateAfter pre = sNorm ->
      isStringLiteral lit = true ->
      StripJSONComments (pre ++ lit ++ post)
      = StripJSONComments pre ++ lit ++ StripJSONComments post)
  /\ (forall input, commentFree sNorm input = true -> StripJSONComments input = input)
  /\ StripJSONComments s3Input = s3Input.
Proof.
  split; [exact strip_string_literal|].
  split; [exact strip_commentFree|].
  vm_compute. reflexivity.
Qed.

Lemma C8_strip_witness :
  StripJSONComments (bytesOfString "[1, " ++ quoted "a // b" ++ bytesOfString " /* c */]")
  = StripJSONComments (bytesOfString "[1, ") ++ quoted "a // b"
      ++ StripJSONComments (bytesOfString " /* c */]")
  /\ StripJSONComments (bytesOfString "a/b" ++ quoted "/*") = bytesOfString "a/b" ++ quoted "/*".
Proof.
  split.
  - apply (proj1 C8_strip_preserves_strings); vm_compute; reflexivity.
  - apply (proj1 (proj2 C8_strip_preserves_strings)). vm_compute. reflexivity.
Defined.

(** ** C9: the header check of [DecryptJOLT] *)

(** C9.  On a blob whose AAD parses as a header, a [kid] or an [alg] of the
    header that differs from the wire field makes [DecryptJOLT] fail with the
    header-mismatch error, whatever the keyring and the AEAD are, and without
    any call to them: the log of outside calls is returned unchanged. *)
Theorem C9_header_mismatch_first
    (jsonUnmarshalHeader : list byte -> option Header)
    (krGet : string -> option (list byte))
    (aeadOpen : string -> list byte -> list byte -> list byte -> list byte
                -> option (list byte))
    (alg keyID nonce aad ct trailing : list byte) (hdr : Header) (log : list Event) :
  lenN alg <= maxInt -> lenN keyID <= maxInt -> lenN nonce <= maxInt ->
  lenN aad <= maxInt -> lenN ct <= maxInt ->
  jsonUnmarshalHeader aad = Some hdr ->
  KeyID hdr <> stringOfBytes keyID \/ Alg hdr <> stringOfBytes alg ->
  DecryptJOLT jsonUnmarshalHeader krGet aeadOpen
    (sealedBlob alg keyID nonce aad ct ++ trailing) log
  = (log, inl ErrHeaderMismatch).
Proof.
  intros H1 H2 H3 H4 H5 Hj Hm.
  rewrite DecryptJOLT_fields by assumption. rewrite Hj.
  assert (E : negb (String.eqb (KeyID hdr) (stringOfBytes keyID))
              || negb (String.eqb (stringOfBytes alg) (Alg hdr)) = true).
  { apply orb_true_iff. destruct Hm as [Hk|Ha].
    - left. apply negb_true_iff. now apply String.eqb_neq.
    - right. apply negb_true_iff. apply String.eqb_neq. congruence. }
  now rewrite E.
Qed.

Lemma C9_header_mismatch_witness :
  DecryptJOLT
    (fun _ => Some {| Alg := AlgAES256GCM; KeyID := "k2"; Extra := None |})
    (fun _ => Some [x00])
    (fun _ _ _ _ ct => Some ct)
    (sealedBlob (bytesOfString AlgAES256GCM) (bytesOfString "k1") [x00] [x7b; x7d] [x01]) []
  = ([], inl ErrHeaderMismatch).
Proof.
  rewrite <- (app_nil_r (sealedBlob _ _ _ _ _)).
  apply (C9_header_mismatch_first _ _ _ _ _ _ _ _ []
           {| Alg := AlgAES256GCM; KeyID := "k2"; Extra := None |}).
  - now vm_compute.
  - now vm_compute.
  - now vm_compute.
  - now vm_compute.
  - now vm_compute.
  - reflexivity.
  - left. vm_compute. discriminate.
Defined.

(** ** C10: the exponent of a Dec is cut to 32 bits *)



(** * Further properties of the code *)

(** ** uvarint and zigzag *)

Lemma lor_lt_pow2 (a b k : N) : a < 2 ^ k -> b < 2 ^ k -> N.lor a b < 2 ^ k.
Proof.
  intros Ha Hb.
  destruct (N.eq_dec a 0) as [->|Na]; [now rewrite N.lor_0_l|].
  destruct (N.eq_dec b 0) as [->|Nb]; [now rewrite N.lor_0_r|].
  assert (Nl : N.lor a b <> 0) by (rewrite N.lor_eq_0_iff; tauto).
  apply N.log2_lt_pow2; [lia|].
  rewrite N.log2_lor.
  apply N.log2_lt_pow2 in Ha; [|lia].
  apply N.log2_lt_pow2 in Hb; [|lia].
  lia.
Qed.

Lemma shiftl_lt_pow2 (b s : N) : b < 128 -> N.shiftl b s < 2 ^ (s + 7).
Proof.
  intros Hb. rewrite N.shiftl_mul_pow2, N.pow_add_r.
  change (2 ^ 7) with 128.
  assert (0 < 2 ^ s) by (apply N.neq_0_lt_0, N.pow_nonzero; lia).
  nia.
Qed.

Lemma readUvarintLoop_sound (n : nat) :
  forall i x s br r rest,
    s = 7 * i ->
    i + N.of_nat n = 10 ->
    x < 2 ^ s ->
    readUvarintLoop n i x s br = Ok (r, rest) ->
    r < 2 ^ 64
    /\ exists pre, br = pre ++ rest /\ (1 <= List.length pre <= n)%nat.
Proof.
  induction n as [|n IH]; intros i x s br r rest Hs Hi Hx H.
  - discriminate H.
  - destruct br as [|b br]; [cbn in H; destruct (0 <? i); discriminate|].
    rewrite readUvarintLoop_cons in H.
    destruct (byteN b <? 128) eqn:Eb.
    + apply N.ltb_lt in Eb.
      destruct ((i =? 9) && (1 <? byteN b)) eqn:Eo; [discriminate|].
      injection H as <- <-. split.
      * destruct (N.eq_dec i 9) as [I9|I9].
        -- rewrite I9 in Eo. cbn [N.eqb Pos.eqb andb] in Eo.
           apply N.ltb_ge in Eo.
           apply lor_lt_pow2.
           ++ apply N.lt_trans with (2 ^ s); [exact Hx|].
              apply N.pow_lt_mono_r; lia.
           ++ rewrite N.shiftl_mul_pow2. subst s i.
              change (2 ^ (7 * 9)) with 9223372036854775808.
              change (2 ^ 64) with 18446744073709551616. lia.
        -- assert (Hle : 2 ^ (s + 7) <= 2 ^ 64) by (apply N.pow_le_mono_r; lia).
           apply N.lt_le_trans with (2 ^ (s + 7)); [|exact Hle].
           apply lor_lt_pow2.
           ++ apply N.lt_trans with (2 ^ s); [exact Hx|].
              apply N.pow_lt_mono_r; lia.
           ++ now apply shiftl_lt_pow2.
      * exists [b]. split; [reflexivity|cbn; lia].
    + apply IH in H; try lia.
      * destruct H as [Hr [pre [-> Hl]]]. split; [exact Hr|].
        exists (b :: pre). split; [reflexivity|cbn; lia].
      * apply lor_lt_pow2.
        -- apply N.lt_trans with (2 ^ s); [exact Hx|].
           apply N.pow_lt_mono_r; lia.
        -- apply shiftl_lt_pow2. rewrite land_low_bits.
           apply N.mod_lt. lia.
Qed.

Lemma putUvarintLoop_length (m : nat) :
  forall y, (List.length (putUvarintLoop m y) <= S m)%nat.
Proof.
  induction m as [|m IH]; intros y; cbn [putUvarintLoop].
  - cbn. lia.
  - destruct (128 <=? y); cbn [List.length]; [specialize (IH (N.shiftr y 7)); lia|lia].
Qed.

Lemma readUvarintLoop_truncated (m : nat) :
  forall y pre suf n i x s,
    putUvarintLoop m y = pre ++ suf ->
    suf <> [] ->
    (List.length pre < n)%nat ->
    readUvarintLoop n i x s pre
    = Err (if 0 <? i + lenN pre then ErrUnexpectedEOF else ErrEOF).
Proof.
  assert (Nil : forall n i x s, (0 < n)%nat ->
                  readUvarintLoop n i x s []
                  = Err (if 0 <? i + lenN (@nil byte) then ErrUnexpectedEOF else ErrEOF)).
  { intros n i x s Hn. destruct n as [|n]; [lia|]. cbn [readUvarintLoop].
    unfold lenN. cbn [List.length N.of_nat]. rewrite N.add_0_r.
    now destruct (0 <? i). }
  induction m as [|m IH]; intros y pre suf n i x s E Hsuf Hn.
  - cbn [putUvarintLoop] in E.
    destruct pre as [|c pre]; [apply Nil; lia|].
    destruct pre; [|discriminate E].
    injection E as _ E. now subst suf.
  - cbn [putUvarintLoop] in E.
    destruct (128 <=? y).
    + destruct pre as [|c pre]; [apply Nil; lia|].
      injection E as Ec E.
      destruct n as [|n]; [cbn in Hn; lia|].
      rewrite readUvarintLoop_cons.
      assert (Hc : (byteN c <? 128) = false).
      { apply N.ltb_ge. subst c. rewrite byteN_mkByte.
        rewrite lor_high_bit by (rewrite byteN_mkByte; apply N.mod_lt; lia).
        assert (Ht : byteN (mkByte y) mod 128 < 128) by (apply N.mod_lt; lia).
        set (t := byteN (mkByte y) mod 128) in *. clearbody t.
        rewrite N.mod_small by lia. lia. }
      rewrite Hc.
      rewrite (IH _ _ _ n (i + 1) _ _ E Hsuf) by (cbn in Hn; lia).
      rewrite lenN_cons.
      replace (0 <? i + 1 + lenN pre) with true by (symmetry; apply N.ltb_lt; lia).
      replace (0 <? i + (lenN pre + 1)) with true by (symmetry; apply N.ltb_lt; lia).
      reflexivity.
    + destruct pre as [|c pre]; [apply Nil; lia|].
      destruct pre; [|discriminate E].
      injection E as _ E. now subst suf.
Qed.

(** ** Frames *)

Lemma firstn_lenN_app {A} (p rest : list A) :
  firstn (N.to_nat (lenN p)) (p ++ rest) = p.
Proof.
  rewrite lenN_length, firstn_app, Nat.sub_diag, firstn_all. cbn. apply app_nil_r.
Qed.

Lemma skipn_lenN_app {A} (p rest : list A) :
  skipn (N.to_nat (lenN p)) (p ++ rest) = rest.
Proof.
  rewrite lenN_length, skipn_app, Nat.sub_diag, skipn_all. reflexivity.
Qed.

Lemma readFull_app (p rest : list byte) : readFull (lenN p) (p ++ rest) = Ok (p, rest).
Proof.
  unfold readFull.
  destruct (lenN p =? 0) eqn:E0.
  - apply N.eqb_eq in E0. destruct p; [reflexivity|].
    rewrite lenN_cons in E0. lia.
  - replace (lenN (p ++ rest) <? lenN p) with false
      by (symmetry; apply N.ltb_ge; apply lenN_le_app_l).
    now rewrite firstn_lenN_app, skipn_lenN_app.
Qed.

Lemma readFull_short (n : N) (r : list byte) :
  lenN r < n -> readFull n r = Err ErrEOF \/ readFull n r = Err ErrUnexpectedEOF.
Proof.
  intros H. unfold readFull.
  replace (n =? 0) with false by (symmetry; apply N.eqb_neq; lia).
  replace (lenN r <? n) with true by (symmetry; now apply N.ltb_lt).
  destruct r; [now left|now right].
Qed.

Lemma readUvarint_truncated (x : N) (pre suf : list byte) :
  putUvarint x = pre ++ suf ->
  suf <> [] ->
  readUvarint pre = Err (match pre with [] => ErrEOF | _ :: _ => ErrUnexpectedEOF end).
Proof.
  intros E Hsuf. unfold readUvarint, putUvarint in *.
  assert (Hl : (List.length pre < 10)%nat).
  { pose proof (putUvarintLoop_length 9 x) as L. rewrite E, length_app in L.
    destruct suf; [congruence|]. cbn in L. lia. }
  rewrite (readUvarintLoop_truncated 9 x pre suf 10 0 0 0 E Hsuf Hl).
  destruct pre; [reflexivity|].
  rewrite lenN_cons.
  replace (0 <? 0 + (lenN pre + 1)) with true by (symmetry; apply N.ltb_lt; lia).
  reflexivity.
Qed.

(** X1: [readUvarint] reads back what [putUvarint] wrote, for every
    [uint64], and leaves the bytes that follow unread. *)
Theorem X1_uvarint_roundtrip (x : N) (rest : list byte) :
  x < 2 ^ 64 -> readUvarint (putUvarint x ++ rest) = Ok (x, rest).
Proof. apply readUvarint_put. Qed.

Lemma X1_uvarint_roundtrip_witness :
  300 < 2 ^ 64 /\ readUvarint (putUvarint 300 ++ [xff]) = Ok (300, [xff]).
Proof.
  split; [reflexivity|].
  apply (X1_uvarint_roundtrip 300 [xff]). reflexivity.
Defined.

(** X2: a successful [readUvarint] returns a value below 2^64 and has
    consumed between one and ten bytes from the front of its input. *)
Theorem X2_readUvarint_consumes (br : list byte) (x : N) (rest : list byte) :
  readUvarint br = Ok (x, rest) ->
  x < 2 ^ 64
  /\ exists pre, br = pre ++ rest /\ (1 <= List.length pre <= 10)%nat.
Proof.
  intros H. apply (readUvarintLoop_sound 10 0 0 0 br x rest); try reflexivity.
  exact H.
Qed.

Lemma X2_readUvarint_consumes_witness :
  172 < 2 ^ 64
  /\ exists pre, [xac; x01; x07] = pre ++ [x07] /\ (1 <= List.length pre <= 10)%nat.
Proof.
  apply (X2_readUvarint_consumes [xac; x01; x07] 172 [x07]). reflexivity.
Defined.

(** X3: on an input that stops inside the bytes of a uvarint, [readUvarint]
    fails: with [io.EOF] when the input is empty and with
    [io.ErrUnexpectedEOF] when it ends after at least one byte. *)
Theorem X3_readUvarint_truncated (x : N) (pre suf : list byte) :
  putUvarint x = pre ++ suf ->
  suf <> [] ->
  readUvarint pre = Err (match pre with [] => ErrEOF | _ :: _ => ErrUnexpectedEOF end).
Proof. apply readUvarint_truncated. Qed.

Lemma X3_readUvarint_truncated_witness :
  readUvarint [xac] = Err ErrUnexpectedEOF.
Proof.
  apply (X3_readUvarint_truncated 300 [xac] [x02]); [reflexivity|discriminate].
Defined.

(** X4: [readZigZag] reads back every [int64] that [putZigZag] wrote. *)
Theorem X4_zigzag_roundtrip (i : Z) (rest : list byte) :
  (- 2 ^ 63 <= i < 2 ^ 63)%Z ->
  readZigZag (putZigZag i ++ rest) = Ok (i, rest).
Proof. apply readZigZag_put. Qed.

Lemma X4_zigzag_roundtrip_witness :
  readZigZag (putZigZag (-3) ++ [x00]) = Ok ((-3)%Z, [x00]).
Proof.
  apply (X4_zigzag_roundtrip (-3) [x00]). split; now vm_compute.
Defined.

(** X5: [ReadFrame] returns the payload that [WriteFrame] wrote and stops
    at the end of the frame, so frames written one after the other are read
    back one at a time. *)
Theorem X5_frame_roundtrip (payload rest : list byte) :
  lenN payload <= maxInt ->
  ReadFrame (WriteFrame payload ++ rest) = Ok (payload, rest).
Proof.
  intros H. unfold ReadFrame, WriteFrame.
  rewrite mod_u64_small by exact H.
  rewrite <- app_assoc, readUvarint_put by (now apply maxInt_lt_u64).
  cbn [bind].
  replace (maxInt <? lenN payload) with false by (symmetry; now apply N.ltb_ge).
  apply readFull_app.
Qed.

Lemma X5_frame_roundtrip_witness :
  ReadFrame (WriteFrame [x01; x02] ++ WriteFrame [x03]) = Ok ([x01; x02], WriteFrame [x03]).
Proof.
  apply (X5_frame_roundtrip [x01; x02] (WriteFrame [x03])). now vm_compute.
Defined.

(** X6: [ReadFrame] never returns a shortened payload: on an input that
    stops anywhere inside a frame it fails with [io.EOF] or
    [io.ErrUnexpectedEOF]. *)
Theorem X6_frame_truncated (payload pre suf : list byte) :
  lenN payload <= maxInt ->
  WriteFrame payload = pre ++ suf ->
  suf <> [] ->
  ReadFrame pre = Err ErrEOF \/ ReadFrame pre = Err ErrUnexpectedEOF.
Proof.
  intros Hlen E Hsuf. unfold WriteFrame in E.
  rewrite mod_u64_small in E by exact Hlen.
  apply app_eq_app in E. destruct E as [l [[E1 E2]|[E1 E2]]].
  - destruct l as [|c l].
    + rewrite app_nil_r in E1. cbn [app] in E2. subst suf pre.
      unfold ReadFrame.
      pose proof (readUvarint_put (lenN payload) [] (maxInt_lt_u64 _ Hlen)) as R.
      rewrite app_nil_r in R. rewrite R. cbn [bind].
      replace (maxInt <? lenN payload) with false by (symmetry; now apply N.ltb_ge).
      apply readFull_short. destruct payload; [congruence|].
      rewrite lenN_cons. unfold lenN. cbn. lia.
    + unfold ReadFrame.
      rewrite (readUvarint_truncated (lenN payload) pre (c :: l) E1) by discriminate.
      cbn [bind]. destruct pre; [now left|now right].
  - subst pre. unfold ReadFrame.
    rewrite readUvarint_put by (now apply maxInt_lt_u64).
    cbn [bind].
    replace (maxInt <? lenN payload) with false by (symmetry; now apply N.ltb_ge).
    apply readFull_short. subst payload. rewrite lenN_app.
    destruct suf; [congruence|]. rewrite lenN_cons. lia.
Qed.

Lemma X6_frame_truncated_witness :
  ReadFrame [x03; x61] = Err ErrEOF \/ ReadFrame [x03; x61] = Err ErrUnexpectedEOF.
Proof.
  apply (X6_frame_truncated [x61; x62; x63] [x03; x61] [x62; x63]);
    [now vm_compute|reflexivity|discriminate].
Defined.

(** ** The decoder on malformed and unusual inputs *)

Lemma decodeAny_unknown_tag (pc : bool) (f : nat) (tag : byte) (rest : list byte) :
  17 < byteN tag -> decodeAny pc (S f) (tag :: rest) = Err (ErrUnknownTag tag).
Proof.
  intros H. destruct tag; try (vm_compute in H; discriminate H); reflexivity.
Qed.

Lemma readUvarint_one (l : list byte) : readUvarint (x01 :: l) = Ok (1, l).
Proof. reflexivity. Qed.

Lemma decodeAny_nested (pc : bool) (n : nat) :
  forall f rest,
    decodeAny pc f (nestedArrBytes n ++ rest)
    = if (n <? f)%nat then Ok (nestedArr n, rest) else Err ErrTooDeep.
Proof.
  induction n as [|n IH]; intros f rest.
  - destruct f as [|f]; reflexivity.
  - destruct f as [|f]; [reflexivity|].
    cbn [nestedArrBytes nestedArr app].
    rewrite decodeAny_arr, readUvarint_one. cbn [bind].
    change (maxInt <? 1) with false. cbv iota.
    change (N.to_nat 1) with 1%nat.
    rewrite decodeItems_S, IH.
    change (S n <? S f)%nat with (n <? f)%nat.
    destruct (n <? f)%nat; reflexivity.
Qed.

Lemma encodeAny_nested (pc : bool) (n : nat) :
  forall f,
    encodeAny pc f (nestedArr n)
    = if (n <? f)%nat then Ok (nestedArrBytes n) else Err ErrTooDeep.
Proof.
  induction n as [|n IH]; intros f.
  - destruct f as [|f]; reflexivity.
  - destruct f as [|f]; [reflexivity|].
    cbn [nestedArr nestedArrBytes].
    rewrite encodeAny_arr. cbn [encodeItems]. rewrite IH.
    change (S n <? S f)%nat with (n <? f)%nat.
    destruct (n <? f)%nat; [|reflexivity].
    cbn [bind]. rewrite app_nil_r. reflexivity.
Qed.

Lemma Veq_not_obj (v v' : Value) :
  Veq v v' -> (forall x, v <> VObj x) -> forall y, v' <> VObj y.
Proof.
  intros H Hv y ->. inversion H; subst; try discriminate.
  now apply (Hv x).
Qed.

Lemma readUvarint_writeString (k : string) (rest : list byte) :
  lenN (bytesOfString k) <= maxInt ->
  readUvarint (writeString k ++ rest)
  = Ok (lenN (bytesOfString k), bytesOfString k ++ rest).
Proof.
  intros H. unfold writeString, writeBytes.
  rewrite mod_u64_small by exact H.
  rewrite <- app_assoc. apply readUvarint_put. now apply maxInt_lt_u64.
Qed.

Lemma loopCount_succ (n : N) : n < maxInt -> loopCount (n + 1) = S (loopCount n).
Proof.
  intros Hn. unfold loopCount.
  replace (n + 1 <=? maxInt) with true by (symmetry; apply N.leb_le; lia).
  replace (n <=? maxInt) with true by (symmetry; apply N.leb_le; lia).
  lia.
Qed.

Lemma comment_key_short : lenN (bytesOfString "$comment") <= maxInt.
Proof. now vm_compute. Qed.

(** One iteration of the [tagObj] loop on a well-formed field. *)
Lemma decodeFields_field (pc : bool) (dec : list byte -> Res (Value * list byte))
    (n : nat) (obj : list (string * Value)) (k : string) (v : Value) (b rest : list byte) :
  lenN (bytesOfString k) <= maxInt ->
  dec (b ++ rest) = Ok (v, rest) ->
  decodeFields pc dec (S n) obj (writeString k ++ b ++ rest)
  = if isComment k && negb pc
    then decodeFields pc dec n obj rest
    else decodeFields pc dec n (mapSet k v obj) rest.
Proof.
  intros Hk Hd.
  rewrite decodeFields_S, readUvarint_writeString by exact Hk.
  cbn [bind]. rewrite readBytes_app by exact Hk.
  cbn [bind]. rewrite Hd. cbn [bind]. cbv zeta.
  now rewrite string_bytes_id.
Qed.

Lemma mapSet_same {V} (k : string) (v w : V) : mapSet k w [(k, v)] = [(k, w)].
Proof. cbn. now rewrite String.eqb_refl. Qed.

(** X7: a first byte above the last tag, 0x11, is rejected with
    [ErrUnknownTag] carrying that byte, whatever follows it. *)
Theorem X7_unknown_tag (pc : bool) (tag : byte) (rest : list byte) :
  17 < byteN tag ->
  DecodeBinaryWith pc (tag :: rest) = Err (ErrUnknownTag tag).
Proof.
  intros H. unfold DecodeBinaryWith.
  now rewrite decodeAny_unknown_tag.
Qed.

Lemma X7_unknown_tag_witness :
  DecodeBinary [x12; x00] = Err (ErrUnknownTag x12).
Proof.
  apply (X7_unknown_tag false x12 [x00]). reflexivity.
Defined.

(** X8: the depth guard of the decoder: [n] arrays nested around a Null
    decode when [n] is at most [MaxDepth] and fail with [ErrTooDeep] from
    [MaxDepth + 1] on. *)
Theorem X8_decode_depth_guard (pc : bool) (n : nat) :
  DecodeBinaryWith pc (nestedArrBytes n)
  = if (n <=? MaxDepth DefaultLimits)%nat then Ok (nestedArr n) else Err ErrTooDeep.
Proof.
  unfold DecodeBinaryWith.
  rewrite <- (app_nil_r (nestedArrBytes n)), decodeAny_nested.
  change (n <? S (MaxDepth DefaultLimits))%nat with (n <=? MaxDepth DefaultLimits)%nat.
  destruct (n <=? MaxDepth DefaultLimits)%nat; reflexivity.
Qed.

(** X9: the depth guard of the encoder is the same: [n] nested arrays
    encode when [n] is at most [MaxDepth] and fail with [ErrTooDeep] beyond. *)
Theorem X9_encode_depth_guard (pc : bool) (n : nat) :
  EncodeBinaryWith pc (nestedArr n)
  = if (n <=? MaxDepth DefaultLimits)%nat then Ok (nestedArrBytes n) else Err ErrTooDeep.
Proof.
  unfold EncodeBinaryWith. rewrite encodeAny_nested.
  reflexivity.
Qed.

(** X10: an Env whose first component is the encoding of anything but an
    Obj is rejected with [ErrBadEnvelope]. *)
Theorem X10_envelope_meta_not_obj (pc : bool) (v : Value) (mb rest : list byte) :
  InModel pc v ->
  (forall x, v <> VObj x) ->
  encodeAny pc (MaxDepth DefaultLimits) v = Ok mb ->
  lenN mb <= maxInt ->
  DecodeBinaryWith pc (tagEnv :: mb ++ rest) = Err ErrBadEnvelope.
Proof.
  intros Hin Hobj Henc Hlen.
  destruct (roundtrip_fuel pc (MaxDepth DefaultLimits) (MaxDepth DefaultLimits)
              (Nat.le_refl _) v mb Hin Henc Hlen) as [v' [Hv Hd]].
  unfold DecodeBinaryWith.
  rewrite decodeAny_env, Hd. cbn [bind].
  pose proof (Veq_not_obj v v' Hv Hobj) as N.
  destruct v'; try reflexivity.
  now destruct (N x).
Qed.

Lemma X10_envelope_meta_not_obj_witness :
  DecodeBinary [tagEnv; tagArr; x00; tagNull] = Err ErrBadEnvelope.
Proof.
  apply (X10_envelope_meta_not_obj false (VArr []) [tagArr; x00] [tagNull]);
    [reflexivity|discriminate|now vm_compute|now vm_compute].
Defined.

(** X11: the decoder accepts every sign byte and every magnitude of an
    Int: only the sign byte 0x01 means minus, and the magnitude is read as
    a big-endian number, leading zero bytes included. *)
Theorem X11_int_decode_lenient (pc : bool) (sign : byte) (mag rest : list byte) :
  lenN mag < maxInt ->
  decodeAny pc (S (MaxDepth DefaultLimits))
    (tagInt :: putUvarint (lenN mag + 1) ++ sign :: mag ++ rest)
  = Ok (VInt (if Byte.eqb sign x01 then (- Z.of_N (setBytes mag))%Z
              else Z.of_N (setBytes mag)), rest).
Proof.
  intros H.
  rewrite decodeAny_int, readUvarint_put by (apply maxInt_lt_u64; lia).
  cbn [bind].
  replace (lenN mag + 1 =? 0) with false by (symmetry; apply N.eqb_neq; lia).
  cbn [readByteIgnoringError].
  rewrite N.add_sub, readBytes_app by lia.
  reflexivity.
Qed.

Lemma X11_int_decode_lenient_witness :
  decodeAny false (S (MaxDepth DefaultLimits))
    (tagInt :: putUvarint (lenN [x00; x05] + 1) ++ x07 :: [x00; x05] ++ [])
  = Ok (VInt 5, []).
Proof.
  apply (X11_int_decode_lenient false x07 [x00; x05] []). now vm_compute.
Defined.

(** X12: with [PreserveComments] off, an Obj whose first field on the wire is
    [$comment] decodes exactly as the Obj without that field, errors
    included; the value of the comment must still be a well-formed encoding,
    it is decoded and dropped. *)
Theorem X12_decode_drops_comment (cv : Value) (cb : list byte) (n : N) (rest : list byte) :
  InModel false cv ->
  encodeAny false (MaxDepth DefaultLimits) cv = Ok cb ->
  lenN cb <= maxInt ->
  n < maxInt ->
  DecodeBinary (tagObj :: putUvarint (n + 1) ++ writeString "$comment" ++ cb ++ rest)
  = DecodeBinary (tagObj :: putUvarint n ++ rest).
Proof.
  intros Hin Henc Hlen Hn.
  destruct (roundtrip_fuel false (MaxDepth DefaultLimits) (MaxDepth DefaultLimits)
              (Nat.le_refl _) cv cb Hin Henc Hlen) as [cv' [_ Hd]].
  unfold DecodeBinary, DecodeBinaryWith, PreserveCommentsDefault.
  rewrite !decodeAny_obj, !readUvarint_put by (apply maxInt_lt_u64; lia).
  cbn [bind].
  rewrite (loopCount_succ n Hn).
  rewrite (decodeFields_field false _ _ _ "$comment" cv' cb rest comment_key_short (Hd rest)).
  change (isComment "$comment" && negb false) with true. cbv iota.
  reflexivity.
Qed.

Lemma X12_decode_drops_comment_witness :
  DecodeBinary (tagObj :: putUvarint (1 + 1) ++ writeString "$comment" ++ [tagStr; x01; x78]
                  ++ (writeString "a" ++ [tagT]))
  = DecodeBinary (tagObj :: putUvarint 1 ++ (writeString "a" ++ [tagT])).
Proof.
  apply (X12_decode_drops_comment (VStr "x") [tagStr; x01; x78] 1 (writeString "a" ++ [tagT]));
    [reflexivity|reflexivity|now vm_compute|now vm_compute].
Defined.

(** X13: a key that occurs twice in an Obj on the wire gives one entry,
    holding the value of the later field. *)
Theorem X13_duplicate_key_last_wins (pc : bool) (k : string) (v1 v2 : Value)
    (b1 b2 rest : list byte) :
  isComment k && negb pc = false ->
  lenN (bytesOfString k) <= maxInt ->
  InModel pc v1 -> InModel pc v2 ->
  encodeAny pc (MaxDepth DefaultLimits) v1 = Ok b1 ->
  encodeAny pc (MaxDepth DefaultLimits) v2 = Ok b2 ->
  lenN b1 <= maxInt -> lenN b2 <= maxInt ->
  exists v2',
    Veq v2 v2'
    /\ decodeAny pc (S (MaxDepth DefaultLimits))
         (tagObj :: putUvarint 2 ++ writeString k ++ b1 ++ writeString k ++ b2 ++ rest)
       = Ok (VObj [(k, v2')], rest).
Proof.
  intros Hc Hk Hin1 Hin2 He1 He2 Hl1 Hl2.
  destruct (roundtrip_fuel pc _ _ (Nat.le_refl _) v1 b1 Hin1 He1 Hl1) as [v1' [_ Hd1]].
  destruct (roundtrip_fuel pc _ _ (Nat.le_refl _) v2 b2 Hin2 He2 Hl2) as [v2' [Hv2 Hd2]].
  exists v2'. split; [exact Hv2|].
  rewrite decodeAny_obj, readUvarint_put by reflexivity.
  cbn [bind]. change (loopCount 2) with 2%nat.
  rewrite (decodeFields_field pc _ _ _ k v1' b1 _ Hk (Hd1 _)).
  rewrite Hc.
  rewrite (decodeFields_field pc _ _ _ k v2' b2 _ Hk (Hd2 _)).
  rewrite Hc. cbn [mapSet]. rewrite String.eqb_refl. reflexivity.
Qed.

Lemma X13_duplicate_key_last_wins_witness :
  exists v2',
    Veq (VBool true) v2'
    /\ decodeAny false (S (MaxDepth DefaultLimits))
         (tagObj :: putUvarint 2 ++ writeString "a" ++ [tagF] ++ writeString "a" ++ [tagT] ++ [])
       = Ok (VObj [("a"%string, v2')], []).
Proof.
  apply (X13_duplicate_key_last_wins false "a" (VBool false) (VBool true) [tagF] [tagT] []);
    try reflexivity; now vm_compute.
Defined.

(** ** The encoder: its errors and the depth at which a value is written *)

Section EncodeLoopErrors.
Variable enc : Value -> Res (list byte).
Hypothesis only : forall v e, enc v = Err e -> e = ErrTooDeep.

Lemma encodeItems_err (x : list Value) :
  forall e, encodeItems enc x = Err e -> e = ErrTooDeep.
Proof.
  induction x as [|it x IH]; cbn [encodeItems]; intros e H; [discriminate H|].
  destruct (enc it) eqn:E; cbn [bind] in H.
  - destruct (encodeItems enc x); cbn [bind] in H; [discriminate H|].
    injection H as <-. now apply IH.
  - injection H as <-. now apply (only it).
Qed.

Lemma encodeFields_err (obj : list (string * Value)) (ks : list string) :
  forall e, encodeFields enc obj ks = Err e -> e = ErrTooDeep.
Proof.
  induction ks as [|k ks IH]; cbn [encodeFields]; intros e H; [discriminate H|].
  destruct (enc (mapIndex k obj)) eqn:E; cbn [bind] in H.
  - destruct (encodeFields enc obj ks); cbn [bind] in H; [discriminate H|].
    injection H as <-. now apply IH.
  - injection H as <-. now apply (only (mapIndex k obj)).
Qed.

Lemma encodeEach_err (x : list Value) :
  forall e, encodeEach enc x = Err e -> e = ErrTooDeep.
Proof.
  induction x as [|it x IH]; cbn [encodeEach]; intros e H; [discriminate H|].
  destruct (enc it) eqn:E; cbn [bind] in H.
  - destruct (encodeEach enc x); cbn [bind] in H; [discriminate H|].
    injection H as <-. now apply IH.
  - injection H as <-. now apply (only it).
Qed.

Lemma encodePairs_err (x : list (Value * Value)) :
  forall e, encodePairs enc x = Err e -> e = ErrTooDeep.
Proof.
  induction x as [|[k v] x IH]; cbn [encodePairs]; intros e H; [discriminate H|].
  destruct (enc k) eqn:Ek; cbn [bind] in H.
  - destruct (enc v) eqn:Ev; cbn [bind] in H.
    + destruct (encodePairs enc x); cbn [bind] in H; [discriminate H|].
      injection H as <-. now apply IH.
    + injection H as <-. now apply (only v).
  - injection H as <-. now apply (only k).
Qed.
End EncodeLoopErrors.

Lemma encodeAny_err (pc : bool) (f : nat) :
  forall v e, encodeAny pc f v = Err e -> e = ErrTooDeep.
Proof.
  induction f as [|f IH]; intros v e H.
  - cbn [encodeAny] in H. now injection H as <-.
  - destruct v.
    1-12: cbn [encodeAny] in H; try discriminate H.
    + destruct x; discriminate H.
    + rewrite encodeAny_arr in H.
      destruct (encodeItems (encodeAny pc f) x) eqn:E; cbn [bind] in H; [discriminate H|].
      injection H as <-. now apply (encodeItems_err _ IH x).
    + rewrite encodeAny_obj in H.
      destruct (encodeFields _ _ _) eqn:E; cbn [bind] in H; [discriminate H|].
      injection H as <-. now apply (encodeFields_err _ IH _ _ _ E).
    + rewrite encodeAny_setv in H.
      destruct (encodeEach (encodeAny pc f) x) eqn:E; cbn [bind] in H; [discriminate H|].
      injection H as <-. now apply (encodeEach_err _ IH x).
    + rewrite encodeAny_mapv in H.
      destruct (encodePairs (encodeAny pc f) x) eqn:E; cbn [bind] in H; [discriminate H|].
      injection H as <-. now apply (encodePairs_err _ IH x).
    + rewrite encodeAny_env in H.
      destruct (encodeAny pc f (VObj (metaMap meta))) eqn:E; cbn [bind] in H.
      * destruct (encodeAny pc f v) eqn:E2; cbn [bind] in H; [discriminate H|].
        injection H as <-. now apply (IH v).
      * injection H as <-. now apply (IH _ _ E).
    + rewrite encodeAny_strings in H. now apply (IH _ _ H).
Qed.

Section EncodeLoopMono.
Variables enc enc' : Value -> Res (list byte).
Hypothesis mono : forall v b, enc v = Ok b -> enc' v = Ok b.

Lemma encodeItems_mono (x : list Value) :
  forall b, encodeItems enc x = Ok b -> encodeItems enc' x = Ok b.
Proof.
  induction x as [|it x IH]; cbn [encodeItems]; intros b H; [exact H|].
  destruct (enc it) eqn:E; cbn [bind] in H; [|discriminate H].
  rewrite (mono _ _ E). cbn [bind].
  destruct (encodeItems enc x); cbn [bind] in H; [|discriminate H].
  now rewrite (IH _ eq_refl).
Qed.

Lemma encodeFields_mono (obj : list (string * Value)) (ks : list string) :
  forall b, encodeFields enc obj ks = Ok b -> encodeFields enc' obj ks = Ok b.
Proof.
  induction ks as [|k ks IH]; cbn [encodeFields]; intros b H; [exact H|].
  destruct (enc (mapIndex k obj)) eqn:E; cbn [bind] in H; [|discriminate H].
  rewrite (mono _ _ E). cbn [bind].
  destruct (encodeFields enc obj ks); cbn [bind] in H; [|discriminate H].
  now rewrite (IH _ eq_refl).
Qed.

Lemma encodeEach_mono (x : list Value) :
  forall b, encodeEach enc x = Ok b -> encodeEach enc' x = Ok b.
Proof.
  induction x as [|it x IH]; cbn [encodeEach]; intros b H; [exact H|].
  destruct (enc it) eqn:E; cbn [bind] in H; [|discriminate H].
  rewrite (mono _ _ E). cbn [bind].
  destruct (encodeEach enc x); cbn [bind] in H; [|discriminate H].
  now rewrite (IH _ eq_refl).
Qed.

Lemma encodePairs_mono (x : list (Value * Value)) :
  forall b, encodePairs enc x = Ok b -> encodePairs enc' x = Ok b.
Proof.
  induction x as [|[k v] x IH]; cbn [encodePairs]; intros b H; [exact H|].
  destruct (enc k) eqn:Ek; cbn [bind] in H; [|discriminate H].
  destruct (enc v) eqn:Ev; cbn [bind] in H; [|discriminate H].
  rewrite (mono _ _ Ek), (mono _ _ Ev). cbn [bind].
  destruct (encodePairs enc x); cbn [bind] in H; [|discriminate H].
  now rewrite (IH _ eq_refl).
Qed.
End EncodeLoopMono.

Lemma encodeAny_S (pc : bool) (f : nat) :
  forall v b, encodeAny pc f v = Ok b -> encodeAny pc (S f) v = Ok b.
Proof.
  induction f as [|f IH]; intros v b H; [discriminate H|].
  destruct v.
  1-12: exact H.
  - rewrite encodeAny_arr in *.
    destruct (encodeItems (encodeAny pc f) x) eqn:E; cbn [bind] in H; [|discriminate H].
    now rewrite (encodeItems_mono _ _ IH _ _ E).
  - rewrite encodeAny_obj in *.
    destruct (encodeFields (encodeAny pc f) _ _) eqn:E; cbn [bind] in H; [|discriminate H].
    now rewrite (encodeFields_mono _ _ IH _ _ _ E).
  - rewrite encodeAny_setv in *.
    destruct (encodeEach (encodeAny pc f) x) eqn:E; cbn [bind] in H; [|discriminate H].
    now rewrite (encodeEach_mono _ _ IH _ _ E).
  - rewrite encodeAny_mapv in *.
    destruct (encodePairs (encodeAny pc f) x) eqn:E; cbn [bind] in H; [|discriminate H].
    now rewrite (encodePairs_mono _ _ IH _ _ E).
  - rewrite encodeAny_env in *.
    destruct (encodeAny pc f (VObj (metaMap meta))) eqn:E; cbn [bind] in H; [|discriminate H].
    destruct (encodeAny pc f v) eqn:E2; cbn [bind] in H; [|discriminate H].
    now rewrite (IH _ _ E), (IH _ _ E2).
  - rewrite encodeAny_strings in *. now apply IH.
Qed.

Lemma encodeAny_le (pc : bool) (f f' : nat) (v : Value) (b : list byte) :
  (f <= f')%nat -> encodeAny pc f v = Ok b -> encodeAny pc f' v = Ok b.
Proof.
  intros Hle H. induction Hle as [|f' _ IH]; [exact H|].
  now apply encodeAny_S.
Qed.

(** X14: on the JOLT value types (the native Go numbers and the types of
    the [default] branch aside) the only error of the encoder is
    [ErrTooDeep]. *)
Theorem X14_encode_fails_only_too_deep (pc : bool) (v : Value) (e : Error) :
  EncodeBinaryWith pc v = Err e -> e = ErrTooDeep.
Proof. apply encodeAny_err. Qed.

Lemma X14_encode_fails_only_too_deep_witness :
  EncodeBinaryWith false (nestedArr 1025) = Err ErrTooDeep /\ ErrTooDeep = ErrTooDeep.
Proof.
  assert (H : EncodeBinaryWith false (nestedArr 1025) = Err ErrTooDeep) by now vm_compute.
  split; [exact H|].
  exact (X14_encode_fails_only_too_deep false (nestedArr 1025) ErrTooDeep H).
Defined.

(** X15: the bytes of a value do not depend on the depth at which it is
    written: a value that encodes with some depth left encodes to the same
    bytes with more depth left, in particular at the top level. *)
Theorem X15_encode_depth_independent (pc : bool) (f : nat) (v : Value) (b : list byte) :
  (f <= S (MaxDepth DefaultLimits))%nat ->
  encodeAny pc f v = Ok b ->
  EncodeBinaryWith pc v = Ok b.
Proof. intros Hle H. unfold EncodeBinaryWith. now apply (encodeAny_le pc f). Qed.

Lemma X15_encode_depth_independent_witness :
  EncodeBinaryWith false (VArr [VInt 1]) = Ok [tagArr; x01; tagInt; x02; x00; x01].
Proof.
  apply (X15_encode_depth_independent false 2 (VArr [VInt 1])).
  - cbn. lia.
  - reflexivity.
Defined.

(** X16: the encoding of an array is compositional: it is the tag, the
    count and the concatenation of what [EncodeBinary] gives for each
    element on its own. *)
Theorem X16_array_encoding_compositional (pc : bool) (x : list Value) (b : list byte) :
  EncodeBinaryWith pc (VArr x) = Ok b ->
  exists bl,
    Forall2 (fun v bv => EncodeBinaryWith pc v = Ok bv) x bl
    /\ b = tagArr :: putUvarint (lenN x mod 2 ^ 64) ++ List.concat bl.
Proof.
  unfold EncodeBinaryWith. rewrite encodeAny_arr, encodeItems_each.
  intros H.
  destruct (encodeEach _ x) as [bl|] eqn:E; cbn [bind] in H; [|discriminate H].
  injection H as <-. exists bl. split; [|reflexivity].
  apply encodeEach_Forall2 in E.
  induction E as [|v bv x bl Hv _ IH]; constructor; [|exact IH].
  now apply encodeAny_S.
Qed.

Lemma X16_array_encoding_compositional_witness :
  exists bl,
    Forall2 (fun v bv => EncodeBinaryWith false v = Ok bv) [VNull; VBool true] bl
    /\ [tagArr; x02; tagNull; tagT]
       = tagArr :: putUvarint (lenN [VNull; VBool true] mod 2 ^ 64) ++ List.concat bl.
Proof.
  apply (X16_array_encoding_compositional false [VNull; VBool true]). now vm_compute.
Defined.

(** ** The encoder: canonical order of sets and maps *)

Section EncodePerm.
Variable enc : Value -> Res (list byte).
Hypothesis only : forall v e, enc v = Err e -> e = ErrTooDeep.

Lemma encodeEach_perm (x y : list Value) :
  Permutation x y ->
  match encodeEach enc x, encodeEach enc y with
  | Ok a, Ok b => Permutation a b
  | Err e, Err e' => e = e'
  | _, _ => False
  end.
Proof.
  intros P. induction P as [|v l l' P IH|v w l|l l' l'' P1 IH1 P2 IH2].
  - cbn. constructor.
  - cbn [encodeEach]. destruct (enc v); cbn [bind]; [|reflexivity].
    destruct (encodeEach enc l), (encodeEach enc l'); cbn [bind]; try contradiction.
    + now constructor.
    + exact IH.
  - cbn [encodeEach].
    destruct (enc v) eqn:Ev, (enc w) eqn:Ew; cbn [bind]; try reflexivity.
    + destruct (encodeEach enc l); cbn [bind]; [apply perm_swap|reflexivity].
    + apply only in Ev. apply only in Ew. congruence.
  - destruct (encodeEach enc l), (encodeEach enc l'), (encodeEach enc l'');
      try contradiction.
    + eapply perm_trans; eassumption.
    + congruence.
Qed.

Lemma encodePairs_perm (x y : list (Value * Value)) :
  Permutation x y ->
  match encodePairs enc x, encodePairs enc y with
  | Ok a, Ok b => Permutation a b
  | Err e, Err e' => e = e'
  | _, _ => False
  end.
Proof.
  assert (One : forall kv, match (kb <- enc (fst kv) ;; vb <- enc (snd kv) ;; Ok (kb, vb)) with
                           | Ok _ => True
                           | Err e => e = ErrTooDeep
                           end).
  { intros [k v]. cbn [fst snd]. destruct (enc k) eqn:Ek; cbn [bind].
    - destruct (enc v) eqn:Ev; cbn [bind]; [exact I|now apply (only v)].
    - now apply (only k). }
  assert (Step : forall kv l,
             encodePairs enc (kv :: l)
             = (p <- (kb <- enc (fst kv) ;; vb <- enc (snd kv) ;; Ok (kb, vb)) ;;
                kvs <- encodePairs enc l ;; Ok (p :: kvs))).
  { intros [k v] l. cbn [encodePairs fst snd].
    destruct (enc k); cbn [bind]; [|reflexivity].
    destruct (enc v); reflexivity. }
  intros P. induction P as [|v l l' P IH|v w l|l l' l'' P1 IH1 P2 IH2].
  - cbn. constructor.
  - rewrite !Step. destruct (_ <- enc (fst v) ;; _); cbn [bind]; [|reflexivity].
    destruct (encodePairs enc l), (encodePairs enc l'); cbn [bind]; try contradiction.
    + now constructor.
    + exact IH.
  - rewrite !Step. pose proof (One v) as Ov. pose proof (One w) as Ow.
    destruct (_ <- enc (fst v) ;; _), (_ <- enc (fst w) ;; _); cbn [bind]; try reflexivity.
    + destruct (encodePairs enc l); cbn [bind]; [apply perm_swap|reflexivity].
    + congruence.
  - destruct (encodePairs enc l), (encodePairs enc l'), (encodePairs enc l'');
      try contradiction.
    + eapply perm_trans; eassumption.
    + congruence.
Qed.
End EncodePerm.

(** A list sorted for a preorder that is antisymmetric on its elements is
    the only sorted arrangement of these elements, so every sorting
    algorithm, stable or not, returns it. *)
Section SortedUnique.
Context {A : Type}.
Variable less : A -> A -> bool.
Hypothesis le_trans :
  forall a b c, less b a = false -> less c b = false -> less c a = false.

Lemma sorted_perm_unique (l1 : list A) :
  forall l2,
    (forall a b, In a l1 -> In b l1 -> less a b = false -> less b a = false -> a = b) ->
    Permutation l1 l2 ->
    Sorted (fun a b => less b a = false) l1 ->
    Sorted (fun a b => less b a = false) l2 ->
    l1 = l2.
Proof.
  assert (Tr : Relations_1.Transitive (fun a b : A => less b a = false)).
  { intros a b c Hab Hbc. now apply (le_trans a b c). }
  induction l1 as [|a l1 IH]; intros l2 Anti P S1 S2.
  - now apply Permutation_nil in P.
  - destruct l2 as [|b l2]; [apply Permutation_sym, Permutation_nil in P; discriminate P|].
    assert (Eab : a = b).
    { apply Sorted_StronglySorted in S1; [|exact Tr].
      apply Sorted_StronglySorted in S2; [|exact Tr].
      apply StronglySorted_inv in S1. destruct S1 as [_ F1].
      apply StronglySorted_inv in S2. destruct S2 as [_ F2].
      rewrite Forall_forall in F1, F2.
      assert (Ib : In b (a :: l1))
        by (apply (Permutation_in b (Permutation_sym P)); now left).
      assert (Ia : In a (b :: l2)) by (apply (Permutation_in a P); now left).
      destruct Ib as [E|Ib]; [exact E|].
      destruct Ia as [E|Ia]; [now symmetry|].
      apply Anti; [now left|now right| |].
      - now apply F2.
      - now apply F1. }
    subst b. f_equal.
    apply IH.
    + intros x y Hx Hy. apply Anti; now right.
    + now apply Permutation_cons_inv in P.
    + now apply Sorted_inv in S1.
    + now apply Sorted_inv in S2.
Qed.
End SortedUnique.

Lemma bytesLe_trans (a b c : list byte) :
  bytesLess b a = false -> bytesLess c b = false -> bytesLess c a = false.
Proof.
  intros Hab Hbc.
  destruct (bytesLess c a) eqn:Hca; [|reflexivity].
  destruct (bytesLess a b) eqn:Hab'.
  - rewrite (bytesLess_trans c a b Hca Hab') in Hbc. discriminate Hbc.
  - rewrite (bytesLess_total a b Hab' Hab) in Hca. congruence.
Qed.

Lemma NoDup_fst_inj {K V} (l : list (K * V)) :
  NoDup (map fst l) ->
  forall p q, In p l -> In q l -> fst p = fst q -> p = q.
Proof.
  induction l as [|r l IH]; intros ND p q Hp Hq E; [destruct Hp|].
  cbn [map] in ND. apply NoDup_cons_iff in ND. destruct ND as [Nin ND].
  destruct Hp as [->|Hp], Hq as [->|Hq].
  - reflexivity.
  - exfalso. apply Nin. rewrite E. now apply in_map.
  - exfalso. apply Nin. rewrite <- E. now apply in_map.
  - now apply IH.
Qed.

Lemma lenN_pairsBytes_in (p : list byte * list byte) (l : list (list byte * list byte)) :
  In p l -> lenN (fst p) <= lenN (pairsBytes l).
Proof.
  induction l as [|q l IH]; intros H; [destruct H|].
  unfold pairsBytes in *. cbn [map List.concat]. rewrite !lenN_app.
  destruct H as [->|H]; [lia|].
  specialize (IH H). lia.
Qed.

Lemma Forall2_in_r {A B} (R : A -> B -> Prop) (x : list A) (y : list B) (b : B) :
  Forall2 R x y -> In b y -> exists a, In a x /\ R a b.
Proof.
  intros F. induction F as [|a0 b0 x y H _ IH]; intros Hb; [destruct Hb|].
  destruct Hb as [->|Hb].
  - exists a0. split; [now left|exact H].
  - destruct (IH Hb) as [a [Ha Hr]]. exists a. split; [now right|exact Hr].
Qed.

(** Distinct keys of the data model have distinct encodings. *)
Lemma key_encodings_distinct (pc : bool) (f : nat) (x : list (Value * Value))
    (kvs : list (list byte * list byte)) :
  Forall2 (fun kv p => encodeAny pc f (fst kv) = Ok (fst p)
                       /\ encodeAny pc f (snd kv) = Ok (snd p)) x kvs ->
  Forall (fun kv => hashable (fst kv) = true /\ InModel pc (fst kv)) x ->
  NoDup (map fst x) ->
  Forall (fun p => lenN (fst p) <= maxInt) kvs ->
  NoDup (map fst kvs).
Proof.
  intros F. induction F as [|kv p x kvs [Hk _] F IH]; intros Hx ND Hl; [constructor|].
  cbn [map] in *. apply NoDup_cons_iff in ND. destruct ND as [Nin ND].
  apply Forall_cons_iff in Hx. destruct Hx as [[Hh Hm] Hx].
  apply Forall_cons_iff in Hl. destruct Hl as [Hp Hl].
  constructor; [|now apply IH].
  intros Hin. apply in_map_iff in Hin. destruct Hin as [q [Eq Hq]].
  destruct (Forall2_in_r _ _ _ _ F Hq) as [kv' [Hkv' [Hk' _]]].
  rewrite Forall_forall in Hx. destruct (Hx _ Hkv') as [Hh' Hm'].
  rewrite Eq in Hk'.
  destruct (roundtrip_fuel pc f f (Nat.le_refl _) _ _ Hm Hk Hp) as [u [Vu Du]].
  destruct (roundtrip_fuel pc f f (Nat.le_refl _) _ _ Hm' Hk' Hp) as [u' [Vu' Du']].
  apply Veq_atom_eq in Vu; [|now apply hashable_isAtom].
  apply Veq_atom_eq in Vu'; [|now apply hashable_isAtom].
  specialize (Du []). specialize (Du' []). rewrite Du in Du'.
  injection Du' as E. subst u u'.
  apply Nin. rewrite E. now apply in_map.
Qed.

(** X17: the encoding of a Set does not depend on the order of its
    elements. *)
Theorem X17_set_order_irrelevant (pc : bool) (x y : list Value) :
  Permutation x y ->
  EncodeBinaryWith pc (VSet x) = EncodeBinaryWith pc (VSet y).
Proof.
  intros P. unfold EncodeBinaryWith. rewrite !encodeAny_setv.
  pose proof (encodeEach_perm _ (encodeAny_err pc (MaxDepth DefaultLimits)) x y P) as H.
  destruct (encodeEach _ x) as [a|e], (encodeEach _ y) as [b|e']; try contradiction;
    cbn [bind].
  - now rewrite (sortBy_canonical bytesLess bytesLess_asym bytesLess_trans bytesLess_total a b H).
  - now subst e'.
Qed.

Lemma X17_set_order_irrelevant_witness :
  EncodeBinaryWith false (VSet [VInt 2; VStr "a"; VInt 1])
  = EncodeBinaryWith false (VSet [VStr "a"; VInt 1; VInt 2]).
Proof.
  apply (X17_set_order_irrelevant false).
  apply perm_trans with [VStr "a"; VInt 2; VInt 1].
  - apply perm_swap.
  - apply perm_skip, perm_swap.
Defined.

(** X18: the encoding of a Map of the data model does not depend on the
    order of its entries: the encoded keys are distinct, so the entries have
    one sorted arrangement. *)
Theorem X18_map_order_irrelevant (pc : bool) (x y : list (Value * Value)) (b : list byte) :
  InModel pc (VMap x) ->
  Permutation x y ->
  EncodeBinaryWith pc (VMap x) = Ok b ->
  lenN b <= maxInt ->
  EncodeBinaryWith pc (VMap y) = Ok b.
Proof.
  intros Hin P Hb Hlen. unfold EncodeBinaryWith in *. rewrite encodeAny_mapv in *.
  pose proof (encodePairs_perm _ (encodeAny_err pc (MaxDepth DefaultLimits)) x y P) as H.
  destruct (encodePairs _ x) as [kvs|] eqn:Ex; cbn [bind] in Hb; [|discriminate Hb].
  destruct (encodePairs _ y) as [kvs'|]; [|contradiction].
  cbn [bind]. injection Hb as <-.
  set (less := fun p q : list byte * list byte => bytesLess (fst p) (fst q)) in *.
  assert (Hx : Forall (fun kv => hashable (fst kv) = true /\ InModel pc (fst kv)) x
               /\ NoDup (map fst x)).
  { unfold InModel in Hin. cbn [inModel] in Hin.
    apply andb_true_iff in Hin. destruct Hin as [Hd Hf].
    apply forallb_Forall in Hf.
    assert (Hk : Forall (fun kv => hashable (fst kv) = true /\ InModel pc (fst kv)) x).
    { eapply Forall_impl; [|exact Hf]. intros kv Hkv. cbv beta in Hkv.
      apply andb_true_iff in Hkv. destruct Hkv as [Hkv _].
      apply andb_true_iff in Hkv. exact Hkv. }
    split; [exact Hk|].
    apply distinctKeys_NoDup; [|exact Hd].
    apply Forall_map. eapply Forall_impl; [|exact Hk]. now intros kv [Hh _]. }
  destruct Hx as [Hk NDx].
  assert (Hl : Forall (fun p => lenN (fst p) <= maxInt) kvs).
  { apply Forall_forall. intros p Hp.
    assert (Hp' : In p (sortBy less kvs))
      by (apply (Permutation_in p (Permutation_sym (sortBy_perm less kvs))); exact Hp).
    pose proof (lenN_pairsBytes_in p _ Hp') as L1.
    rewrite lenN_cons, lenN_app in Hlen. lia. }
  pose proof (key_encodings_distinct pc _ x kvs (encodePairs_inv _ _ _ Ex) Hk NDx Hl) as ND.
  assert (E : sortBy less kvs = sortBy less kvs').
  { apply (sorted_perm_unique less).
    - intros p q r. unfold less. apply bytesLe_trans.
    - intros p q Hp Hq H1 H2.
      apply (NoDup_fst_inj kvs ND).
      + apply (Permutation_in p (sortBy_perm less kvs)); exact Hp.
      + apply (Permutation_in q (sortBy_perm less kvs)); exact Hq.
      + unfold less in H1, H2. now apply bytesLess_total.
    - apply perm_trans with kvs; [apply sortBy_perm|].
      apply perm_trans with kvs'; [exact H|apply Permutation_sym, sortBy_perm].
    - apply sortBy_sorted. intros p q. unfold less. apply bytesLess_asym.
    - apply sortBy_sorted. intros p q. unfold less. apply bytesLess_asym. }
  now rewrite E.
Qed.

Lemma X18_map_order_irrelevant_witness :
  EncodeBinaryWith false (VMap [(VStr "a", VInt 1); (VInt 7, VNull)])
  = Ok [tagMap; x02; tagInt; x02; x00; x07; tagNull; tagStr; x01; x61; tagInt; x02; x00; x01].
Proof.
  apply (X18_map_order_irrelevant false [(VInt 7, VNull); (VStr "a", VInt 1)]).
  - reflexivity.
  - apply perm_swap.
  - now vm_compute.
  - now vm_compute.
Defined.

(** X19: two values of the data model with the same encoding are
    structurally equal to one and the same decoded value; two values
    without components with the same encoding are the same value. *)
Theorem X19_encoding_injective (pc : bool) (v1 v2 : Value) (b : list byte) :
  InModel pc v1 -> InModel pc v2 ->
  EncodeBinaryWith pc v1 = Ok b ->
  EncodeBinaryWith pc v2 = Ok b ->
  lenN b <= maxInt ->
  (exists v', Veq v1 v' /\ Veq v2 v' /\ DecodeBinaryWith pc b = Ok v')
  /\ (isAtom v1 = true -> isAtom v2 = true -> v1 = v2).
Proof.
  intros H1 H2 E1 E2 Hlen.
  destruct (roundtrip_fuel pc _ _ (Nat.le_refl _) v1 b H1 E1 Hlen) as [u1 [V1 D1]].
  destruct (roundtrip_fuel pc _ _ (Nat.le_refl _) v2 b H2 E2 Hlen) as [u2 [V2 D2]].
  specialize (D1 []). specialize (D2 []). rewrite D1 in D2. injection D2 as <-.
  split.
  - exists u1. split; [exact V1|]. split; [exact V2|].
    unfold DecodeBinaryWith. rewrite app_nil_r in D1. now rewrite D1.
  - intros A1 A2. apply Veq_atom_eq in V1; [|exact A1].
    apply Veq_atom_eq in V2; [|exact A2]. congruence.
Qed.

Lemma X19_encoding_injective_witness :
  exists v', Veq (VSet [VInt 1; VInt 2]) v' /\ Veq (VSet [VInt 2; VInt 1]) v'
             /\ DecodeBinaryWith false [tagSet; x02; tagInt; x02; x00; x01; tagInt; x02; x00; x02]
                = Ok v'.
Proof.
  apply (X19_encoding_injective false (VSet [VInt 1; VInt 2]) (VSet [VInt 2; VInt 1]));
    try reflexivity; now vm_compute.
Defined.

(** ** The comment stripper: what it removes *)

Lemma stripStep_length (state : StripState) (c : byte) :
  (List.length (snd (stripStep state c)) + List.length (pending (fst (stripStep state c)))
   <= List.length (pending state) + 1)%nat.
Proof.
  destruct state; cbn [stripStep];
    repeat match goal with
           | |- context [if ?b then _ else _] => destruct b
           end; cbn; lia.
Qed.

Lemma stripLoop_length (input : list byte) :
  forall state out,
    (List.length (snd (stripLoop state out input))
     + List.length (pending (fst (stripLoop state out input)))
     <= List.length out + List.length (pending state) + List.length input)%nat.
Proof.
  induction input as [|c input IH]; intros state out; cbn [stripLoop].
  - cbn. lia.
  - pose proof (stripStep_length state c) as S.
    destruct (stripStep state c) as [state' added]. cbn [fst snd] in S.
    specialize (IH state' (out ++ added)). rewrite length_app in IH.
    cbn [List.length]. lia.
Qed.

Lemma stateAfter_app (a b : list byte) :
  stateAfter (a ++ b) = fst (stripLoop (stateAfter a) [] b).
Proof.
  unfold stateAfter. rewrite stripLoop_app.
  now rewrite (stripLoop_out b (fst (stripLoop sNorm [] a))).
Qed.

Lemma commentFree_app (a : list byte) :
  forall state b,
    commentFree state a = true ->
    commentFree state (a ++ b) = commentFree (fst (stripLoop state [] a)) b.
Proof.
  induction a as [|c a IH]; intros state b H; [reflexivity|].
  cbn [app commentFree stripLoop] in *.
  destruct (stripStep state c) as [state' added]. cbn [fst] in *.
  rewrite (stripLoop_out a state').
  cbn [fst].
  destruct state'; try discriminate H; now apply IH.
Qed.

(** What one step appends is read back by the stripper without entering a
    comment and leads it to the settled form of the state reached. *)
Lemma stripStep_settled (state : StripState) (c : byte) :
  commentFree (settled state) (snd (stripStep state c)) = true
  /\ fst (stripLoop (settled state) [] (snd (stripStep state c)))
     = settled (fst (stripStep state c)).
Proof.
  destruct state; cbn [stripStep settled].
  - destruct (Byte.eqb c chQuote) eqn:Q; cbn [fst snd commentFree stripLoop stripStep].
    + rewrite Q. cbn. now split.
    + destruct (Byte.eqb c chSlash) eqn:S; cbn [fst snd commentFree stripLoop stripStep].
      * now split.
      * rewrite Q, S. cbn. now split.
  - destruct (Byte.eqb c chBackslash) eqn:B; cbn [fst snd commentFree stripLoop stripStep].
    + rewrite B. cbn. now split.
    + destruct (Byte.eqb c chQuote) eqn:Q; cbn [fst snd commentFree stripLoop stripStep];
        rewrite B, Q; cbn; now split.
  - cbn. now split.
  - destruct (Byte.eqb c chSlash) eqn:S; cbn [fst snd commentFree stripLoop stripStep].
    + now split.
    + destruct (Byte.eqb c chStar) eqn:T; cbn [fst snd].
      * now split.
      * cbn [commentFree stripLoop].
        change (stripStep sNorm chSlash) with (sSlash, @nil byte).
        cbn [fst snd app stripStep]. rewrite S, T. cbn. now split.
  - destruct (Byte.eqb c chLF || Byte.eqb c chCR) eqn:NL;
      cbn [fst snd commentFree stripLoop stripStep]; [|now split].
    assert (Q : Byte.eqb c chQuote = false /\ Byte.eqb c chSlash = false).
    { apply orb_true_iff in NL. destruct NL as [E|E];
        apply Byte.byte_dec_bl in E; subst c; now split. }
    destruct Q as [Q S]. rewrite Q, S. cbn. now split.
  - destruct (Byte.eqb c chStar); cbn; now split.
  - destruct (Byte.eqb c chSlash); [cbn; now split|].
    destruct (negb (Byte.eqb c chStar)); cbn; now split.
Qed.

Lemma stripLoop_settled (input : list byte) :
  forall state out,
    commentFree sNorm out = true ->
    stateAfter out = settled state ->
    commentFree sNorm (snd (stripLoop state out input)) = true
    /\ stateAfter (snd (stripLoop state out input))
       = settled (fst (stripLoop state out input)).
Proof.
  induction input as [|c input IH]; intros state out Hc Hs; cbn [stripLoop].
  - now split.
  - pose proof (stripStep_settled state c) as [S1 S2].
    destruct (stripStep state c) as [state' added]. cbn [fst snd] in S1, S2.
    apply IH.
    + rewrite (commentFree_app out sNorm added Hc).
      fold (stateAfter out). now rewrite Hs.
    + rewrite stateAfter_app, Hs. exact S2.
Qed.

Lemma strip_output_commentFree (input : list byte) :
  commentFree sNorm (StripJSONComments input) = true.
Proof.
  rewrite StripJSONComments_eq.
  destruct (stripLoop_settled input sNorm [] eq_refl eq_refl) as [Hc Hs].
  rewrite (commentFree_app _ sNorm _ Hc). fold (stateAfter (snd (stripLoop sNorm [] input))).
  rewrite Hs.
  destruct (fst (stripLoop sNorm [] input)); reflexivity.
Qed.

Lemma stripLoop_line_comment (body : list byte) :
  forall out,
    existsb isNewline body = false ->
    stripLoop sLine out body = (sLine, out).
Proof.
  induction body as [|c body IH]; intros out H; [reflexivity|].
  cbn [existsb] in H. apply orb_false_iff in H. destruct H as [Hc H].
  cbn [stripLoop stripStep]. unfold isNewline in Hc. rewrite Hc.
  rewrite app_nil_r. now apply IH.
Qed.

Lemma stripLoop_block_comment (body : list byte) :
  forall state out,
    state = sBlock \/ (state = sBlockStar /\ hasBlockEnd (chStar :: body) = false) ->
    hasBlockEnd body = false ->
    exists state',
      stripLoop state out body = (state', out)
      /\ (state' = sBlock \/ state' = sBlockStar).
Proof.
  induction body as [|c body IH]; intros state out Hst H.
  - exists state. split; [reflexivity|]. destruct Hst as [->|[-> _]]; [now left|now right].
  - assert (Hb : hasBlockEnd body = false).
    { cbn [hasBlockEnd] in H. destruct body; [reflexivity|].
      now apply orb_false_iff in H. }
    cbn [stripLoop].
    destruct Hst as [->|[-> Hs]]; cbn [stripStep].
    + destruct (Byte.eqb c chStar) eqn:T; rewrite app_nil_r.
      * apply IH; [|exact Hb]. right. split; [reflexivity|].
        apply Byte.byte_dec_bl in T. now subst c.
      * apply IH; [now left|exact Hb].
    + assert (S : Byte.eqb c chSlash = false).
      { cbn [hasBlockEnd] in Hs. apply orb_false_iff in Hs. destruct Hs as [Hs _].
        exact Hs. }
      rewrite S.
      destruct (Byte.eqb c chStar) eqn:T; cbn [negb]; rewrite app_nil_r.
      * apply IH; [|exact Hb]. right. split; [reflexivity|].
        apply Byte.byte_dec_bl in T. now subst c.
      * apply IH; [now left|exact Hb].
Qed.

Lemma strip_norm_prefix (pre : list byte) :
  stateAfter pre = sNorm -> StripJSONComments pre = snd (stripLoop sNorm [] pre).
Proof.
  intros H. rewrite StripJSONComments_eq. unfold stateAfter in H. rewrite H.
  apply app_nil_r.
Qed.

Lemma stripLoop_after_norm (pre post : list byte) :
  stateAfter pre = sNorm ->
  stripLoop sNorm [] (pre ++ post) = stripLoop sNorm (StripJSONComments pre) post.
Proof.
  intros Hpre. rewrite stripLoop_app, (strip_norm_prefix pre Hpre).
  unfold stateAfter in Hpre. now rewrite Hpre.
Qed.

Lemma strip_norm_append (out post : list byte) :
  snd (stripLoop sNorm out post) ++ pending (fst (stripLoop sNorm out post))
  = out ++ StripJSONComments post.
Proof.
  rewrite StripJSONComments_eq, (stripLoop_out post sNorm out). cbn [fst snd].
  now rewrite app_assoc.
Qed.

Lemma stripLoop_open_line (out rest : list byte) :
  stripLoop sNorm out (chSlash :: chSlash :: rest) = stripLoop sLine out rest.
Proof.
  cbn [stripLoop].
  change (stripStep sNorm chSlash) with (sSlash, @nil byte). cbv beta iota.
  change (stripStep sSlash chSlash) with (sLine, @nil byte). cbv beta iota.
  now rewrite !app_nil_r.
Qed.

Lemma stripLoop_open_block (out rest : list byte) :
  stripLoop sNorm out (chSlash :: chStar :: rest) = stripLoop sBlock out rest.
Proof.
  cbn [stripLoop].
  change (stripStep sNorm chSlash) with (sSlash, @nil byte). cbv beta iota.
  change (stripStep sSlash chStar) with (sBlock, @nil byte). cbv beta iota.
  now rewrite !app_nil_r.
Qed.

Lemma stripLoop_close_block (state : StripState) (out rest : list byte) :
  state = sBlock \/ state = sBlockStar ->
  stripLoop state out (chStar :: chSlash :: rest) = stripLoop sNorm out rest.
Proof.
  intros [->| ->]; cbn [stripLoop].
  - change (stripStep sBlock chStar) with (sBlockStar, @nil byte). cbv beta iota.
    change (stripStep sBlockStar chSlash) with (sNorm, @nil byte). cbv beta iota.
    now rewrite !app_nil_r.
  - change (stripStep sBlockStar chStar) with (sBlockStar, @nil byte). cbv beta iota.
    change (stripStep sBlockStar chSlash) with (sNorm, @nil byte). cbv beta iota.
    now rewrite !app_nil_r.
Qed.

(** X20: the output of [StripJSONComments] is never longer than its
    input. *)
Theorem X20_strip_not_longer (input : list byte) :
  lenN (StripJSONComments input) <= lenN input.
Proof.
  rewrite StripJSONComments_eq. unfold lenN. rewrite length_app.
  pose proof (stripLoop_length input sNorm []) as H. cbn [List.length pending] in H.
  lia.
Qed.

(** X21: [StripJSONComments] is idempotent: in its own output it finds no
    comment, and stripping that output again changes nothing. *)
Theorem X21_strip_idempotent (input : list byte) :
  commentFree sNorm (StripJSONComments input) = true
  /\ StripJSONComments (StripJSONComments input) = StripJSONComments input.
Proof.
  split; [apply strip_output_commentFree|].
  apply strip_commentFree, strip_output_commentFree.
Qed.

(** X22: a line comment that starts outside a string is removed up to the
    line feed or carriage return that ends it, and that byte is kept. *)
Theorem X22_strip_line_comment (pre body post : list byte) (nl : byte) :
  stateAfter pre = sNorm ->
  existsb isNewline body = false ->
  isNewline nl = true ->
  StripJSONComments (pre ++ [chSlash; chSlash] ++ body ++ [nl] ++ post)
  = StripJSONComments pre ++ [nl] ++ StripJSONComments post.
Proof.
  intros Hpre Hbody Hnl.
  rewrite StripJSONComments_eq at 1.
  rewrite (stripLoop_after_norm pre _ Hpre).
  cbn [app]. rewrite stripLoop_open_line.
  rewrite stripLoop_app, (stripLoop_line_comment body _ Hbody). cbn [fst snd].
  cbn [stripLoop stripStep]. unfold isNewline in Hnl. rewrite Hnl.
  rewrite strip_norm_append. now rewrite <- app_assoc.
Qed.

Lemma X22_strip_line_comment_witness :
  StripJSONComments (bytesOfString "[1," ++ [chSlash; chSlash] ++ bytesOfString " one"
                       ++ [chLF] ++ bytesOfString "2]")
  = StripJSONComments (bytesOfString "[1,") ++ [chLF] ++ StripJSONComments (bytesOfString "2]").
Proof.
  apply (X22_strip_line_comment (bytesOfString "[1,") (bytesOfString " one")
           (bytesOfString "2]") chLF); reflexivity.
Defined.

(** X23: a block comment that starts outside a string is removed whole, up
    to the first star-slash after its opening, and nothing is written in
    its place. *)
Theorem X23_strip_block_comment (pre body post : list byte) :
  stateAfter pre = sNorm ->
  hasBlockEnd body = false ->
  StripJSONComments (pre ++ [chSlash; chStar] ++ body ++ [chStar; chSlash] ++ post)
  = StripJSONComments pre ++ StripJSONComments post.
Proof.
  intros Hpre Hbody.
  rewrite StripJSONComments_eq at 1.
  rewrite (stripLoop_after_norm pre _ Hpre).
  cbn [app]. rewrite stripLoop_open_block, stripLoop_app.
  destruct (stripLoop_block_comment body sBlock (StripJSONComments pre)
              (or_introl eq_refl) Hbody) as [st [E Hst]].
  rewrite E. cbn [fst snd].
  rewrite (stripLoop_close_block st _ _ Hst).
  apply strip_norm_append.
Qed.

Lemma X23_strip_block_comment_witness :
  StripJSONComments (bytesOfString "[1," ++ [chSlash; chStar] ++ bytesOfString " a * b "
                       ++ [chStar; chSlash] ++ bytesOfString "2]")
  = StripJSONComments (bytesOfString "[1,") ++ StripJSONComments (bytesOfString "2]").
Proof.
  apply (X23_strip_block_comment (bytesOfString "[1,") (bytesOfString " a * b ")
           (bytesOfString "2]")); reflexivity.
Defined.

(** X24: a comment that is never closed swallows the rest of the input
    without an error: the output is that of the text before it. *)
Theorem X24_strip_unterminated_comment (pre body : list byte) :
  stateAfter pre = sNorm ->
  (existsb isNewline body = false ->
   StripJSONComments (pre ++ [chSlash; chSlash] ++ body) = StripJSONComments pre)
  /\ (hasBlockEnd body = false ->
      StripJSONComments (pre ++ [chSlash; chStar] ++ body) = StripJSONComments pre).
Proof.
  intros Hpre. split; intros Hbody.
  - rewrite StripJSONComments_eq at 1.
    rewrite (stripLoop_after_norm pre _ Hpre).
    cbn [app]. rewrite stripLoop_open_line, (stripLoop_line_comment body _ Hbody).
    cbn [fst snd pending]. apply app_nil_r.
  - rewrite StripJSONComments_eq at 1.
    rewrite (stripLoop_after_norm pre _ Hpre).
    cbn [app]. rewrite stripLoop_open_block.
    destruct (stripLoop_block_comment body sBlock (StripJSONComments pre)
                (or_introl eq_refl) Hbody) as [st [E Hst]].
    rewrite E. cbn [fst snd].
    destruct Hst as [->| ->]; apply app_nil_r.
Qed.

Lemma X24_strip_unterminated_comment_witness :
  StripJSONComments (bytesOfString "{}" ++ [chSlash; chStar] ++ bytesOfString " open")
  = StripJSONComments (bytesOfString "{}").
Proof.
  apply (X24_strip_unterminated_comment (bytesOfString "{}") (bytesOfString " open"));
    reflexivity.
Defined.

(** ** The secure wrapper: what [DecryptJOLT] does on any input *)

Lemma bytesEqb_neq (a b : list byte) : a <> b -> bytesEqb a b = false.
Proof.
  intros N. unfold bytesEqb. destruct (bytesCompare a b) eqn:E; try reflexivity.
  now apply bytesCompare_eq in E.
Qed.

Lemma byte_eqb_neq (a b : byte) : a <> b -> Byte.eqb a b = false.
Proof.
  intros N. destruct (Byte.eqb a b) eqn:E; [|reflexivity].
  now apply Byte.byte_dec_bl in E.
Qed.

Lemma lenN_writeVarBytes (b : list byte) : lenN b <= lenN (writeVarBytes b).
Proof. unfold writeVarBytes. apply lenN_le_app_r. Qed.

Lemma lenN_sealedBlob (alg keyID nonce aad ct : list byte) :
  lenN alg + lenN keyID + lenN nonce + lenN aad + lenN ct
  <= lenN (sealedBlob alg keyID nonce aad ct).
Proof.
  unfold sealedBlob. rewrite !lenN_app.
  pose proof (lenN_writeVarBytes alg). pose proof (lenN_writeVarBytes keyID).
  pose proof (lenN_writeVarBytes nonce). pose proof (lenN_writeVarBytes aad).
  pose proof (lenN_writeVarBytes ct). lia.
Qed.

Section DecryptTrace.
Variable jsonUnmarshalHeader : list byte -> option Header.
Variable krGet : string -> option (list byte).
Variable aeadOpen : string -> list byte -> list byte -> list byte -> list byte
                    -> option (list byte).

(** Every run either stops before the keyring with the log untouched, or
    has parsed a header with a known algorithm and goes on from the lookup. *)
Lemma DecryptJOLT_outcome (jsec : list byte) (log : list Event) :
  (exists e,
      DecryptJOLT jsonUnmarshalHeader krGet aeadOpen jsec log = (log, inl e)
      /\ beforeKeyring e = true)
  \/ (exists hdr suite nonce ct aad,
         jsonUnmarshalHeader aad = Some hdr
         /\ suiteFor (Alg hdr) = Some suite
         /\ DecryptJOLT jsonUnmarshalHeader krGet aeadOpen jsec log
            = match krGet (KeyID hdr) with
              | None => (log ++ [EvKeyGet (KeyID hdr)], inl ErrKeyring)
              | Some key =>
                  if negb (lenN key =? keyLen suite)
                  then (log ++ [EvKeyGet (KeyID hdr)], inl ErrKeyLengthMismatch)
                  else
                    let log' := (log ++ [EvKeyGet (KeyID hdr)])
                                  ++ [EvOpen (Alg hdr) key nonce ct aad] in
                    match aeadOpen (Alg hdr) key nonce ct aad with
                    | None => (log', inl ErrDecryptionFailed)
                    | Some pt =>
                        match DecodeBinary pt with
                        | Ok v => (log', inr (v, hdr))
                        | Err e => (log', inl (ErrDecode hdr e))
                        end
                    end
              end).
Proof.
  unfold DecryptJOLT, secBind, secRead, secRet, secFail, secEmit.
  destruct (readMagic jsec) as [[magic rd]|e]; cbv beta iota;
    [|left; eexists; split; reflexivity].
  destruct (negb (bytesEqb magic magicJSEC)); [left; eexists; split; reflexivity|].
  destruct (ReadByte rd) as [[ver rd1]|e]; cbv beta iota;
    [|left; eexists; split; reflexivity].
  destruct (negb (Byte.eqb ver ver01)); [left; eexists; split; reflexivity|].
  destruct (readVarBytes rd1) as [[alg rd2]|e]; cbv beta iota;
    [|left; eexists; split; reflexivity].
  destruct (readVarBytes rd2) as [[keyID rd3]|e]; cbv beta iota;
    [|left; eexists; split; reflexivity].
  destruct (readVarBytes rd3) as [[nonce rd4]|e]; cbv beta iota;
    [|left; eexists; split; reflexivity].
  destruct (readVarBytes rd4) as [[aad rd5]|e]; cbv beta iota;
    [|left; eexists; split; reflexivity].
  destruct (readVarBytes rd5) as [[ct rd6]|e]; cbv beta iota;
    [|left; eexists; split; reflexivity].
  destruct (jsonUnmarshalHeader aad) as [hdr|] eqn:J;
    [|left; eexists; split; reflexivity].
  destruct (negb (String.eqb (KeyID hdr) (stringOfBytes keyID))
            || negb (String.eqb (stringOfBytes alg) (Alg hdr)));
    [left; eexists; split; reflexivity|].
  destruct (suiteFor (Alg hdr)) as [suite|] eqn:S;
    [|left; eexists; split; reflexivity].
  right. exists hdr, suite, nonce, ct, aad.
  split; [exact J|]. split; [exact S|].
  destruct (krGet (KeyID hdr)) as [key|]; [|reflexivity].
  destruct (negb (lenN key =? keyLen suite)); [reflexivity|].
  cbv beta iota zeta.
  destruct (aeadOpen (Alg hdr) key nonce ct aad) as [pt|]; [|reflexivity].
  destruct (DecodeBinary pt); reflexivity.
Qed.
End DecryptTrace.

(** X25: when [DecryptJOLT] succeeds, the header it returns was parsed from
    the very bytes that were authenticated as associated data, the key is the
    one the keyring holds for the header's key id and has the length of the
    header's suite, the value is the decoding of the opened plaintext, and
    the keyring and the AEAD were each used exactly once. *)
Theorem X25_decrypt_success_authenticated
    (jsonUnmarshalHeader : list byte -> option Header)
    (krGet : string -> option (list byte))
    (aeadOpen : string -> list byte -> list byte -> list byte -> list byte
                -> option (list byte))
    (jsec : list byte) (log log' : list Event) (v : Value) (hdr : Header) :
  DecryptJOLT jsonUnmarshalHeader krGet aeadOpen jsec log = (log', inr (v, hdr)) ->
  exists suite key nonce ct aad pt,
    jsonUnmarshalHeader aad = Some hdr
    /\ suiteFor (Alg hdr) = Some suite
    /\ krGet (KeyID hdr) = Some key
    /\ lenN key = keyLen suite
    /\ aeadOpen (Alg hdr) key nonce ct aad = Some pt
    /\ DecodeBinary pt = Ok v
    /\ log' = log ++ [EvKeyGet (KeyID hdr); EvOpen (Alg hdr) key nonce ct aad].
Proof.
  intros H.
  destruct (DecryptJOLT_outcome jsonUnmarshalHeader krGet aeadOpen jsec log)
    as [[e [E _]]|[h [suite [nonce [ct [aad [J [S E]]]]]]]];
    rewrite E in H; [discriminate H|].
  destruct (krGet (KeyID h)) as [key|] eqn:K; [|discriminate H].
  destruct (negb (lenN key =? keyLen suite)) eqn:L; [discriminate H|].
  cbv zeta in H.
  destruct (aeadOpen (Alg h) key nonce ct aad) as [pt|] eqn:O; [|discriminate H].
  destruct (DecodeBinary pt) as [v0|] eqn:D; [|discriminate H].
  injection H as <- <- <-.
  exists suite, key, nonce, ct, aad, pt.
  repeat split; try assumption.
  - apply negb_false_iff in L. now apply N.eqb_eq in L.
  - now rewrite <- app_assoc.
Qed.

Lemma X25_decrypt_success_authenticated_witness :
  exists suite key nonce ct aad pt,
    Some demoHeader = Some demoHeader
    /\ suiteFor (Alg demoHeader) = Some suite
    /\ StaticKeyringGet demoKeyring (KeyID demoHeader) = Some key
    /\ lenN key = keyLen suite
    /\ Some ct = Some pt
    /\ DecodeBinary pt = Ok (VBool true)
    /\ [EvKeyGet "k1"; EvOpen AlgAES256GCM (repeat x07 32) [x00] [tagT] [x7b; x7d]]
       = [] ++ [EvKeyGet (KeyID demoHeader); EvOpen (Alg demoHeader) key nonce ct aad].
Proof.
  apply (X25_decrypt_success_authenticated
           (fun _ => Some demoHeader) (StaticKeyringGet demoKeyring)
           (fun _ _ _ ct _ => Some ct)
           (sealedBlob (bytesOfString AlgAES256GCM) (bytesOfString "k1") [x00] [x7b; x7d]
              [tagT])
           [] [EvKeyGet "k1"; EvOpen AlgAES256GCM (repeat x07 32) [x00] [tagT] [x7b; x7d]]
           (VBool true) demoHeader).
  now vm_compute.
Defined.

(** X26: the calls a failed [DecryptJOLT] has made follow from its error:
    none for an error of the framing, the header or the algorithm; the key
    lookup alone when the key is missing or of the wrong length; the lookup
    and one open, with a key of the suite's length, when authentication or
    decoding fails. *)
Theorem X26_decrypt_failure_trace
    (jsonUnmarshalHeader : list byte -> option Header)
    (krGet : string -> option (list byte))
    (aeadOpen : string -> list byte -> list byte -> list byte -> list byte
                -> option (list byte))
    (jsec : list byte) (log log' : list Event) (e : SecError) :
  DecryptJOLT jsonUnmarshalHeader krGet aeadOpen jsec log = (log', inl e) ->
  match e with
  | ErrKeyring | ErrKeyLengthMismatch => exists k, log' = log ++ [EvKeyGet k]
  | ErrDecryptionFailed | ErrDecode _ _ =>
      exists k alg key nonce ct aad suite,
        log' = log ++ [EvKeyGet k; EvOpen alg key nonce ct aad]
        /\ krGet k = Some key
        /\ suiteFor alg = Some suite
        /\ lenN key = keyLen suite
  | _ => log' = log
  end.
Proof.
  intros H.
  destruct (DecryptJOLT_outcome jsonUnmarshalHeader krGet aeadOpen jsec log)
    as [[e0 [E B]]|[h [suite [nonce [ct [aad [J [S E]]]]]]]];
    rewrite E in H.
  - injection H as <- <-. destruct e0; try discriminate B; reflexivity.
  - destruct (krGet (KeyID h)) as [key|] eqn:K.
    + destruct (negb (lenN key =? keyLen suite)) eqn:L.
      * injection H as <- <-. now exists (KeyID h).
      * cbv zeta in H.
        apply negb_false_iff in L. apply N.eqb_eq in L.
        destruct (aeadOpen (Alg h) key nonce ct aad) as [pt|].
        -- destruct (DecodeBinary pt); [discriminate H|].
           injection H as <- <-.
           exists (KeyID h), (Alg h), key, nonce, ct, aad, suite.
           rewrite <- app_assoc. now repeat split.
        -- injection H as <- <-.
           exists (KeyID h), (Alg h), key, nonce, ct, aad, suite.
           rewrite <- app_assoc. now repeat split.
    + injection H as <- <-. now exists (KeyID h).
Qed.

Lemma X26_decrypt_failure_trace_witness :
  exists k, [EvKeyGet "k2"] = [] ++ [EvKeyGet k].
Proof.
  apply (X26_decrypt_failure_trace
           (fun _ => Some {| Alg := AlgAES256GCM; KeyID := "k2"; Extra := None |})
           (StaticKeyringGet demoKeyring)
           (fun _ _ _ ct _ => Some ct)
           (sealedBlob (bytesOfString AlgAES256GCM) (bytesOfString "k2") [x00] [x7b; x7d]
              [tagT])
           [] [EvKeyGet "k2"] ErrKeyring).
  now vm_compute.
Defined.

(** X27: the framing checks of [DecryptJOLT]: fewer than four bytes give a
    read error, four bytes other than [JSEC] give the bad-magic error, and a
    version byte other than 0x01 gives the unsupported-version error with
    that byte; none of them reaches the keyring. *)
Theorem X27_decrypt_framing
    (jsonUnmarshalHeader : list byte -> option Header)
    (krGet : string -> option (list byte))
    (aeadOpen : string -> list byte -> list byte -> list byte -> list byte
                -> option (list byte))
    (log : list Event) :
  (forall jsec, lenN jsec < 4 ->
     exists e, DecryptJOLT jsonUnmarshalHeader krGet aeadOpen jsec log
               = (log, inl (ErrRead e)))
  /\ (forall a b c d rest, [a; b; c; d] <> magicJSEC ->
        DecryptJOLT jsonUnmarshalHeader krGet aeadOpen (a :: b :: c :: d :: rest) log
        = (log, inl ErrBadMagic))
  /\ (forall ver rest, ver <> ver01 ->
        DecryptJOLT jsonUnmarshalHeader krGet aeadOpen (magicJSEC ++ ver :: rest) log
        = (log, inl (ErrUnsupportedVersion ver))).
Proof.
  split; [|split].
  - intros jsec H.
    unfold DecryptJOLT, secBind, secRead, secRet, secFail.
    destruct jsec as [|a [|b [|c [|d rest]]]]; cbn [readMagic];
      try (eexists; reflexivity).
    rewrite !lenN_cons in H. lia.
  - intros a b c d rest N.
    unfold DecryptJOLT, secBind, secRead, secRet, secFail. cbn [readMagic].
    now rewrite (bytesEqb_neq _ _ N).
  - intros ver rest N.
    unfold DecryptJOLT, secBind, secRead, secRet, secFail, magicJSEC.
    cbn [app readMagic ReadByte].
    change (bytesEqb [x4a; x53; x45; x43] [x4a; x53; x45; x43]) with true.
    cbn [negb]. now rewrite (byte_eqb_neq _ _ N).
Qed.

Lemma X27_decrypt_framing_witness :
  DecryptJOLT (fun _ => None) (StaticKeyringGet demoKeyring) (fun _ _ _ ct _ => Some ct)
    (magicJSEC ++ x02 :: [x00]) []
  = ([], inl (ErrUnsupportedVersion x02)).
Proof.
  apply (proj2 (proj2 (X27_decrypt_framing (fun _ => None) (StaticKeyringGet demoKeyring)
                         (fun _ _ _ ct _ => Some ct) []))).
  discriminate.
Defined.

(** ** The secure wrapper: [EncryptJOLT] followed by [DecryptJOLT] *)

Lemma suiteFor_alg_length (alg : string) (suite : aeadSuite) :
  suiteFor alg = Some suite -> lenN (bytesOfString alg) <= maxInt.
Proof.
  unfold suiteFor. intros H.
  destruct (String.eqb alg AlgXChaCha20Poly1305) eqn:E1.
  - apply String.eqb_eq in E1. subst alg. now vm_compute.
  - destruct (String.eqb alg AlgAES256GCM) eqn:E2; [|discriminate H].
    apply String.eqb_eq in E2. subst alg. now vm_compute.
Qed.

(** X28: what [EncryptJOLT] returns, [DecryptJOLT] opens.  A blob returned
    by [EncryptJOLT] is the five fields around the nonce read from the random
    source, the marshalled header and the sealed encoding of the value; with
    a JSON codec that gives back the [alg] and [kid] of a header and an AEAD
    whose [Open] inverts [Seal], decrypting the blob asks the keyring once,
    opens once with that same key, nonce, ciphertext and associated data, and
    ends in the decoding of the encoded value, which for a value of the data
    model is structurally equal to it. *)
Theorem X28_encrypt_then_decrypt
    (krGet : string -> option (list byte))
    (randRead : N -> option (list byte))
    (jsonMarshalHeader : Header -> option (list byte))
    (jsonUnmarshalHeader : list byte -> option Header)
    (aeadSeal : string -> list byte -> list byte -> list byte -> list byte -> list byte)
    (aeadOpen : string -> list byte -> list byte -> list byte -> list byte
                -> option (list byte))
    (v : Value) (hdr : Header) (blob : list byte) (log : list Event) :
  (forall h a, Alg h = Alg hdr -> KeyID h = KeyID hdr -> jsonMarshalHeader h = Some a ->
               exists h', jsonUnmarshalHeader a = Some h'
                          /\ Alg h' = Alg hdr /\ KeyID h' = KeyID hdr) ->
  (forall alg key nonce pt aad,
      aeadOpen alg key nonce (aeadSeal alg key nonce pt aad) aad = Some pt) ->
  EncryptJOLT krGet randRead jsonMarshalHeader aeadSeal v hdr = inr blob ->
  lenN blob <= maxInt ->
  exists suite key nonce aad pt hdr',
    suiteFor (Alg hdr) = Some suite
    /\ krGet (KeyID hdr) = Some key
    /\ lenN key = keyLen suite
    /\ EncodeBinary v = Ok pt
    /\ randRead (nonceLen suite) = Some nonce
    /\ jsonMarshalHeader (headerForAAD hdr) = Some aad
    /\ blob = sealedBlob (bytesOfString (Alg hdr)) (bytesOfString (KeyID hdr)) nonce aad
                (aeadSeal (Alg hdr) key nonce pt aad)
    /\ jsonUnmarshalHeader aad = Some hdr'
    /\ Alg hdr' = Alg hdr /\ KeyID hdr' = KeyID hdr
    /\ DecryptJOLT jsonUnmarshalHeader krGet aeadOpen blob log
       = (log ++ [EvKeyGet (KeyID hdr);
                  EvOpen (Alg hdr) key nonce (aeadSeal (Alg hdr) key nonce pt aad) aad],
          match DecodeBinary pt with
          | Ok v' => inr (v', hdr')
          | Err e => inl (ErrDecode hdr' e)
          end)
    /\ (InModel false v -> lenN pt <= maxInt ->
        exists v', DecodeBinary pt = Ok v' /\ Veq v v').
Proof.
  intros Hjson Haead Henc Hlen. unfold EncryptJOLT in Henc.
  destruct (suiteFor (Alg hdr)) as [suite|] eqn:S; [|discriminate Henc].
  destruct (krGet (KeyID hdr)) as [key|] eqn:K; [|discriminate Henc].
  destruct (negb (lenN key =? keyLen suite)) eqn:L; [discriminate Henc|].
  destruct (EncodeBinary v) as [pt|] eqn:E; [|discriminate Henc].
  destruct (randRead (nonceLen suite)) as [nonce|] eqn:Rn; [|discriminate Henc].
  cbv zeta in Henc.
  assert (A0 : Alg (headerForAAD hdr) = Alg hdr)
    by (unfold headerForAAD; now destruct (Extra hdr)).
  assert (K0 : KeyID (headerForAAD hdr) = KeyID hdr)
    by (unfold headerForAAD; now destruct (Extra hdr)).
  destruct (jsonMarshalHeader (headerForAAD hdr)) as [aad|] eqn:J; [|discriminate Henc].
  destruct (Hjson (headerForAAD hdr) aad A0 K0 J) as [h' [U [Ah Kh]]].
  assert (B : blob = sealedBlob (bytesOfString (Alg hdr)) (bytesOfString (KeyID hdr))
                       nonce aad (aeadSeal (Alg hdr) key nonce pt aad)).
  { rewrite A0, K0 in Henc. injection Henc as <-. reflexivity. }
  clear Henc.
  pose proof (lenN_sealedBlob (bytesOfString (Alg hdr)) (bytesOfString (KeyID hdr))
                nonce aad (aeadSeal (Alg hdr) key nonce pt aad)) as LB.
  rewrite <- B in LB.
  assert (Lk : lenN key = keyLen suite)
    by (apply negb_false_iff in L; now apply N.eqb_eq in L).
  exists suite, key, nonce, aad, pt, h'.
  do 6 (split; [first [reflexivity|assumption]|]).
  split; [exact B|]. split; [exact U|]. split; [exact Ah|]. split; [exact Kh|].
  split.
  - rewrite B. rewrite <- (app_nil_r (sealedBlob _ _ _ _ _)).
    rewrite DecryptJOLT_fields by lia.
    rewrite U, Ah, Kh, !string_bytes_id, !String.eqb_refl. cbn [negb orb].
    rewrite S, K, L. cbv zeta.
    rewrite Haead, <- app_assoc. now destruct (DecodeBinary pt).
  - intros Hin Hpt.
    destruct (roundtrip_fuel false _ _ (Nat.le_refl _) v pt Hin E Hpt) as [v' [Hv Hd]].
    exists v'. split; [|exact Hv].
    unfold DecodeBinary, DecodeBinaryWith, PreserveCommentsDefault.
    specialize (Hd []). rewrite app_nil_r in Hd. now rewrite Hd.
Qed.

Lemma X28_encrypt_then_decrypt_witness :
  exists suite key nonce aad pt hdr',
    suiteFor (Alg demoHeader) = Some suite
    /\ StaticKeyringGet demoKeyring (KeyID demoHeader) = Some key
    /\ lenN key = keyLen suite
    /\ EncodeBinary (VBool true) = Ok pt
    /\ Some (repeat x00 (N.to_nat (nonceLen suite))) = Some nonce
    /\ Some [x7b; x7d] = Some aad
    /\ sealedBlob (bytesOfString AlgAES256GCM) (bytesOfString "k1") (repeat x00 12)
         [x7b; x7d] [tagT]
       = sealedBlob (bytesOfString (Alg demoHeader)) (bytesOfString (KeyID demoHeader))
           nonce aad pt
    /\ Some demoHeader = Some hdr'
    /\ Alg hdr' = Alg demoHeader /\ KeyID hdr' = KeyID demoHeader
    /\ DecryptJOLT (fun _ => Some demoHeader) (StaticKeyringGet demoKeyring)
         (fun _ _ _ ct _ => Some ct)
         (sealedBlob (bytesOfString AlgAES256GCM) (bytesOfString "k1") (repeat x00 12)
            [x7b; x7d] [tagT]) []
       = ([] ++ [EvKeyGet (KeyID demoHeader); EvOpen (Alg demoHeader) key nonce pt aad],
          match DecodeBinary pt with
          | Ok v' => inr (v', hdr')
          | Err e => inl (ErrDecode hdr' e)
          end)
    /\ (InModel false (VBool true) -> lenN pt <= maxInt ->
        exists v', DecodeBinary pt = Ok v' /\ Veq (VBool true) v').
Proof.
  apply (X28_encrypt_then_decrypt
           (StaticKeyringGet demoKeyring)
           (fun n => Some (repeat x00 (N.to_nat n)))
           (fun _ => Some [x7b; x7d])
           (fun _ => Some demoHeader)
           (fun _ _ _ pt _ => pt)
           (fun _ _ _ ct _ => Some ct)
           (VBool true) demoHeader).
  - intros h a _ _ _. exists demoHeader. now repeat split.
  - reflexivity.
  - now vm_compute.
  - now vm_compute.
Defined.

(** ** [trimNewlines] and [NewUUID] *)

Lemma dropNewlines_spec (r : list byte) :
  exists hd,
    r = hd ++ dropNewlines r
    /\ forallb isNewline hd = true
    /\ match dropNewlines r with
       | c :: _ => isNewline c = false
       | [] => True
       end.
Proof.
  induction r as [|c r [hd [E [F L]]]].
  - exists []. now repeat split.
  - cbn [dropNewlines]. destruct (isNewline c) eqn:Ec.
    + exists (c :: hd). cbn [app forallb]. rewrite Ec, F. split; [now f_equal|].
      split; [reflexivity|exact L].
    + exists []. now repeat split.
Qed.

(** X29: [trimNewlines] removes exactly the trailing run of line feeds and
    carriage returns: the input is the result followed by such bytes only,
    and the result does not end in one. *)
Theorem X29_trimNewlines_spec (b : list byte) :
  exists tail,
    b = trimNewlines b ++ tail
    /\ forallb isNewline tail = true
    /\ forall init c, trimNewlines b = init ++ [c] -> isNewline c = false.
Proof.
  unfold trimNewlines.
  destruct (dropNewlines_spec (rev b)) as [hd [E [F L]]].
  exists (rev hd). split; [|split].
  - rewrite <- rev_app_distr, <- E. symmetry. apply rev_involutive.
  - apply forallb_forall. intros c Hc. apply in_rev in Hc.
    rewrite forallb_forall in F. now apply F.
  - intros init c H. apply (f_equal (@rev byte)) in H.
    rewrite rev_involutive, rev_app_distr in H. cbn [rev app] in H.
    now rewrite H in L.
Qed.

(** X30: on sixteen random bytes [NewUUID] returns sixteen bytes whose byte
    6 has the high nibble 4 (version 4) and whose byte 8 has the top bits 10
    (the RFC 4122 variant); the low bits of these two bytes and all other
    bytes are the random ones. *)
Theorem X30_NewUUID_version_and_variant (rnd : list byte) :
  lenN rnd = 16 ->
  exists u,
    NewUUID (Some rnd) = Some u
    /\ lenN u = 16
    /\ byteN (nth 6 u x00) / 16 = 4
    /\ byteN (nth 8 u x00) / 64 = 2
    /\ byteN (nth 6 u x00) mod 16 = byteN (nth 6 rnd x00) mod 16
    /\ byteN (nth 8 u x00) mod 64 = byteN (nth 8 rnd x00) mod 64
    /\ forall i, i <> 6%nat -> i <> 8%nat -> nth i u x00 = nth i rnd x00.
Proof.
  intros H.
  assert (Hl : List.length rnd = 16%nat) by (unfold lenN in H; lia).
  clear H.
  do 16 (destruct rnd as [|? rnd]; [discriminate Hl|]).
  destruct rnd; [|discriminate Hl]. clear Hl.
  eexists. split; [reflexivity|].
  cbn [updAt nth].
  split; [reflexivity|].
  split; [destruct b5; reflexivity|].
  split; [destruct b7; reflexivity|].
  split; [destruct b5; reflexivity|].
  split; [destruct b7; reflexivity|].
  intros i H6 H8.
  do 17 (destruct i as [|i]; [try reflexivity; try (now destruct H6); now destruct H8|]).
  reflexivity.
Qed.

Lemma X30_NewUUID_version_and_variant_witness :
  exists u,
    NewUUID (Some (repeat xff 16)) = Some u
    /\ lenN u = 16
    /\ byteN (nth 6 u x00) / 16 = 4
    /\ byteN (nth 8 u x00) / 64 = 2
    /\ byteN (nth 6 u x00) mod 16 = byteN (nth 6 (repeat xff 16) x00) mod 16
    /\ byteN (nth 8 u x00) mod 64 = byteN (nth 8 (repeat xff 16) x00) mod 64
    /\ forall i, i <> 6%nat -> i <> 8%nat -> nth i u x00 = nth i (repeat xff 16) x00.
Proof.
  apply (X30_NewUUID_version_and_variant (repeat xff 16)). reflexivity.
Defined.
